(** * The reactivity core: a shallow embedding

    This development embeds the reactivity core of the repository
    ([packages/reactivity/src/effect.ts], in which the text of
    [reactive.ts] follows the text of [effect.ts];
    [packages/reactivity/src/baseHandlers.ts];
    [packages/reactivity/src/computed.ts]; and the helpers of
    [packages/shared/src/index.ts] they use) and proves properties of it.

    Conventions of the embedding.
    - Objects live in a heap and are named by their address; the identity
      of a JavaScript object is its address.
    - The production build is modelled ([__DEV__] is false): console
      warnings and the [onTrack]/[onTrigger] debug hooks are compiled out.
    - A number value is an integer or [NaN]; the number a string converts
      to is kept as an exact decimal.  Where the program computes with an
      IEEE double that the exact decimal does not determine, or converts
      an object to a primitive, the embedding throws [NotModelled] instead
      of answering.  Strings are sequences of ASCII code units.
    - User functions (effect bodies, schedulers, the host script) are terms
      of the small language [prog]; running them is a function [exec]
      driven by a step budget, since an effect may trigger effects.
    - The state carries an event log.  The log is instrumentation only:
      nothing in the embedded code reads it. *)

From Stdlib Require Import ZArith List String Ascii Bool Lia Arith.
From Stdlib Require Import DecimalString DecimalNat DecimalPos DecimalN.
Import ListNotations.

Local Open Scope string_scope.
Local Open Scope list_scope.
Local Open Scope nat_scope.

Set Implicit Arguments.

(** ** JavaScript values and property keys *)

Definition addr := nat.   (* identity of a heap object *)
Definition eid := nat.    (* identity of an effect: its [id], drawn from [uid] *)

(** Symbols used as property keys.  [ITERATE_KEY] and
    [MAP_KEY_ITERATE_KEY] are the two symbols [effect.ts] creates; the
    well-known symbols of the language are [SymBuiltIn]. *)
Inductive symbol : Type :=
| SymIterate
| SymMapKeyIterate
| SymBuiltIn (n : nat)
| SymUser (n : nat).

Inductive key : Type :=
| KStr (s : string)
| KSym (y : symbol).

Definition ITERATE_KEY : key := KSym SymIterate.
Definition MAP_KEY_ITERATE_KEY : key := KSym SymMapKeyIterate.

Inductive value : Type :=
| VUndef
| VNull
| VBool (b : bool)
| VNum (z : Z)
| VNaN
| VStr (s : string)
| VRef (a : addr)          (* an object: record, array, collection, proxy, ref *)
| VEff (e : eid)           (* an effect (a function object) *)
| VNative (name : string)  (* a built-in or instrumented method *)
| VSetter (c : addr).      (* the setter function a computed was given *)

Definition symbol_eqb (a b : symbol) : bool :=
  match a, b with
  | SymIterate, SymIterate => true
  | SymMapKeyIterate, SymMapKeyIterate => true
  | SymBuiltIn n, SymBuiltIn m => Nat.eqb n m
  | SymUser n, SymUser m => Nat.eqb n m
  | _, _ => false
  end.

Definition key_eqb (a b : key) : bool :=
  match a, b with
  | KStr s, KStr t => String.eqb s t
  | KSym x, KSym y => symbol_eqb x y
  | _, _ => false
  end.

(** [a === b] *)
Definition strictEq (a b : value) : bool :=
  match a, b with
  | VUndef, VUndef => true
  | VNull, VNull => true
  | VBool x, VBool y => Bool.eqb x y
  | VNum x, VNum y => Z.eqb x y
  | VStr x, VStr y => String.eqb x y
  | VRef x, VRef y => Nat.eqb x y
  | VEff x, VEff y => Nat.eqb x y
  | VNative x, VNative y => String.eqb x y
  | VSetter x, VSetter y => Nat.eqb x y
  | _, _ => false     (* in particular NaN === NaN is false *)
  end.

(** ToBoolean *)
Definition truthy (v : value) : bool :=
  match v with
  | VUndef | VNull | VNaN => false
  | VBool b => b
  | VNum z => negb (Z.eqb z 0)
  | VStr s => negb (String.eqb s "")
  | VRef _ | VEff _ | VNative _ | VSetter _ => true
  end.

Definition isString (k : key) : bool :=
  match k with KStr _ => true | KSym _ => false end.

Definition isSymbol (k : key) : bool :=
  match k with KStr _ => false | KSym _ => true end.

(** [isObject]: [val !== null && typeof val === 'object'] *)
Definition isObject (v : value) : bool :=
  match v with VRef _ => true | _ => false end.

(** [hasChanged], shared/src/index.ts:
    [value !== oldValue && (value === value || oldValue === oldValue)] *)
Definition hasChanged (value oldValue : value) : bool :=
  negb (strictEq value oldValue)
  && (strictEq value value || strictEq oldValue oldValue).

(** ** Numeric conversion of strings

    [trigger] compares a property key with the new length by [>=], and
    [isIntegerKey] uses [parseInt] and number-to-string conversion.  A
    number obtained from a string is [m * 10^e], an infinity, or [NaN]. *)

Inductive jsnum : Type :=
| JNaN
| JInf (neg : bool)
| JFin (m : Z) (e : Z).

Definition isWS (c : ascii) : bool :=
  let n := nat_of_ascii c in
  (n =? 9) || (n =? 10) || (n =? 11) || (n =? 12) || (n =? 13) || (n =? 32).

Fixpoint dropWS (l : list ascii) : list ascii :=
  match l with
  | c :: r => if isWS c then dropWS r else l
  | [] => []
  end.

Definition trimWS (l : list ascii) : list ascii :=
  rev (dropWS (rev (dropWS l))).

Definition digitVal (c : ascii) : option Z :=
  let n := nat_of_ascii c in
  if (48 <=? n) && (n <=? 57) then Some (Z.of_nat (n - 48)) else None.

Definition hexVal (c : ascii) : option Z :=
  let n := nat_of_ascii c in
  if (48 <=? n) && (n <=? 57) then Some (Z.of_nat (n - 48))
  else if (97 <=? n) && (n <=? 102) then Some (Z.of_nat (n - 87))
  else if (65 <=? n) && (n <=? 70) then Some (Z.of_nat (n - 55))
  else None.

(** The longest prefix of decimal digits: its value on top of [acc], the
    number of digits read, and the rest. *)
Fixpoint spanDigits (l : list ascii) (acc : Z) (cnt : nat)
  : Z * nat * list ascii :=
  match l with
  | c :: r =>
      match digitVal c with
      | Some d => spanDigits r (10 * acc + d) (S cnt)
      | None => (acc, cnt, l)
      end
  | [] => (acc, cnt, [])
  end.

(** All of [l] as digits of base [b]. *)
Fixpoint radixAll (b : Z) (l : list ascii) (acc : Z) : option Z :=
  match l with
  | [] => Some acc
  | c :: r =>
      match hexVal c with
      | Some d => if (d <? b)%Z then radixAll b r (b * acc + d) else None
      | None => None
      end
  end.

Definition asciis (s : string) : list ascii := list_ascii_of_string s.

Definition ascii_list_eqb (a b : list ascii) : bool :=
  String.eqb (string_of_list_ascii a) (string_of_list_ascii b).

Definition isExpMark (c : ascii) : bool :=
  let n := nat_of_ascii c in (n =? 101) || (n =? 69).

Definition parseExponent (l : list ascii) : option Z :=
  let '(sgn, l1) :=
    match l with
    | c :: r =>
        if (nat_of_ascii c =? 43) then (1%Z, r)
        else if (nat_of_ascii c =? 45) then ((-1)%Z, r)
        else (1%Z, l)
    | [] => (1%Z, l)
    end in
  match spanDigits l1 0 0 with
  | (v, S _, []) => Some (sgn * v)%Z
  | _ => None
  end.

(** StrUnsignedDecimalLiteral *)
Definition parseUnsignedDecimal (l : list ascii) : jsnum :=
  if ascii_list_eqb l (asciis "Infinity") then JInf false
  else
    let '(ip, ni, l1) := spanDigits l 0 0 in
    let '(m, nf, l2) :=
      match l1 with
      | c :: r => if (nat_of_ascii c =? 46) then spanDigits r ip 0
                  else (ip, 0, l1)
      | [] => (ip, 0, l1)
      end in
    if (ni + nf =? 0) then JNaN
    else
      match l2 with
      | [] => JFin m (- Z.of_nat nf)
      | c :: r =>
          if isExpMark c then
            match parseExponent r with
            | Some x => JFin m (x - Z.of_nat nf)
            | None => JNaN
            end
          else JNaN
      end.

Definition jsneg (n : jsnum) : jsnum :=
  match n with
  | JNaN => JNaN
  | JInf b => JInf (negb b)
  | JFin m e => JFin (- m) e
  end.

Definition radixPrefix (l : list ascii) : option (Z * list ascii) :=
  match l with
  | z :: x :: r =>
      if (nat_of_ascii z =? 48) then
        let n := nat_of_ascii x in
        if (n =? 120) || (n =? 88) then Some (16%Z, r)
        else if (n =? 111) || (n =? 79) then Some (8%Z, r)
        else if (n =? 98) || (n =? 66) then Some (2%Z, r)
        else None
      else None
  | _ => None
  end.

(** StringToNumber: the value of a StringNumericLiteral. *)
Definition StringToNumber (s : string) : jsnum :=
  let l := trimWS (asciis s) in
  match l with
  | [] => JFin 0 0
  | c :: r =>
      match radixPrefix l with
      | Some (b, ds) =>
          match ds with
          | [] => JNaN
          | _ => match radixAll b ds 0 with
                 | Some v => JFin v 0
                 | None => JNaN
                 end
          end
      | None =>
          if (nat_of_ascii c =? 43) then parseUnsignedDecimal r
          else if (nat_of_ascii c =? 45) then jsneg (parseUnsignedDecimal r)
          else parseUnsignedDecimal l
      end
  end.

(** ToNumber on primitive values.  Converting an object to a primitive
    calls its [valueOf] and [toString], which are not modelled: [None]. *)
Definition toNumber (v : value) : option jsnum :=
  match v with
  | VUndef => Some JNaN
  | VNull => Some (JFin 0 0)
  | VBool b => Some (JFin (if b then 1 else 0) 0)
  | VNum z => Some (JFin z 0)
  | VNaN => Some JNaN
  | VStr s => Some (StringToNumber s)
  | VRef _ | VEff _ | VNative _ | VSetter _ => None
  end.

(** [a >= b] on exact numbers; false when either side is [NaN]. *)
Definition jsnum_ge (a b : jsnum) : bool :=
  match a, b with
  | JNaN, _ | _, JNaN => false
  | JInf false, _ => true
  | JInf true, JInf true => true
  | JInf true, _ => false
  | JFin _ _, JInf neg => neg
  | JFin m1 e1, JFin m2 e2 =>
      let e := Z.min e1 e2 in
      (m2 * 10 ^ (e2 - e) <=? m1 * 10 ^ (e1 - e))%Z
  end.

(** *** Exact decimals and doubles

    The program computes with doubles: a numeric string converts to the
    double nearest to the decimal it denotes.  An integer of magnitude
    below [2^53] is a double, and so is such an integer divided by a power
    of two up to [2^1074]; the decimal [m * 10^e] with [e < 0] is of this
    form when [5^(-e)] divides [m]. *)
Definition safeInteger (z : Z) : bool :=
  (Z.abs z <=? 9007199254740991)%Z.

Definition isDouble (m e : Z) : bool :=
  if (0 <=? e)%Z then safeInteger (m * 10 ^ e)
  else
    let d := (5 ^ (- e))%Z in
    (m mod d =? 0)%Z && safeInteger (m / d) && (- e <=? 1074)%Z.

(** [a >= z] for the double of the decimal [a] and a safe integer [z].
    Rounding to the nearest double is monotone and leaves [z] and [z - 1]
    alone, so a decimal that is at least [z] converts to a double that is
    at least [z], and a decimal that is at most [z - 1] to a double below
    [z].  A decimal strictly between [z - 1] and [z] is compared when it
    is a double itself; otherwise the comparison is not modelled:
    [None]. *)
Definition geInteger (a : jsnum) (z : Z) : option bool :=
  match a with
  | JNaN => Some false
  | JInf neg => Some (negb neg)
  | JFin m e =>
      if jsnum_ge a (JFin z 0) then Some true
      else if jsnum_ge (JFin (z - 1) 0) a then Some false
      else if isDouble m e then Some false
      else None
  end.

(** [parseInt(s, 10)] *)
Definition parseInt10 (s : string) : jsnum :=
  let l := dropWS (asciis s) in
  let '(sgn, l1) :=
    match l with
    | c :: r =>
        if (nat_of_ascii c =? 43) then (1%Z, r)
        else if (nat_of_ascii c =? 45) then ((-1)%Z, r)
        else (1%Z, l)
    | [] => (1%Z, l)
    end in
  match spanDigits l1 0 0 with
  | (_, O, _) => JNaN
  | (v, S _, _) => JFin (sgn * v) 0
  end.

Definition decimalOfN (n : N) : string :=
  NilZero.string_of_uint (N.to_uint n).

(** Number-to-string conversion of a safe integer: its decimal digits. *)
Definition integerToString (z : Z) : string :=
  let ds := decimalOfN (Z.to_N (Z.abs z)) in
  if (z <? 0)%Z then "-" ++ ds else ds.

(** [isIntegerKey], shared/src/index.ts:
    [isString(key) && key !== 'NaN' && key[0] !== '-' &&
     '' + parseInt(key, 10) === key].
    [parseInt] answers a double: when the integer the digits denote is
    not a safe integer the answer is not determined here ([None]). *)
Definition isIntegerKey (k : key) : option bool :=
  match k with
  | KSym _ => Some false
  | KStr s =>
      if String.eqb s "NaN" then Some false
      else if (match s with
               | String c _ => (nat_of_ascii c =? 45)
               | EmptyString => false
               end)
      then Some false
      else
        match parseInt10 s with
        | JFin v _ =>
            if safeInteger v then Some (String.eqb (integerToString v) s)
            else None
        | _ => Some false
        end
  end.

(** [Number(key)] for an integer key *)
Definition keyNumber (k : key) : jsnum :=
  match k with
  | KStr s => StringToNumber s
  | KSym _ => JNaN
  end.

(** Results and exceptions of the library code. *)
Inductive outcome (A : Type) : Type :=
| Normal (a : A)
| Thrown (x : value).
Arguments Thrown {A} x.

Definition TypeError : value := VStr "TypeError".
Definition RangeError : value := VStr "RangeError".
Definition NotModelled : value := VStr "NotModelled".

(** [key >= newValue] as [trigger] evaluates it.  Both sides are first
    converted to primitives (an object as new value is not modelled).
    Two strings compare as strings, by code units; otherwise both sides
    convert to numbers, which throws a TypeError for a symbol.  A new
    value that is not a string converts to an integer or to [NaN]. *)
Definition keyGe (k : key) (newValue : value) : outcome bool :=
  match toNumber newValue with
  | None => Thrown NotModelled
  | Some n =>
      match k with
      | KSym _ => Thrown TypeError
      | KStr s =>
          match newValue with
          | VStr t => Normal (negb (String.ltb s t))
          | _ =>
              match n with
              | JFin z _ =>
                  if safeInteger z then
                    match geInteger (StringToNumber s) z with
                    | Some b => Normal b
                    | None => Thrown NotModelled
                    end
                  else Thrown NotModelled
              | _ => Normal false
              end
          end
      end
  end.

Example keyGe_3_2 : keyGe (KStr "3") (VNum 2) = Normal true.
Proof. reflexivity. Qed.
Example keyGe_0_2 : keyGe (KStr "0") (VNum 2) = Normal false.
Proof. reflexivity. Qed.
Example keyGe_frac : keyGe (KStr "1.5") (VNum 1) = Normal true.
Proof. reflexivity. Qed.
Example keyGe_name : keyGe (KStr "foo") (VNum 0) = Normal false.
Proof. reflexivity. Qed.
Example keyGe_strings : keyGe (KStr "10") (VStr "9") = Normal false.
Proof. reflexivity. Qed.
Example keyGe_rounding :
  (keyGe (KStr "0.99999999999999999999") (VNum 1),
   keyGe (KStr "-1e-400") (VNum 0),
   keyGe (KStr "0.99999999999999999999") (VNum 0),
   keyGe (KStr "0.75") (VNum 1),
   keyGe (KStr "2") (VRef 0))
  = (Thrown NotModelled, Thrown NotModelled, Normal true, Normal false,
     Thrown NotModelled).
Proof. reflexivity. Qed.
Example isIntegerKey_ex :
  (isIntegerKey (KStr "12"), isIntegerKey (KStr "012"),
   isIntegerKey (KStr "1.5"), isIntegerKey (KStr "length"),
   isIntegerKey (KStr "-1"), isIntegerKey (KStr "NaN"),
   isIntegerKey (KStr "9007199254740993"))
  = (Some true, Some false, Some false, Some false, Some false, Some false,
     None).
Proof. reflexivity. Qed.

(** ** Operation types (operations.ts, as [effect.ts] uses them) *)

Inductive TrackOpTypes : Type := GET | HAS | ITERATE.
Inductive TriggerOpTypes : Type := SET | ADD | DELETE | CLEAR.

(** [ReactiveFlags], reactive.ts *)
Definition SKIP : key := KStr "__v_skip".
Definition IS_REACTIVE : key := KStr "__v_isReactive".
Definition IS_READONLY : key := KStr "__v_isReadonly".
Definition RAW : key := KStr "__v_raw".

(** ** Programs

    The host script and every user function is a [prog]: a tree of calls
    into the library, each with the continuation that receives its result.
    [ReflectGet t k r] is the property read [Reflect.get(t, k, r)]; the
    expression [o[k]] is [ReflectGet o k o], and [o[k] = v] is
    [ReflectSet o k v o]. *)

Inductive sched (P : Type) : Type :=
| SchedUser (f : eid -> P)     (* a scheduler given by the host *)
| SchedComputed (c : addr).    (* the scheduler [computed.ts] installs *)
Arguments SchedUser {P} f.
Arguments SchedComputed {P} c.

Record ReactiveEffectOptions (P : Type) : Type := mkOptions {
  lazy : bool;
  scheduler : option (sched P);
  onStop : option P;
  opt_allowRecurse : bool
}.

Inductive rawType : Type :=
| RTObject | RTArray | RTMap | RTSet | RTWeakMap | RTWeakSet
| RTOther (name : string).

#[local] Unset Elimination Schemes.
Inductive prog : Type :=
| Ret (v : value)
| Throw (x : value)
| TryCatch (body : prog) (handler : value -> prog) (cont : value -> prog)
| ReflectGet (target : value) (k : key) (receiver : value)
             (cont : value -> prog)
| ReflectSet (target : value) (k : key) (v : value) (receiver : value)
             (cont : value -> prog)
| CallFn (f : value) (arg : value) (cont : value -> prog)
| EffectP (fn : prog) (options : ReactiveEffectOptions prog)
          (cont : value -> prog)
| EffectOf (fn : value) (options : ReactiveEffectOptions prog)
           (cont : value -> prog)
| StopP (e : eid) (cont : prog)
| TrackP (target : addr) (ty : TrackOpTypes) (k : key) (cont : prog)
| TriggerP (target : value) (ty : TriggerOpTypes) (k : option key)
           (newValue : value) (cont : prog)
| PauseTracking (cont : prog)
| EnableTracking (cont : prog)
| ResetTracking (cont : prog)
| Wrap (isReadonly shallow : bool) (target : value) (cont : value -> prog)
| ToRaw (v : value) (cont : value -> prog)
| IsReactive (v : value) (cont : value -> prog)
| IsReadonly (v : value) (cont : value -> prog)
| MarkRaw (v : value) (cont : prog)
| NewObject (rt : rawType) (props : list (key * value)) (extensible : bool)
            (cont : value -> prog)
| NewArray (elems : list value) (cont : value -> prog)
| RefP (v : value) (shallow : bool) (cont : value -> prog)
| ComputedP (getter : prog) (setter : option (value -> prog))
            (cont : value -> prog).
#[local] Set Elimination Schemes.

(** ** The heap *)

Definition props := list (key * value).

Inductive obj : Type :=
| OPlain (rt : rawType) (ps : props) (extensible : bool)
| OArray (elems : list value) (ps : props) (extensible : bool)
| OProxy (target : addr) (isReadonly shallow : bool)
| ORefImpl (_value : value) (_shallow : bool) (extra : props)
| OComputed (_value : value) (_dirty : bool) (effect : eid)
            (_setter : option (value -> prog)) (isReadonly : bool)
            (extra : props).

(** ** Effects *)

Record ReactiveEffect : Type := mkEffect {
  id : eid;
  active : bool;
  raw : prog;
  deps : list (addr * key);     (* each Dep named by its place in [targetMap] *)
  options : ReactiveEffectOptions prog;
  allowRecurse : bool
}.

(** ** Instrumentation *)

Inductive event : Type :=
| EvRun (e : eid)                       (* the function of effect [e] is called *)
| EvTrack (e : eid) (t : addr) (k : key) (* [track] passed its guard *)
| EvCleanup (e : eid)
| EvTrigger (t : value) (ty : TriggerOpTypes) (k : option key)
| EvSchedule (e : eid).                 (* the scheduler of [e] is called *)

(** ** The state of the module

    [targetMap] is the WeakMap of effect.ts; a [Map] and a [Set] are kept
    as lists in insertion order, which is the order [forEach] visits.  A
    Dep is created once per (target, key) and never replaced, so it is
    named by that pair.  [effectStack] and [trackStack] keep their top at
    the head.  [effects] holds every effect created so far; the effect
    with [id] i is at position i, and [uid] is the length of the list. *)

Definition Dep := list eid.
Definition KeyToDepMap := list (key * Dep).

Record state : Type := mkState {
  heap : list obj;
  targetMap : list (addr * KeyToDepMap);
  effects : list ReactiveEffect;
  effectStack : list eid;
  activeEffect : option eid;
  shouldTrack : bool;
  trackStack : list bool;
  reactiveMap : list (addr * addr);
  shallowReactiveMap : list (addr * addr);
  readonlyMap : list (addr * addr);
  shallowReadonlyMap : list (addr * addr);
  log : list event        (* newest first *)
}.

Definition init : state :=
  mkState [] [] [] [] None true [] [] [] [] [] [].

Definition set_heap (h : list obj) (s : state) : state :=
  mkState h (targetMap s) (effects s) (effectStack s) (activeEffect s)
    (shouldTrack s) (trackStack s) (reactiveMap s) (shallowReactiveMap s)
    (readonlyMap s) (shallowReadonlyMap s) (log s).

Definition set_targetMap (m : list (addr * KeyToDepMap)) (s : state) : state :=
  mkState (heap s) m (effects s) (effectStack s) (activeEffect s)
    (shouldTrack s) (trackStack s) (reactiveMap s) (shallowReactiveMap s)
    (readonlyMap s) (shallowReadonlyMap s) (log s).

Definition set_effects (es : list ReactiveEffect) (s : state) : state :=
  mkState (heap s) (targetMap s) es (effectStack s) (activeEffect s)
    (shouldTrack s) (trackStack s) (reactiveMap s) (shallowReactiveMap s)
    (readonlyMap s) (shallowReadonlyMap s) (log s).

Definition set_stack (st : list eid) (a : option eid) (s : state) : state :=
  mkState (heap s) (targetMap s) (effects s) st a
    (shouldTrack s) (trackStack s) (reactiveMap s) (shallowReactiveMap s)
    (readonlyMap s) (shallowReadonlyMap s) (log s).

Definition set_tracking (b : bool) (ts : list bool) (s : state) : state :=
  mkState (heap s) (targetMap s) (effects s) (effectStack s) (activeEffect s)
    b ts (reactiveMap s) (shallowReactiveMap s)
    (readonlyMap s) (shallowReadonlyMap s) (log s).

Definition set_log (l : list event) (s : state) : state :=
  mkState (heap s) (targetMap s) (effects s) (effectStack s) (activeEffect s)
    (shouldTrack s) (trackStack s) (reactiveMap s) (shallowReactiveMap s)
    (readonlyMap s) (shallowReadonlyMap s) l.

Definition emit (ev : event) (s : state) : state := set_log (ev :: log s) s.

(** *** Insertion-ordered maps and sets *)

Section Assoc.
Variables (K V : Type) (eqb : K -> K -> bool).

Fixpoint alookup (k : K) (m : list (K * V)) : option V :=
  match m with
  | [] => None
  | (k', v) :: r => if eqb k k' then Some v else alookup k r
  end.

(** [Map.prototype.set]: an existing key keeps its place. *)
Fixpoint aset (k : K) (v : V) (m : list (K * V)) : list (K * V) :=
  match m with
  | [] => [(k, v)]
  | (k', v') :: r =>
      if eqb k k' then (k, v) :: r else (k', v') :: aset k v r
  end.
End Assoc.

Definition mem (e : eid) (d : list eid) : bool := existsb (Nat.eqb e) d.

Definition sdelete (e : eid) (d : Dep) : Dep :=
  filter (fun x => negb (Nat.eqb e x)) d.

Definition depsMapOf (s : state) (t : addr) : option KeyToDepMap :=
  alookup Nat.eqb t (targetMap s).

(** The subscribers of (target, key); empty when no Dep was created. *)
Definition depOf (s : state) (t : addr) (k : key) : Dep :=
  match depsMapOf s t with
  | Some dm => match alookup key_eqb k dm with Some d => d | None => [] end
  | None => []
  end.

Definition set_dep (t : addr) (k : key) (d : Dep) (s : state) : state :=
  let dm := match depsMapOf s t with Some dm => dm | None => [] end in
  set_targetMap (aset Nat.eqb t (aset key_eqb k d dm) (targetMap s)) s.

Definition pair_eqb (a b : addr * key) : bool :=
  Nat.eqb (fst a) (fst b) && key_eqb (snd a) (snd b).

Fixpoint update_nth (A : Type) (n : nat) (f : A -> A) (l : list A) : list A :=
  match l, n with
  | [], _ => []
  | x :: r, O => f x :: r
  | x :: r, S n' => x :: update_nth n' f r
  end.

Definition effectOf (s : state) (e : eid) : option ReactiveEffect :=
  nth_error (effects s) e.

Definition with_deps (d : list (addr * key)) (f : ReactiveEffect)
  : ReactiveEffect :=
  mkEffect (id f) (active f) (raw f) d (options f) (allowRecurse f).

Definition with_active (b : bool) (f : ReactiveEffect) : ReactiveEffect :=
  mkEffect (id f) b (raw f) (deps f) (options f) (allowRecurse f).

(** ** effect.ts: tracking switches *)

Definition pauseTracking (s : state) : state :=
  set_tracking false (shouldTrack s :: trackStack s) s.

Definition enableTracking (s : state) : state :=
  set_tracking true (shouldTrack s :: trackStack s) s.

(** [const last = trackStack.pop();
     shouldTrack = last === undefined ? true : last] *)
Definition resetTracking (s : state) : state :=
  match trackStack s with
  | last :: rest => set_tracking last rest s
  | [] => set_tracking true [] s
  end.

(** ** effect.ts: [track] *)

Definition track (target : addr) (ty : TrackOpTypes) (k : key) (s : state)
  : state :=
  if negb (shouldTrack s) then s
  else
    match activeEffect s with
    | None => s
    | Some e =>
        let s1 := emit (EvTrack e target k) s in
        let dep := depOf s1 target k in
        if mem e dep then s1
        else
          let s2 := set_dep target k (dep ++ [e]) s1 in
          set_effects
            (update_nth e (fun f => with_deps (deps f ++ [(target, k)]) f)
               (effects s2)) s2
    end.

(** ** effect.ts: [cleanup] *)

Definition dep_delete (e : eid) (s : state) (tk : addr * key) : state :=
  set_dep (fst tk) (snd tk) (sdelete e (depOf s (fst tk) (snd tk))) s.

Definition cleanup (e : eid) (s : state) : state :=
  let s0 := emit (EvCleanup e) s in
  match effectOf s0 e with
  | None => s0
  | Some f =>
      match deps f with
      | [] => s0
      | ds =>
          let s1 := fold_left (dep_delete e) ds s0 in
          set_effects (update_nth e (with_deps []) (effects s1)) s1
      end
  end.

(** ** Objects: own properties

    An object offers its data properties; the accessor [value] of a ref or
    a computed is handled by [reflectGet] and [reflectSet].  Of the members
    objects inherit from the built-in prototypes only the array methods
    that baseHandlers.ts names are modelled. *)

Definition jsnum_lt (a b : jsnum) : bool :=
  match a, b with
  | JNaN, _ | _, JNaN => false
  | _, _ => negb (jsnum_ge a b)
  end.

(** The integer a number denotes, if it denotes one. *)
Definition jsnum_int (n : jsnum) : option Z :=
  match n with
  | JFin m e =>
      if (0 <=? e)%Z then Some (m * 10 ^ e)%Z
      else if (m mod 10 ^ (- e) =? 0)%Z then Some (m / 10 ^ (- e))%Z
      else None
  | _ => None
  end.

(** An array index: an integer key below [2^32 - 1]. *)
Definition arrayIndex (k : key) : option nat :=
  match isIntegerKey k with
  | Some true =>
      match jsnum_int (keyNumber k) with
      | Some z => if (z <? 4294967295)%Z then Some (Z.to_nat z) else None
      | None => None
      end
  | _ => None
  end.

Definition LENGTH : key := KStr "length".
Definition VALUE : key := KStr "value".

Definition getOwn (a : addr) (o : obj) (k : key) : option value :=
  match o with
  | OPlain _ ps _ => alookup key_eqb k ps
  | OArray elems ps _ =>
      match arrayIndex k with
      | Some i => nth_error elems i
      | None =>
          if key_eqb k LENGTH then Some (VNum (Z.of_nat (List.length elems)))
          else alookup key_eqb k ps
      end
  | OProxy _ _ _ => None
  | ORefImpl v sh extra =>
      if key_eqb k (KStr "_value") then Some v
      else if key_eqb k (KStr "_shallow") then Some (VBool sh)
      else if key_eqb k (KStr "__v_isRef") then Some (VBool true)
      else alookup key_eqb k extra
  | OComputed v d e _ ro extra =>
      if key_eqb k (KStr "_value") then Some v
      else if key_eqb k (KStr "_dirty") then Some (VBool d)
      else if key_eqb k (KStr "effect") then Some (VEff e)
      else if key_eqb k (KStr "_setter") then Some (VSetter a)
      else if key_eqb k (KStr "__v_isRef") then Some (VBool true)
      else if key_eqb k IS_READONLY then Some (VBool ro)
      else alookup key_eqb k extra
  end.

Definition arrayMethods : list string :=
  ["includes"; "indexOf"; "lastIndexOf"; "push"; "pop"; "shift"; "unshift";
   "splice"].

Definition isArrayMethod (k : key) : bool :=
  match k with
  | KStr s => existsb (String.eqb s) arrayMethods
  | KSym _ => false
  end.

(** [Reflect.get] on an object that is neither a proxy nor has an accessor
    for [k]. *)
Definition ordinaryGet (a : addr) (o : obj) (k : key) : value :=
  match getOwn a o k with
  | Some v => v
  | None =>
      match o, k with
      | OArray _ _ _, KStr m =>
          if isArrayMethod k then VNative ("Array.prototype." ++ m)
          else VUndef
      | _, _ => VUndef
      end
  end.

Inductive setres : Type :=
| SetOk (o : obj)
| SetFail
| SetThrow (x : value).

Fixpoint resize (n : nat) (l : list value) : list value :=
  match n with
  | O => []
  | S n' =>
      match l with
      | x :: r => x :: resize n' r
      | [] => VUndef :: resize n' []
      end
  end.

(** The new length of an array, [ArraySetLength]: the value converts to
    a number, which must be an integer below [2^32], or a RangeError is
    thrown.  A decimal with a fraction is refused when it is a double; one
    that is not might round to an integer, which is not modelled. *)
Inductive lengthArg : Type :=
| LengthOk (n : nat)
| LengthRange
| LengthUnknown.

Definition validLength (v : value) : lengthArg :=
  match toNumber v with
  | None => LengthUnknown
  | Some (JFin m e) =>
      match jsnum_int (JFin m e) with
      | Some z => if (0 <=? z)%Z && (z <? 4294967296)%Z
                  then LengthOk (Z.to_nat z) else LengthRange
      | None => if isDouble m e then LengthRange else LengthUnknown
      end
  | Some _ => LengthRange
  end.

Definition hasKey (k : key) (ps : props) : bool :=
  match alookup key_eqb k ps with Some _ => true | None => false end.

Definition writeProps (k : key) (v : value) (ps : props) (extensible : bool)
  : option props :=
  if hasKey k ps || extensible then Some (aset key_eqb k v ps) else None.

(** Defining the data property [k] of an ordinary object with value [v]:
    what [Reflect.set] does on the object it finally writes. *)
Definition ordinaryWrite (o : obj) (k : key) (v : value) : setres :=
  match o with
  | OPlain rt ps ext =>
      match writeProps k v ps ext with
      | Some ps' => SetOk (OPlain rt ps' ext)
      | None => SetFail
      end
  | OArray elems ps ext =>
      if key_eqb k LENGTH then
        match validLength v with
        | LengthOk n => SetOk (OArray (resize n elems) ps ext)
        | LengthRange => SetThrow RangeError
        | LengthUnknown => SetThrow NotModelled
        end
      else
        match arrayIndex k with
        | Some i =>
            if i <? List.length elems then
              SetOk (OArray (update_nth i (fun _ => v) elems) ps ext)
            else if ext then
              SetOk (OArray (resize i elems ++ [v]) ps ext)
            else SetFail
        | None =>
            match writeProps k v ps ext with
            | Some ps' => SetOk (OArray elems ps' ext)
            | None => SetFail
            end
        end
  | OProxy _ _ _ => SetFail
  | ORefImpl val sh extra =>
      if key_eqb k (KStr "_value") then SetOk (ORefImpl v sh extra)
      else SetOk (ORefImpl val sh (aset key_eqb k v extra))
  | OComputed val d e st ro extra =>
      if key_eqb k (KStr "_value") then SetOk (OComputed v d e st ro extra)
      else if key_eqb k (KStr "_dirty") then
        SetOk (OComputed val (truthy v) e st ro extra)
      else SetOk (OComputed val d e st ro (aset key_eqb k v extra))
  end.

(** ** Looking through proxies

    [Array.isArray], [Object.prototype.toString], [Object.isExtensible]
    and [hasOwnProperty] applied to a proxy answer for the object the
    proxy finally wraps.  A proxy is always created after its target, so
    the number of objects bounds the walk. *)

Fixpoint rawObj (d : nat) (h : list obj) (a : addr) : option (addr * obj) :=
  match nth_error h a with
  | Some (OProxy t _ _) =>
      match d with
      | O => None
      | S d' => rawObj d' h t
      end
  | Some o => Some (a, o)
  | None => None
  end.

Definition underlying (s : state) (v : value) : option (addr * obj) :=
  match v with
  | VRef a => rawObj (List.length (heap s)) (heap s) a
  | _ => None
  end.

Definition isArray (s : state) (v : value) : bool :=
  match underlying s v with
  | Some (_, OArray _ _ _) => true
  | _ => false
  end.

Definition toRawType (s : state) (v : value) : rawType :=
  match underlying s v with
  | Some (_, OPlain rt _ _) => rt
  | Some (_, OArray _ _ _) => RTArray
  | Some (_, _) => RTObject
  | None => RTOther "?"
  end.

Definition isMap (s : state) (v : value) : bool :=
  match toRawType s v with RTMap => true | _ => false end.

Definition isExtensible (s : state) (v : value) : bool :=
  match underlying s v with
  | Some (_, OPlain _ _ ext) => ext
  | Some (_, OArray _ _ ext) => ext
  | Some (_, _) => true
  | None => false
  end.

Definition hasOwn (s : state) (v : value) (k : key) : bool :=
  match underlying s v with
  | Some (a, o) => match getOwn a o k with Some _ => true | None => false end
  | None => false
  end.

(** [target.length] of an array (the setter reads it of arrays only) *)
Definition lengthOf (s : state) (v : value) : jsnum :=
  match underlying s v with
  | Some (_, OArray elems _ _) => JFin (Z.of_nat (List.length elems)) 0
  | _ => JNaN
  end.

Definition proxyMapOf (isReadonly shallow : bool) (s : state)
  : list (addr * addr) :=
  if isReadonly
  then (if shallow then shallowReadonlyMap s else readonlyMap s)
  else (if shallow then shallowReactiveMap s else reactiveMap s).

Definition opt_addr_eqb (x : option addr) (a : addr) : bool :=
  match x with Some b => Nat.eqb b a | None => false end.

(** [v[k]] for the keys a getter answers before it tracks anything: the
    three flags and the ref brand.  A proxy answers [IS_REACTIVE] and
    [IS_READONLY] from its flavor, and [RAW] with its target when the
    receiver is the proxy registered for the target; every other read
    falls through to the wrapped object.  (A [RAW] read that falls through
    a mutable proxy would also be tracked; that needs a receiver which is
    not the registered proxy, and no state built by the library has
    one.) *)
Definition peek (s : state) (v : value) (k : key) : value :=
  match v with
  | VRef a =>
      match nth_error (heap s) a with
      | Some (OProxy t ro sh) =>
          if key_eqb k IS_REACTIVE then VBool (negb ro)
          else if key_eqb k IS_READONLY then VBool ro
          else if key_eqb k RAW
                  && opt_addr_eqb (alookup Nat.eqb t (proxyMapOf ro sh s)) a
          then VRef t
          else
            match underlying s (VRef t) with
            | Some (b, o) =>
                match getOwn b o k with Some x => x | None => VUndef end
            | None => VUndef
            end
      | Some o => match getOwn a o k with Some x => x | None => VUndef end
      | None => VUndef
      end
  | _ => VUndef
  end.

(** reactive.ts: [toRaw]
    [(observed && toRaw(observed[RAW])) || observed] *)
Fixpoint toRaw_fuel (d : nat) (s : state) (observed : value) : value :=
  match d with
  | O => observed
  | S d' =>
      if truthy observed then
        let r := toRaw_fuel d' s (peek s observed RAW) in
        if truthy r then r else observed
      else observed
  end.

Definition toRaw (s : state) (observed : value) : value :=
  toRaw_fuel (S (List.length (heap s))) s observed.

(** reactive.ts: [isReadonly], [isReactive], [isProxy] *)
Definition isReadonly (s : state) (v : value) : bool :=
  truthy v && truthy (peek s v IS_READONLY).

Fixpoint isReactive_fuel (d : nat) (s : state) (v : value) : bool :=
  if isReadonly s v then
    match d with
    | O => false
    | S d' => isReactive_fuel d' s (peek s v RAW)
    end
  else truthy v && truthy (peek s v IS_REACTIVE).

Definition isReactive (s : state) (v : value) : bool :=
  isReactive_fuel (S (List.length (heap s))) s v.

Definition isProxy (s : state) (v : value) : bool :=
  isReactive s v || isReadonly s v.

(** Modelled from the spec: ref.ts, [isRef] ("is-ref(x) reads the brand"):
    [r && r.__v_isRef === true]. *)
Definition isRef (s : state) (r : value) : bool :=
  truthy r && strictEq (peek s r (KStr "__v_isRef")) (VBool true).

(** reactive.ts: [targetTypeMap], [TargetType] *)
Inductive TargetType : Type := INVALID | COMMON | COLLECTION.

Definition targetTypeMap (rt : rawType) : TargetType :=
  match rt with
  | RTObject | RTArray => COMMON
  | RTMap | RTSet | RTWeakMap | RTWeakSet => COLLECTION
  | RTOther _ => INVALID
  end.

(** ** Primitive state changes

    Every change of the state is one of the following.  [heapAlloc] is
    object creation, [writeProp] the definition of a data property,
    [newProxy] the creation of a proxy and its entry in the proxy map,
    [newEffect] the body of [createReactiveEffect], [deactivate] is
    [effect.active = false]. *)

Definition heapAlloc (o : obj) (s : state) : state :=
  set_heap (heap s ++ [o]) s.

Definition writeProp (a : addr) (k : key) (v : value) (s : state) : state :=
  match nth_error (heap s) a with
  | Some o =>
      match ordinaryWrite o k v with
      | SetOk o' => set_heap (update_nth a (fun _ => o') (heap s)) s
      | _ => s
      end
  | None => s
  end.

Definition register (isReadonly shallow : bool) (t p : addr) (s : state)
  : state :=
  let put := aset Nat.eqb t p in
  mkState (heap s) (targetMap s) (effects s) (effectStack s) (activeEffect s)
    (shouldTrack s) (trackStack s)
    (if negb isReadonly && negb shallow then put (reactiveMap s)
     else reactiveMap s)
    (if negb isReadonly && shallow then put (shallowReactiveMap s)
     else shallowReactiveMap s)
    (if isReadonly && negb shallow then put (readonlyMap s)
     else readonlyMap s)
    (if isReadonly && shallow then put (shallowReadonlyMap s)
     else shallowReadonlyMap s)
    (log s).

(** [const proxy = new Proxy(target, handlers); proxyMap.set(target, proxy)] *)
Definition newProxy (t : addr) (isReadonly shallow : bool) (s : state)
  : state :=
  register isReadonly shallow t (List.length (heap s))
    (heapAlloc (OProxy t isReadonly shallow) s).

(** [createReactiveEffect]: the fields of the new effect; [id = uid++]. *)
Definition newEffect (fn : prog) (opts : ReactiveEffectOptions prog)
  (s : state) : state :=
  set_effects
    (effects s ++
     [mkEffect (List.length (effects s)) true fn [] opts
        (opt_allowRecurse opts)]) s.

Definition deactivate (e : eid) (s : state) : state :=
  set_effects (update_nth e (with_active false) (effects s)) s.

Inductive prim : Type :=
| PTrack (t : addr) (ty : TrackOpTypes) (k : key)
| PCleanup (e : eid)
| PDeactivate (e : eid)
| PPause
| PEnable
| PReset
| PAlloc (o : obj)
| PWriteProp (a : addr) (k : key) (v : value)
| PNewProxy (t : addr) (isReadonly shallow : bool)
| PNewEffect (fn : prog) (opts : ReactiveEffectOptions prog)
| PLogTrigger (t : value) (ty : TriggerOpTypes) (k : option key)
| PLogSchedule (e : eid).

Definition applyPrim (p : prim) (s : state) : state :=
  match p with
  | PTrack t ty k => track t ty k s
  | PCleanup e => cleanup e s
  | PDeactivate e => deactivate e s
  | PPause => pauseTracking s
  | PEnable => enableTracking s
  | PReset => resetTracking s
  | PAlloc o => heapAlloc o s
  | PWriteProp a k v => writeProp a k v s
  | PNewProxy t ro sh => newProxy t ro sh s
  | PNewEffect fn opts => newEffect fn opts s
  | PLogTrigger t ty k => emit (EvTrigger t ty k) s
  | PLogSchedule e => emit (EvSchedule e) s
  end.

(** The frame of a run, [createReactiveEffect]:
    [enableTracking(); effectStack.push(effect); activeEffect = effect]
    before the call of [fn], and in the [finally] block
    [effectStack.pop(); resetTracking();
     activeEffect = effectStack[effectStack.length - 1]]. *)
Definition enter (e : eid) (s : state) : state :=
  let s1 := enableTracking s in
  emit (EvRun e) (set_stack (e :: effectStack s1) (Some e) s1).

Definition leave (s : state) : state :=
  let s1 := set_stack (tl (effectStack s)) (activeEffect s) s in
  let s2 := resetTracking s1 in
  set_stack (effectStack s2) (hd_error (effectStack s2)) s2.

(** ** The monad of library code

    A computation maps a state to an outcome and a state; [None] means the
    step budget ran out. *)

Definition M (A : Type) : Type := state -> option (outcome A * state).

Definition ret {A : Type} (a : A) : M A := fun s => Some (Normal a, s).

Definition throw {A : Type} (x : value) : M A := fun s => Some (Thrown x, s).

Definition bind {A B : Type} (m : M A) (f : A -> M B) : M B :=
  fun s =>
    match m s with
    | None => None
    | Some (Normal a, s') => f a s'
    | Some (Thrown x, s') => Some (Thrown x, s')
    end.

Definition gets {A : Type} (f : state -> A) : M A :=
  fun s => Some (Normal (f s), s).

Definition perform (p : prim) : M unit :=
  fun s => Some (Normal tt, applyPrim p s).

Notation "x <- m ;; k" := (bind m (fun x => k))
  (at level 61, m at next level, right associativity).
Notation "m ;; k" := (bind m (fun _ => k))
  (at level 61, right associativity).

Fixpoint forEach {A : Type} (f : A -> M unit) (l : list A) : M unit :=
  match l with
  | [] => ret tt
  | x :: r => f x ;; forEach f r
  end.

(** ** effect.ts: the effects [trigger] collects *)

Definition isActiveEffect (s : state) (e : eid) : bool :=
  match activeEffect s with Some a => Nat.eqb a e | None => false end.

Definition allowsRecurse (s : state) (e : eid) : bool :=
  match effectOf s e with Some f => allowRecurse f | None => false end.

(** [add]: [if (effect !== activeEffect || effect.allowRecurse)
            effects.add(effect)] for each member *)
Definition add (s : state) (effects : list eid) (effectsToAdd : Dep)
  : list eid :=
  fold_left
    (fun acc e =>
       if negb (isActiveEffect s e) || allowsRecurse s e
       then (if mem e acc then acc else acc ++ [e])
       else acc)
    effectsToAdd effects.

Definition addOpt (s : state) (effects : list eid) (d : option Dep)
  : list eid :=
  match d with Some dep => add s effects dep | None => effects end.

Definition opt_key_eqb (a : option key) (b : key) : bool :=
  match a with Some k => key_eqb k b | None => false end.

(** The [length] branch: [depsMap.forEach((dep, key) =>
      { if (key === 'length' || key >= newValue) add(dep) })] *)
Fixpoint collectLength (s : state) (dm : KeyToDepMap) (newValue : value)
  (effects : list eid) : outcome (list eid) :=
  match dm with
  | [] => Normal effects
  | (k, dep) :: r =>
      if key_eqb k LENGTH
      then collectLength s r newValue (add s effects dep)
      else
        match keyGe k newValue with
        | Thrown x => Thrown x
        | Normal true => collectLength s r newValue (add s effects dep)
        | Normal false => collectLength s r newValue effects
        end
  end.

Definition collect (s : state) (dm : KeyToDepMap) (target : value)
  (ty : TriggerOpTypes) (k : option key) (newValue : value)
  : outcome (list eid) :=
  let get := fun k' => alookup key_eqb k' dm in
  match ty with
  | CLEAR => Normal (fold_left (fun acc kd => add s acc (snd kd)) dm [])
  | _ =>
      if opt_key_eqb k LENGTH && isArray s target
      then collectLength s dm newValue []
      else
        let e0 := match k with
                  | Some k' => addOpt s [] (get k')
                  | None => []
                  end in
        match ty with
        | ADD =>
            if negb (isArray s target) then
              let e1 := addOpt s e0 (get ITERATE_KEY) in
              Normal
                (if isMap s target then addOpt s e1 (get MAP_KEY_ITERATE_KEY)
                 else e1)
            else
              match match k with
                    | Some k' => isIntegerKey k'
                    | None => Some false
                    end with
              | Some true => Normal (addOpt s e0 (get LENGTH))
              | Some false => Normal e0
              | None => Thrown NotModelled
              end
        | DELETE =>
            Normal
              (if negb (isArray s target) then
                 let e1 := addOpt s e0 (get ITERATE_KEY) in
                 if isMap s target then addOpt s e1 (get MAP_KEY_ITERATE_KEY)
                 else e1
               else e0)
        | SET =>
            Normal
              (if isMap s target then addOpt s e0 (get ITERATE_KEY) else e0)
        | CLEAR => Normal e0
        end
  end.

(** ** The library functions

    Each function that can call back into user code or into another
    interceptor does so through [call], which [exec] below instantiates
    with itself on a smaller budget. *)

Section Library.
Variable call : prog -> M value.

(** [track] on a value; the callers pass objects. *)
Definition trackV (target : value) (ty : TrackOpTypes) (k : key) : M unit :=
  match target with
  | VRef t => perform (PTrack t ty k)
  | _ => ret tt
  end.

Definition writeField (self : value) (k : key) (v : value) : M unit :=
  match self with
  | VRef a => perform (PWriteProp a k v)
  | _ => ret tt
  end.

(** *** effect.ts: the function [reactiveEffect] of [createReactiveEffect] *)
Definition reactiveEffect (e : eid) : M value :=
  f <- gets (fun s => effectOf s e) ;;
  match f with
  | None => throw TypeError
  | Some f =>
      if negb (active f) then
        match scheduler (options f) with
        | Some _ => ret VUndef
        | None => fun s => call (raw f) (emit (EvRun e) s)
        end
      else
        st <- gets effectStack ;;
        if mem e st then ret VUndef
        else
          fun s =>
            match call (raw f) (enter e (cleanup e s)) with
            | None => None
            | Some (o, s') => Some (o, leave s')
            end
  end.

(** *** effect.ts: [trigger] *)
Definition runScheduler (sch : sched prog) (e : eid) : M unit :=
  match sch with
  | SchedUser g => call (g e) ;; ret tt
  | SchedComputed c =>
      (* computed.ts:
         [if (!this._dirty) { this._dirty = true;
                              trigger(toRaw(this), SET, 'value') }] *)
      d <- gets (fun s => peek s (VRef c) (KStr "_dirty")) ;;
      if negb (truthy d) then
        perform (PWriteProp c (KStr "_dirty") (VBool true)) ;;
        self <- gets (fun s => toRaw s (VRef c)) ;;
        call (TriggerP self SET (Some VALUE) VUndef (Ret VUndef)) ;;
        ret tt
      else ret tt
  end.

Definition run (e : eid) : M unit :=
  f <- gets (fun s => effectOf s e) ;;
  match f with
  | None => ret tt
  | Some f =>
      match scheduler (options f) with
      | Some sch => perform (PLogSchedule e) ;; runScheduler sch e
      | None => call (CallFn (VEff e) VUndef Ret) ;; ret tt
      end
  end.

Definition trigger (target : value) (ty : TriggerOpTypes) (k : option key)
  (newValue : value) : M unit :=
  perform (PLogTrigger target ty k) ;;
  match target with
  | VRef t =>
      depsMap <- gets (fun s => depsMapOf s t) ;;
      match depsMap with
      | None => ret tt
      | Some dm =>
          c <- gets (fun s => collect s dm target ty k newValue) ;;
          match c with
          | Thrown x => throw x
          | Normal effects => forEach run effects
          end
      end
  | _ => ret tt
  end.

(** *** effect.ts: [effect], [stop] *)
Definition effect (fn : prog) (opts : ReactiveEffectOptions prog)
  : M value :=
  e <- gets (fun s => List.length (effects s)) ;;
  perform (PNewEffect fn opts) ;;
  (if negb (lazy opts) then call (CallFn (VEff e) VUndef Ret) ;; ret tt
   else ret tt) ;;
  ret (VEff e).

Definition stop (e : eid) : M unit :=
  f <- gets (fun s => effectOf s e) ;;
  match f with
  | None => throw TypeError
  | Some f =>
      if active f then
        perform (PCleanup e) ;;
        (match onStop (options f) with
         | Some p => call p ;; ret tt
         | None => ret tt
         end) ;;
        perform (PDeactivate e)
      else ret tt
  end.

(** *** reactive.ts: [getTargetType], [createReactiveObject] *)
Definition getTargetType (v : value) : M TargetType :=
  skip <- call (ReflectGet v SKIP v Ret) ;;
  ext <- gets (fun s => isExtensible s v) ;;
  if truthy skip || negb ext then ret INVALID
  else
    rt <- gets (fun s => toRawType s v) ;;
    ret (targetTypeMap rt).

Definition existingProxy (isReadonly shallow : bool) (s : state)
  (target : value) : option addr :=
  match target with
  | VRef t => alookup Nat.eqb t (proxyMapOf isReadonly shallow s)
  | _ => None
  end.

(** The handler tables and the proxy map that the four callers pass are
    determined by the flavor, so the flavor stands for them. *)
Definition createReactiveObject (target : value) (isReadonly shallow : bool)
  : M value :=
  if negb (isObject target) then ret target
  else
    isProxyAlready <-
      gets (fun s =>
              truthy (peek s target RAW)
              && negb (isReadonly && truthy (peek s target IS_REACTIVE))) ;;
    if isProxyAlready then ret target
    else
      ex <- gets (fun s => existingProxy isReadonly shallow s target) ;;
      match ex with
      | Some p => ret (VRef p)
      | None =>
          targetType <- getTargetType target ;;
          match targetType, target with
          | INVALID, _ => ret target
          | _, VRef t =>
              p <- gets (fun s => List.length (heap s)) ;;
              perform (PNewProxy t isReadonly shallow) ;;
              ret (VRef p)
          | _, _ => ret target
          end
      end.

Definition reactive (target : value) : M value :=
  ro <- gets (fun s => truthy target && truthy (peek s target IS_READONLY)) ;;
  if ro then ret target
  else createReactiveObject target false false.

Definition shallowReactive (target : value) : M value :=
  createReactiveObject target false true.

Definition readonly (target : value) : M value :=
  createReactiveObject target true false.

Definition shallowReadonly (target : value) : M value :=
  createReactiveObject target true true.

Definition wrap (isReadonly shallow : bool) (target : value) : M value :=
  match isReadonly, shallow with
  | false, false => reactive target
  | false, true => shallowReactive target
  | true, false => readonly target
  | true, true => shallowReadonly target
  end.

(** *** baseHandlers.ts: [createGetter] *)
Definition isNonTrackableKeys (k : key) : bool :=
  match k with
  | KStr s =>
      String.eqb s "__proto__" || String.eqb s "__v_isRef"
      || String.eqb s "__isVue"
  | KSym _ => false
  end.

Definition builtInSymbols_has (k : key) : bool :=
  match k with
  | KSym (SymBuiltIn _) => true
  | _ => false
  end.

Definition registeredProxy (isReadonly shallow : bool) (s : state)
  (target : value) : value :=
  match existingProxy isReadonly shallow s target with
  | Some p => VRef p
  | None => VUndef
  end.

Definition instrumented (k : key) : value :=
  match k with
  | KStr m => VNative ("arrayInstrumentations." ++ m)
  | KSym _ => VUndef
  end.

Definition createGetter (isReadonly shallow : bool)
  (target : value) (k : key) (receiver : value) : M value :=
  if key_eqb k IS_REACTIVE then ret (VBool (negb isReadonly))
  else if key_eqb k IS_READONLY then ret (VBool isReadonly)
  else
    isRawRead <-
      gets (fun s =>
              key_eqb k RAW
              && strictEq receiver
                   (registeredProxy isReadonly shallow s target)) ;;
    if isRawRead then ret target
    else
      targetIsArray <- gets (fun s => isArray s target) ;;
      if negb isReadonly && targetIsArray && isArrayMethod k
      then ret (instrumented k)
      else
        res <- call (ReflectGet target k receiver Ret) ;;
        if (if isSymbol k then builtInSymbols_has k
            else isNonTrackableKeys k)
        then ret res
        else
          (if negb isReadonly then trackV target GET k else ret tt) ;;
          if shallow then ret res
          else
            resIsRef <- gets (fun s => isRef s res) ;;
            if resIsRef then
              if negb targetIsArray then call (ReflectGet res VALUE res Ret)
              else
                match isIntegerKey k with
                | Some true => ret res
                | Some false => call (ReflectGet res VALUE res Ret)
                | None => throw NotModelled
                end
            else if isObject res then
              (if isReadonly then readonly res else reactive res)
            else ret res.

(** Modelled from the spec: the [get] handler of collectionHandlers.ts,
    which is not among the sources.  It answers the reserved keys like
    the base getter ("Answers four reserved introspection keys"); a read
    of any other key goes to the wrapped container untracked (the
    container methods are not modelled). *)
Definition collectionGetter (isReadonly shallow : bool)
  (target : value) (k : key) (receiver : value) : M value :=
  if key_eqb k IS_REACTIVE then ret (VBool (negb isReadonly))
  else if key_eqb k IS_READONLY then ret (VBool isReadonly)
  else if key_eqb k RAW then ret target
  else call (ReflectGet target k receiver Ret).

(** Modelled from the spec: ref.ts, the accessor [value] of a ref
    ("Reading .value calls track(self, READ, "value")"; "Writing
    .value = new with NaN-aware change detection calls trigger(self,
    SET, "value", new, old). Deep refs wrap object payloads using
    wrap(., mutable-deep) on write; shallow refs do not.") *)
Definition refGet (this : value) : M value :=
  self <- gets (fun s => toRaw s this) ;;
  trackV self GET VALUE ;;
  gets (fun s => peek s self (KStr "_value")).

Definition refSet (this : value) (newVal : value) : M unit :=
  self <- gets (fun s => toRaw s this) ;;
  old <- gets (fun s => peek s self (KStr "_value")) ;;
  sh <- gets (fun s => peek s self (KStr "_shallow")) ;;
  if hasChanged newVal old then
    v <- (if truthy sh then ret newVal
          else if isObject newVal then reactive newVal
          else ret newVal) ;;
    writeField self (KStr "_value") v ;;
    trigger self SET (Some VALUE) newVal
  else ret tt.

(** *** computed.ts: the accessor [value] of [ComputedRefImpl] *)
Definition computedGet (this : value) : M value :=
  self <- gets (fun s => toRaw s this) ;;
  dirty <- gets (fun s => peek s self (KStr "_dirty")) ;;
  (if truthy dirty then
     f <- call (ReflectGet this (KStr "effect") this Ret) ;;
     v <- call (CallFn f VUndef Ret) ;;
     writeField self (KStr "_value") v ;;
     writeField self (KStr "_dirty") (VBool false)
   else ret tt) ;;
  trackV self GET VALUE ;;
  gets (fun s => peek s self (KStr "_value")).

Definition computedSet (this : value) (newValue : value) : M unit :=
  f <- call (ReflectGet this (KStr "_setter") this Ret) ;;
  call (CallFn f newValue Ret) ;;
  ret tt.

(** *** [Reflect.get] *)
Definition effectField (s : state) (e : eid) (k : key) : value :=
  match effectOf s e with
  | Some f =>
      if key_eqb k (KStr "id") then VNum (Z.of_nat (id f))
      else if key_eqb k (KStr "active") then VBool (active f)
      else if key_eqb k (KStr "allowRecurse") then VBool (allowRecurse f)
      else if key_eqb k (KStr "_isEffect") then VBool true
      else VUndef
  | None => VUndef
  end.

Definition reflectGet (target : value) (k : key) (receiver : value)
  : M value :=
  match target with
  | VRef a =>
      o <- gets (fun s => nth_error (heap s) a) ;;
      match o with
      | None => throw TypeError
      | Some (OProxy t ro sh) =>
          tt <- gets (fun s => targetTypeMap (toRawType s (VRef t))) ;;
          match tt with
          | COLLECTION => collectionGetter ro sh (VRef t) k receiver
          | _ => createGetter ro sh (VRef t) k receiver
          end
      | Some (ORefImpl _ _ _ as o') =>
          if key_eqb k VALUE then refGet receiver
          else ret (ordinaryGet a o' k)
      | Some (OComputed _ _ _ _ _ _ as o') =>
          if key_eqb k VALUE then computedGet receiver
          else ret (ordinaryGet a o' k)
      | Some o' => ret (ordinaryGet a o' k)
      end
  | VEff e => gets (fun s => effectField s e k)
  | VNative _ | VSetter _ => ret VUndef
  | _ => throw TypeError
  end.

(** *** [Reflect.set] on an ordinary object: the property is defined on
    the receiver, through any proxy, since no handler of the library has
    a [defineProperty] trap. *)
Definition ordinarySet (k : key) (v : value) (receiver : value) : M value :=
  dest <- gets (fun s => underlying s receiver) ;;
  match dest with
  | None => ret (VBool false)
  | Some (b, o) =>
      match ordinaryWrite o k v with
      | SetOk _ => perform (PWriteProp b k v) ;; ret (VBool true)
      | SetFail => ret (VBool false)
      | SetThrow x => throw x
      end
  end.

(** *** baseHandlers.ts: [createSetter] *)
Definition createSetter (shallow : bool)
  (target : value) (k : key) (v : value) (receiver : value) : M value :=
  oldValue0 <- call (ReflectGet target k target Ret) ;;
  value' <- gets (fun s => if negb shallow then toRaw s v else v) ;;
  oldValue <- gets (fun s => if negb shallow then toRaw s oldValue0
                             else oldValue0) ;;
  delegate <-
    gets (fun s =>
            negb shallow && negb (isArray s target)
            && isRef s oldValue && negb (isRef s value')) ;;
  if delegate then
    call (ReflectSet oldValue VALUE value' oldValue Ret) ;;
    ret (VBool true)
  else
    targetIsArray <- gets (fun s => isArray s target) ;;
    hadKey <-
      (if targetIsArray then
         match isIntegerKey k with
         | Some true =>
             gets (fun s => jsnum_lt (keyNumber k) (lengthOf s target))
         | Some false => gets (fun s => hasOwn s target k)
         | None => throw NotModelled
         end
       else gets (fun s => hasOwn s target k)) ;;
    result <- call (ReflectSet target k value' receiver Ret) ;;
    onCanonical <- gets (fun s => strictEq target (toRaw s receiver)) ;;
    (if onCanonical then
       if negb hadKey then trigger target ADD (Some k) value'
       else if hasChanged value' oldValue
            then trigger target SET (Some k) value'
            else ret tt
     else ret tt) ;;
    ret result.

(** *** [Reflect.set] *)
Definition reflectSet (target : value) (k : key) (v : value)
  (receiver : value) : M value :=
  match target with
  | VRef a =>
      o <- gets (fun s => nth_error (heap s) a) ;;
      match o with
      | None => throw TypeError
      | Some (OProxy t ro sh) =>
          tt <- gets (fun s => targetTypeMap (toRawType s (VRef t))) ;;
          match tt with
          | COLLECTION => call (ReflectSet (VRef t) k v receiver Ret)
          | _ =>
              (* readonlyHandlers.set returns true and does nothing *)
              if ro then ret (VBool true)
              else createSetter sh (VRef t) k v receiver
          end
      | Some (ORefImpl _ _ _) =>
          if key_eqb k VALUE then refSet receiver v ;; ret (VBool true)
          else ordinarySet k v receiver
      | Some (OComputed _ _ _ _ _ _) =>
          if key_eqb k VALUE then computedSet receiver v ;; ret (VBool true)
          else ordinarySet k v receiver
      | Some _ => ordinarySet k v receiver
      end
  | _ => throw TypeError
  end.

(** *** Calling a function value *)
Definition callFn (f : value) (arg : value) : M value :=
  match f with
  | VEff e => reactiveEffect e
  | VSetter c =>
      o <- gets (fun s => nth_error (heap s) c) ;;
      match o with
      | Some (OComputed _ _ _ (Some g) _ _) => call (g arg)
      | _ => ret VUndef      (* NOOP *)
      end
  | VNative _ => throw NotModelled
  | _ => throw TypeError
  end.

(** *** computed.ts: [computed] and the constructor of [ComputedRefImpl] *)
Definition computed (getter : prog) (setter : option (value -> prog))
  : M value :=
  c <- gets (fun s => List.length (heap s)) ;;
  e <- gets (fun s => List.length (effects s)) ;;
  let isReadonly := match setter with Some _ => false | None => true end in
  perform (PAlloc (OComputed VUndef true e setter isReadonly [])) ;;
  perform (PNewEffect getter
             (mkOptions true (Some (SchedComputed c)) None false)) ;;
  ret (VRef c).

(** Modelled from the spec: ref.ts, [ref] and [shallowRef]. *)
Definition ref (v : value) (shallow : bool) : M value :=
  inner <- (if shallow then ret v
            else if isObject v then reactive v
            else ret v) ;;
  r <- gets (fun s => List.length (heap s)) ;;
  perform (PAlloc (ORefImpl inner shallow [])) ;;
  ret (VRef r).

(** reactive.ts: [markRaw]: [def(value, SKIP, true)] *)
Definition markRaw (v : value) : M unit :=
  dest <- gets (fun s => underlying s v) ;;
  match dest with
  | None => throw TypeError
  | Some (b, o) =>
      match ordinaryWrite o SKIP (VBool true) with
      | SetOk _ => perform (PWriteProp b SKIP (VBool true))
      | _ => throw TypeError
      end
  end.

(** [try { body } catch (x) { handler }] *)
Definition tryCatch (body : prog) (handler : value -> prog) : M value :=
  fun s =>
    match call body s with
    | Some (Thrown x, s') => call (handler x) s'
    | r => r
    end.

Definition step (p : prog) : M value :=
  match p with
  | Ret v => ret v
  | Throw x => throw x
  | TryCatch body handler cont =>
      v <- tryCatch body handler ;; call (cont v)
  | ReflectGet t k r cont => v <- reflectGet t k r ;; call (cont v)
  | ReflectSet t k v r cont => b <- reflectSet t k v r ;; call (cont b)
  | CallFn f arg cont => v <- callFn f arg ;; call (cont v)
  | EffectP fn opts cont => e <- effect fn opts ;; call (cont e)
  | EffectOf fn opts cont =>
      match fn with
      | VEff e0 =>
          f <- gets (fun s => effectOf s e0) ;;
          match f with
          | Some f0 => e <- effect (raw f0) opts ;; call (cont e)
          | None => throw TypeError
          end
      | _ => throw TypeError
      end
  | StopP e cont => stop e ;; call cont
  | TrackP t ty k cont => perform (PTrack t ty k) ;; call cont
  | TriggerP t ty k nv cont => trigger t ty k nv ;; call cont
  | PauseTracking cont => perform PPause ;; call cont
  | EnableTracking cont => perform PEnable ;; call cont
  | ResetTracking cont => perform PReset ;; call cont
  | Wrap ro sh t cont => v <- wrap ro sh t ;; call (cont v)
  | ToRaw v cont => r <- gets (fun s => toRaw s v) ;; call (cont r)
  | IsReactive v cont =>
      b <- gets (fun s => isReactive s v) ;; call (cont (VBool b))
  | IsReadonly v cont =>
      b <- gets (fun s => isReadonly s v) ;; call (cont (VBool b))
  | MarkRaw v cont => markRaw v ;; call cont
  | NewObject rt ps ext cont =>
      a <- gets (fun s => List.length (heap s)) ;;
      perform (PAlloc (OPlain rt ps ext)) ;;
      call (cont (VRef a))
  | NewArray elems cont =>
      a <- gets (fun s => List.length (heap s)) ;;
      perform (PAlloc (OArray elems [] true)) ;;
      call (cont (VRef a))
  | RefP v sh cont => r <- ref v sh ;; call (cont r)
  | ComputedP getter setter cont =>
      c <- computed getter setter ;; call (cont c)
  end.
End Library.

(** Running a program on a budget of nested calls. *)
Fixpoint exec (n : nat) (p : prog) : M value :=
  match n with
  | O => fun _ => None
  | S n' => step (exec n') p
  end.

(** * Properties *)

(** ** Relations that every run respects

    A relation [R] between the state before and the state after is
    [closed] when it is a preorder, holds across every primitive change,
    across the call of the function of an inactive effect, and across the
    frame of a run provided it holds across the body.  Every program then
    relates the state it starts in to the state it ends in. *)

Definition rel (R : state -> state -> Prop) (A : Type) (m : M A) : Prop :=
  forall s o s', m s = Some (o, s') -> R s s'.

Record closed (R : state -> state -> Prop) : Prop := mkClosed {
  c_refl : forall s, R s s;
  c_trans : forall a b c, R a b -> R b c -> R a c;
  c_prim : forall p s, R s (applyPrim p s);
  c_inactive : forall e f s,
      effectOf s e = Some f -> active f = false ->
      R s (emit (EvRun e) s);
  c_frame : forall e f s s2,
      effectOf s e = Some f -> active f = true ->
      mem e (effectStack s) = false ->
      R (enter e (cleanup e s)) s2 -> R s (leave s2)
}.

Section Rel.
Variable R : state -> state -> Prop.
Hypothesis HR : closed R.

Lemma rel_ret (A : Type) (a : A) : rel R (ret a).
Proof. intros s o s' H. inversion H; subst. apply (c_refl HR). Qed.

Lemma rel_throw (A : Type) (x : value) : rel R (@throw A x).
Proof. intros s o s' H. inversion H; subst. apply (c_refl HR). Qed.

Lemma rel_gets (A : Type) (f : state -> A) : rel R (gets f).
Proof. intros s o s' H. inversion H; subst. apply (c_refl HR). Qed.

Lemma rel_perform (p : prim) : rel R (perform p).
Proof. intros s o s' H. inversion H; subst. apply (c_prim HR). Qed.

Lemma rel_bind (A B : Type) (m : M A) (f : A -> M B) :
  rel R m -> (forall a, rel R (f a)) -> rel R (bind m f).
Proof.
  intros Hm Hf s o s' H. unfold bind in H.
  destruct (m s) as [[[a | x] s1] | ] eqn:E; try discriminate.
  - apply (c_trans HR) with s1; [ apply (Hm _ _ _ E) | apply (Hf _ _ _ _ H) ].
  - inversion H; subst. apply (Hm _ _ _ E).
Qed.

Lemma rel_forEach (A : Type) (f : A -> M unit) (l : list A) :
  (forall a, rel R (f a)) -> rel R (forEach f l).
Proof.
  intros Hf. induction l as [ | x r IH]; simpl.
  - apply rel_ret.
  - apply rel_bind; [ apply Hf | intros _; apply IH ].
Qed.

Ltac rel_step :=
  match goal with
  | |- rel _ (ret _) => apply rel_ret
  | |- rel _ (throw _) => apply rel_throw
  | |- rel _ (gets _) => apply rel_gets
  | |- rel _ (perform _) => apply rel_perform
  | |- rel _ (bind _ _) => apply rel_bind; [ | intro ]
  | |- rel _ (forEach _ _) => apply rel_forEach; intro
  | H : forall p, rel _ (?c p) |- rel _ (?c _) => apply H
  | |- rel _ (match ?x with _ => _ end) => destruct x
  | |- rel _ _ => solve [ auto ]
  end.

Ltac rel_auto := repeat rel_step.

Section WithCall.
Variable call : prog -> M value.
Hypothesis Hcall : forall p, rel R (call p).

Lemma rel_trackV t ty k : rel R (trackV t ty k).
Proof. unfold trackV. rel_auto. Qed.

Lemma rel_writeField t k v : rel R (writeField t k v).
Proof. unfold writeField. rel_auto. Qed.

Lemma rel_reactiveEffect e : rel R (reactiveEffect call e).
Proof.
  unfold reactiveEffect. intros s o s' H. unfold bind, gets in H.
  destruct (effectOf s e) as [f | ] eqn:Ef.
  - destruct (active f) eqn:Ea; simpl in H.
    + destruct (mem e (effectStack s)) eqn:Em.
      * inversion H; subst. apply (c_refl HR).
      * destruct (call (raw f) (enter e (cleanup e s)))
          as [[o2 s2] | ] eqn:Ec; try discriminate.
        inversion H; subst.
        apply (c_frame HR) with (e := e) (f := f); auto.
        eapply Hcall; exact Ec.
    + destruct (scheduler (options f)).
      * inversion H; subst. apply (c_refl HR).
      * apply (c_trans HR) with (emit (EvRun e) s).
        -- apply (c_inactive HR) with f; auto.
        -- eapply Hcall; exact H.
  - inversion H; subst. apply (c_refl HR).
Qed.

Lemma rel_runScheduler sch e : rel R (runScheduler call sch e).
Proof. unfold runScheduler. rel_auto. Qed.

Lemma rel_run e : rel R (run call e).
Proof. unfold run. pose proof rel_runScheduler. rel_auto. Qed.

Lemma rel_trigger t ty k nv : rel R (trigger call t ty k nv).
Proof. unfold trigger. pose proof rel_run. rel_auto. Qed.

Lemma rel_effect fn opts : rel R (effect call fn opts).
Proof. unfold effect. rel_auto. Qed.

Lemma rel_stop e : rel R (stop call e).
Proof. unfold stop. rel_auto. Qed.

Lemma rel_getTargetType v : rel R (getTargetType call v).
Proof. unfold getTargetType. rel_auto. Qed.

Lemma rel_createReactiveObject t ro sh :
  rel R (createReactiveObject call t ro sh).
Proof.
  unfold createReactiveObject. pose proof rel_getTargetType. rel_auto.
Qed.

Lemma rel_reactive t : rel R (reactive call t).
Proof. unfold reactive. pose proof rel_createReactiveObject. rel_auto. Qed.

Lemma rel_wrap ro sh t : rel R (wrap call ro sh t).
Proof.
  unfold wrap, shallowReactive, readonly, shallowReadonly.
  pose proof rel_createReactiveObject. pose proof rel_reactive.
  rel_auto.
Qed.

Lemma rel_createGetter ro sh t k r : rel R (createGetter call ro sh t k r).
Proof.
  unfold createGetter, readonly.
  pose proof rel_createReactiveObject. pose proof rel_reactive.
  pose proof rel_trackV. rel_auto.
Qed.

Lemma rel_collectionGetter ro sh t k r :
  rel R (collectionGetter call ro sh t k r).
Proof. unfold collectionGetter. rel_auto. Qed.

Lemma rel_refGet this : rel R (refGet this).
Proof. unfold refGet. pose proof rel_trackV. rel_auto. Qed.

Lemma rel_refSet this v : rel R (refSet call this v).
Proof.
  unfold refSet. pose proof rel_reactive. pose proof rel_trigger.
  pose proof rel_writeField. rel_auto.
Qed.

Lemma rel_computedGet this : rel R (computedGet call this).
Proof.
  unfold computedGet. pose proof rel_trackV. pose proof rel_writeField.
  rel_auto.
Qed.

Lemma rel_computedSet this v : rel R (computedSet call this v).
Proof. unfold computedSet. rel_auto. Qed.

Lemma rel_reflectGet t k r : rel R (reflectGet call t k r).
Proof.
  unfold reflectGet. pose proof rel_createGetter.
  pose proof rel_collectionGetter. pose proof rel_refGet.
  pose proof rel_computedGet. rel_auto.
Qed.

Lemma rel_ordinarySet k v r : rel R (ordinarySet k v r).
Proof. unfold ordinarySet. rel_auto. Qed.

Lemma rel_createSetter sh t k v r : rel R (createSetter call sh t k v r).
Proof. unfold createSetter. pose proof rel_trigger. rel_auto. Qed.

Lemma rel_reflectSet t k v r : rel R (reflectSet call t k v r).
Proof.
  unfold reflectSet. pose proof rel_createSetter. pose proof rel_refSet.
  pose proof rel_computedSet. pose proof rel_ordinarySet. rel_auto.
Qed.

Lemma rel_callFn f arg : rel R (callFn call f arg).
Proof. unfold callFn. pose proof rel_reactiveEffect. rel_auto. Qed.

Lemma rel_computed g st : rel R (computed g st).
Proof. unfold computed. rel_auto. Qed.

Lemma rel_ref v sh : rel R (ref call v sh).
Proof. unfold ref. pose proof rel_reactive. rel_auto. Qed.

Lemma rel_markRaw v : rel R (markRaw v).
Proof. unfold markRaw. rel_auto. Qed.

Lemma rel_tryCatch body handler : rel R (tryCatch call body handler).
Proof.
  intros s o s' H. unfold tryCatch in H.
  destruct (call body s) as [[[a | x] s1] | ] eqn:E; try discriminate.
  - inversion H; subst. eapply Hcall; exact E.
  - apply (c_trans HR) with s1; [ eapply Hcall; exact E | eapply Hcall; exact H ].
Qed.

Lemma rel_step_prog p : rel R (step call p).
Proof.
  pose proof rel_tryCatch. pose proof rel_reflectGet.
  pose proof rel_reflectSet. pose proof rel_callFn.
  pose proof rel_effect. pose proof rel_stop. pose proof rel_trigger.
  pose proof rel_wrap. pose proof rel_markRaw. pose proof rel_ref.
  pose proof rel_computed.
  destruct p; simpl; rel_auto.
Qed.
End WithCall.

(** Every run of a program respects a closed relation. *)
Theorem exec_rel : forall n p, rel R (exec n p).
Proof.
  induction n as [ | n IH]; intros p.
  - intros s o s' H. discriminate.
  - simpl. apply rel_step_prog. exact IH.
Qed.
End Rel.

Unset Implicit Arguments.

(** ** Basic facts about keys, maps and sets *)

Lemma symbol_eqb_eq (a b : symbol) : symbol_eqb a b = true <-> a = b.
Proof.
  destruct a, b; simpl; split; intros H;
    try reflexivity; try discriminate; try congruence.
  - apply Nat.eqb_eq in H. congruence.
  - inversion H. apply Nat.eqb_refl.
  - apply Nat.eqb_eq in H. congruence.
  - inversion H. apply Nat.eqb_refl.
Qed.

Lemma key_eqb_eq (a b : key) : key_eqb a b = true <-> a = b.
Proof.
  destruct a, b; simpl; split; intros H; try discriminate.
  - apply String.eqb_eq in H. congruence.
  - inversion H. apply String.eqb_refl.
  - apply symbol_eqb_eq in H. congruence.
  - inversion H. apply symbol_eqb_eq. reflexivity.
Qed.

Lemma key_eqb_refl (k : key) : key_eqb k k = true.
Proof. apply key_eqb_eq. reflexivity. Qed.

Lemma key_eqb_neq (a b : key) : key_eqb a b = false <-> a <> b.
Proof.
  split; intros H.
  - intros E. apply key_eqb_eq in E. congruence.
  - destruct (key_eqb a b) eqn:E; auto. apply key_eqb_eq in E. contradiction.
Qed.

Lemma pair_eqb_eq (a b : addr * key) : pair_eqb a b = true <-> a = b.
Proof.
  destruct a as [t k], b as [t' k']. unfold pair_eqb. simpl.
  rewrite andb_true_iff, Nat.eqb_eq, key_eqb_eq.
  split; [ intros [-> ->]; reflexivity | intros H; inversion H; auto ].
Qed.

Lemma existsb_pair_In (x : addr * key) (l : list (addr * key)) :
  existsb (pair_eqb x) l = true <-> In x l.
Proof.
  rewrite existsb_exists. split.
  - intros [y [Hy E]]. apply pair_eqb_eq in E. subst. exact Hy.
  - intros H. exists x. split; auto. apply pair_eqb_eq. reflexivity.
Qed.

Lemma mem_In (e : eid) (d : list eid) : mem e d = true <-> In e d.
Proof.
  unfold mem. rewrite existsb_exists. split.
  - intros [y [Hy E]]. apply Nat.eqb_eq in E. subst. exact Hy.
  - intros H. exists e. split; auto. apply Nat.eqb_refl.
Qed.

Lemma mem_false (e : eid) (d : list eid) : mem e d = false <-> ~ In e d.
Proof.
  rewrite <- mem_In. destruct (mem e d); split; congruence.
Qed.

Lemma In_sdelete (e x : eid) (d : Dep) :
  In x (sdelete e d) <-> In x d /\ x <> e.
Proof.
  unfold sdelete. rewrite filter_In, negb_true_iff, Nat.eqb_neq.
  intuition congruence.
Qed.

Section AssocFacts.
Variables (K V : Type) (eqb : K -> K -> bool).
Hypothesis eqb_eq : forall a b, eqb a b = true <-> a = b.

Lemma alookup_aset_same (k : K) (v : V) (m : list (K * V)) :
  alookup eqb k (aset eqb k v m) = Some v.
Proof.
  assert (Hr : eqb k k = true) by (apply eqb_eq; reflexivity).
  induction m as [ | [k' v'] r IH]; simpl.
  - rewrite Hr. reflexivity.
  - destruct (eqb k k') eqn:E; simpl.
    + rewrite Hr. reflexivity.
    + rewrite E. exact IH.
Qed.

Lemma alookup_aset_other (k k' : K) (v : V) (m : list (K * V)) :
  k <> k' -> alookup eqb k' (aset eqb k v m) = alookup eqb k' m.
Proof.
  intros Hne.
  assert (Hf : eqb k' k = false).
  { destruct (eqb k' k) eqn:E; auto. apply eqb_eq in E. congruence. }
  induction m as [ | [k0 v0] r IH]; simpl.
  - rewrite Hf. reflexivity.
  - destruct (eqb k k0) eqn:E; simpl.
    + apply eqb_eq in E. subst k0. rewrite Hf. reflexivity.
    + destruct (eqb k' k0); auto.
Qed.
End AssocFacts.

Lemma nth_error_update_nth (A : Type) (f : A -> A) (l : list A) (n m : nat) :
  nth_error (update_nth n f l) m =
  if Nat.eqb n m then option_map f (nth_error l m) else nth_error l m.
Proof.
  revert n m. induction l as [ | x r IH]; intros n m.
  - destruct n, m; simpl; try reflexivity; destruct (Nat.eqb n m); reflexivity.
  - destruct n, m; simpl; try reflexivity. apply IH.
Qed.

Lemma length_update_nth (A : Type) (f : A -> A) (l : list A) (n : nat) :
  List.length (update_nth n f l) = List.length l.
Proof.
  revert n. induction l as [ | x r IH]; intros [ | n]; simpl; auto.
Qed.

Lemma depOf_set_dep (t : addr) (k : key) (d : Dep) (s : state)
  (t' : addr) (k' : key) :
  depOf (set_dep t k d s) t' k' =
  if pair_eqb (t, k) (t', k') then d else depOf s t' k'.
Proof.
  unfold depOf, set_dep, depsMapOf, pair_eqb. simpl.
  destruct (Nat.eqb t t') eqn:Et; simpl.
  - apply Nat.eqb_eq in Et. subst t'.
    rewrite (alookup_aset_same _ _ Nat.eqb Nat.eqb_eq).
    destruct (key_eqb k k') eqn:Ek.
    + apply key_eqb_eq in Ek. subst k'.
      rewrite (alookup_aset_same _ _ key_eqb key_eqb_eq). reflexivity.
    + apply key_eqb_neq in Ek.
      rewrite (alookup_aset_other _ _ key_eqb key_eqb_eq) by exact Ek.
      destruct (alookup Nat.eqb t (targetMap s)); reflexivity.
  - apply Nat.eqb_neq in Et.
    rewrite (alookup_aset_other _ _ Nat.eqb Nat.eqb_eq) by exact Et.
    reflexivity.
Qed.

(** ** Edge symmetry *)

(** [e] is a member of the Dep of (t, k) *)
Definition subscribed (s : state) (e : eid) (t : addr) (k : key) : Prop :=
  In e (depOf s t k).

(** the Dep of (t, k) is in [e.deps] *)
Definition listed (s : state) (e : eid) (t : addr) (k : key) : Prop :=
  exists f, effectOf s e = Some f /\ In (t, k) (deps f).

Definition edgeSymmetry (s : state) : Prop :=
  forall e t k, subscribed s e t k <-> listed s e t k.

(** The running effects exist. *)
Definition validRefs (s : state) : Prop :=
  (forall e, activeEffect s = Some e -> e < List.length (effects s))
  /\ (forall e, In e (effectStack s) -> e < List.length (effects s)).

Definition Inv (s : state) : Prop := edgeSymmetry s /\ validRefs s.

Lemma Inv_init : Inv init.
Proof.
  split; [ | split ].
  - intros e t k. unfold subscribed, listed, depOf, effectOf. simpl.
    split; [ intros [] | intros [f [H _]] ]. destruct e; discriminate.
  - simpl. discriminate.
  - simpl. intros e [].
Qed.

Lemma Inv_ext (s s' : state) :
  targetMap s' = targetMap s -> effects s' = effects s ->
  effectStack s' = effectStack s -> activeEffect s' = activeEffect s ->
  Inv s -> Inv s'.
Proof.
  intros Ht He Hs Ha [Hsym [Hv1 Hv2]]. split; [ | split ].
  - intros e t k. unfold subscribed, listed, depOf, depsMapOf, effectOf.
    rewrite Ht, He. apply Hsym.
  - rewrite Ha, He. exact Hv1.
  - rewrite Hs, He. exact Hv2.
Qed.

Lemma effectOf_valid (s : state) (e : eid) :
  e < List.length (effects s) -> exists f, effectOf s e = Some f.
Proof.
  intros H. unfold effectOf.
  destruct (nth_error (effects s) e) eqn:E; eauto.
  apply nth_error_None in E. lia.
Qed.

Lemma effectOf_lt (s : state) (e : eid) (f : ReactiveEffect) :
  effectOf s e = Some f -> e < List.length (effects s).
Proof.
  unfold effectOf. intros H. apply nth_error_Some. congruence.
Qed.

Lemma Inv_track (t : addr) (ty : TrackOpTypes) (k : key) (s : state) :
  Inv s -> Inv (track t ty k s).
Proof.
  intros HI. unfold track.
  destruct (shouldTrack s); simpl; auto.
  destruct (activeEffect s) as [e | ] eqn:Ea; auto.
  change (depOf (emit (EvTrack e t k) s) t k) with (depOf s t k).
  destruct (mem e (depOf s t k)) eqn:Em.
  - revert HI. apply Inv_ext; reflexivity.
  - destruct HI as [Hsym [Hv1 Hv2]].
    destruct (effectOf_valid s e (Hv1 e Ea)) as [f Ef].
    apply mem_false in Em.
    split; [ | split ].
    + intros e' t' k'. unfold subscribed, listed.
      change (depOf _ t' k') with
        (depOf (set_dep t k (depOf s t k ++ [e]) (emit (EvTrack e t k) s)) t' k').
      rewrite depOf_set_dep.
      change (depOf (emit (EvTrack e t k) s) t' k') with (depOf s t' k').
      unfold effectOf. simpl. rewrite nth_error_update_nth.
      fold (effectOf s e'). 
      destruct (pair_eqb (t, k) (t', k')) eqn:Ep.
      * apply pair_eqb_eq in Ep. inversion Ep; subst t' k'. clear Ep.
        rewrite in_app_iff. simpl.
        destruct (Nat.eqb e e') eqn:Ee.
        -- apply Nat.eqb_eq in Ee. subst e'. rewrite Ef. simpl.
           split; [ intros _ | auto ].
           eexists. split; [ reflexivity | ]. simpl.
           apply in_or_app. right. left. reflexivity.
        -- apply Nat.eqb_neq in Ee. rewrite <- (Hsym e' t k).
           unfold subscribed. intuition congruence.
      * assert (Hne : (t, k) <> (t', k')).
        { intros E. apply pair_eqb_eq in E. congruence. }
        destruct (Nat.eqb e e') eqn:Ee.
        -- apply Nat.eqb_eq in Ee. subst e'. rewrite Ef. simpl.
           rewrite (Hsym e t' k'). unfold listed. rewrite Ef.
           split.
           ++ intros [f0 [H0 Hin]]. inversion H0; subst f0.
              eexists. split; [ reflexivity | ]. simpl.
              apply in_or_app. left. exact Hin.
           ++ intros [f0 [H0 Hin]]. inversion H0; subst f0. simpl in Hin.
              apply in_app_or in Hin. destruct Hin as [Hin | [Hin | []]].
              ** eexists. split; [ reflexivity | exact Hin ].
              ** congruence.
        -- apply (Hsym e' t' k').
    + simpl. rewrite length_update_nth. exact Hv1.
    + simpl. rewrite length_update_nth. exact Hv2.
Qed.

Lemma fold_dep_delete_shape (e : eid) (ds : list (addr * key)) (s : state) :
  fold_left (dep_delete e) ds s
  = set_targetMap (targetMap (fold_left (dep_delete e) ds s)) s.
Proof.
  revert s. induction ds as [ | tk r IH]; intros s; simpl.
  - destruct s; reflexivity.
  - rewrite IH. unfold dep_delete at 2, set_dep. simpl.
    unfold set_targetMap. simpl. reflexivity.
Qed.

Lemma depOf_fold_delete (e : eid) (ds : list (addr * key)) (s : state)
  (t : addr) (k : key) :
  depOf (fold_left (dep_delete e) ds s) t k =
  if existsb (pair_eqb (t, k)) ds then sdelete e (depOf s t k)
  else depOf s t k.
Proof.
  revert s. induction ds as [ | [t0 k0] r IH]; intros s; simpl.
  - reflexivity.
  - rewrite IH. unfold dep_delete. simpl. rewrite depOf_set_dep.
    destruct (pair_eqb (t, k) (t0, k0)) eqn:E.
    + apply pair_eqb_eq in E. inversion E; subst t0 k0.
      assert (Hr : pair_eqb (t, k) (t, k) = true)
        by (apply pair_eqb_eq; reflexivity).
      rewrite Hr. simpl.
      assert (Hidem : sdelete e (sdelete e (depOf s t k))
                      = sdelete e (depOf s t k)).
      { unfold sdelete. induction (depOf s t k) as [ | x l IHl]; simpl; auto.
        destruct (negb (Nat.eqb e x)) eqn:Ex; simpl.
        - rewrite Ex. f_equal. exact IHl.
        - exact IHl. }
      rewrite Hidem. destruct (existsb (pair_eqb (t, k)) r); reflexivity.
    + assert (Hf : pair_eqb (t0, k0) (t, k) = false).
      { destruct (pair_eqb (t0, k0) (t, k)) eqn:E2; auto.
        apply pair_eqb_eq in E2. inversion E2; subst.
        assert (pair_eqb (t, k) (t, k) = true)
          by (apply pair_eqb_eq; reflexivity). congruence. }
      rewrite Hf. simpl. reflexivity.
Qed.

Lemma Inv_cleanup (e : eid) (s : state) : Inv s -> Inv (cleanup e s).
Proof.
  intros HI. unfold cleanup.
  change (effectOf (emit (EvCleanup e) s) e) with (effectOf s e).
  destruct (effectOf s e) as [f | ] eqn:Ef;
    [ | revert HI; apply Inv_ext; reflexivity ].
  destruct (deps f) as [ | d0 ds0] eqn:Ed;
    [ revert HI; apply Inv_ext; reflexivity | ].
  rewrite <- Ed. remember (deps f) as ds eqn:Hds. clear Ed d0 ds0.
  destruct HI as [Hsym [Hv1 Hv2]].
  rewrite fold_dep_delete_shape.
  split; [ | split ].
  - intros e' t k. unfold subscribed, listed.
    match goal with
    | |- In e' (depOf ?st t k) <-> _ =>
        change (depOf st t k) with
          (depOf (fold_left (dep_delete e) ds (emit (EvCleanup e) s)) t k)
    end.
    rewrite depOf_fold_delete.
    change (depOf (emit (EvCleanup e) s) t k) with (depOf s t k).
    unfold effectOf. simpl. rewrite nth_error_update_nth.
    fold (effectOf s e').
    destruct (Nat.eqb e e') eqn:Ee.
    + apply Nat.eqb_eq in Ee. subst e'. rewrite Ef. simpl.
      split.
      * intros Hin. exfalso.
        destruct (existsb (pair_eqb (t, k)) ds) eqn:Ex.
        -- apply In_sdelete in Hin. destruct Hin as [_ Hne]. congruence.
        -- apply (Hsym e t k) in Hin. destruct Hin as [f0 [H0 Hin]].
           rewrite Ef in H0. inversion H0; subst f0.
           rewrite <- Hds in Hin. apply existsb_pair_In in Hin. congruence.
      * intros [f0 [H0 Hin]]. inversion H0; subst f0. destruct Hin.
    + apply Nat.eqb_neq in Ee.
      rewrite <- (Hsym e' t k). unfold subscribed.
      destruct (existsb (pair_eqb (t, k)) ds).
      * rewrite In_sdelete. intuition congruence.
      * tauto.
  - simpl. rewrite length_update_nth. exact Hv1.
  - simpl. rewrite length_update_nth. exact Hv2.
Qed.

Lemma Inv_deactivate (e : eid) (s : state) : Inv s -> Inv (deactivate e s).
Proof.
  intros [Hsym [Hv1 Hv2]]. split; [ | split ].
  - intros e' t k. unfold subscribed, listed.
    change (depOf (deactivate e s) t k) with (depOf s t k).
    rewrite (Hsym e' t k). unfold listed, effectOf. simpl.
    rewrite nth_error_update_nth.
    destruct (Nat.eqb e e'); [ | tauto ].
    destruct (nth_error (effects s) e') as [f | ]; simpl.
    + split; intros [f0 [H0 Hin]]; inversion H0; subst;
        eexists; (split; [ reflexivity | exact Hin ]).
    + split; intros [f0 [H0 _]]; discriminate.
  - simpl. rewrite length_update_nth. exact Hv1.
  - simpl. rewrite length_update_nth. exact Hv2.
Qed.

Lemma Inv_newEffect (fn : prog) (opts : ReactiveEffectOptions prog)
  (s : state) : Inv s -> Inv (newEffect fn opts s).
Proof.
  intros [Hsym [Hv1 Hv2]]. split; [ | split ].
  - intros e t k. unfold subscribed, listed.
    change (depOf (newEffect fn opts s) t k) with (depOf s t k).
    rewrite (Hsym e t k). unfold listed, effectOf. simpl.
    destruct (Nat.lt_ge_cases e (List.length (effects s))) as [Hlt | Hge].
    + rewrite nth_error_app1 by exact Hlt. tauto.
    + rewrite nth_error_app2 by exact Hge.
      split.
      * intros [f [H0 _]].
        assert (nth_error (effects s) e = None)
          by (apply nth_error_None; exact Hge).
        congruence.
      * intros [f [H0 Hin]].
        destruct (e - List.length (effects s)) as [ | m]; simpl in H0.
        -- inversion H0; subst f. destruct Hin.
        -- destruct m; discriminate.
  - simpl. rewrite length_app. simpl. intros e He.
    specialize (Hv1 e He). lia.
  - simpl. rewrite length_app. simpl. intros e He.
    specialize (Hv2 e He). lia.
Qed.

Lemma Inv_prim (p : prim) (s : state) : Inv s -> Inv (applyPrim p s).
Proof.
  destruct p; simpl.
  - apply Inv_track.
  - apply Inv_cleanup.
  - apply Inv_deactivate.
  - apply Inv_ext; reflexivity.
  - apply Inv_ext; reflexivity.
  - unfold resetTracking. destruct (trackStack s); apply Inv_ext; reflexivity.
  - apply Inv_ext; reflexivity.
  - unfold writeProp. destruct (nth_error (heap s) a); auto.
    destruct (ordinaryWrite o k v); auto.
  - apply Inv_ext; reflexivity.
  - apply Inv_newEffect.
  - apply Inv_ext; reflexivity.
  - apply Inv_ext; reflexivity.
Qed.

Lemma Inv_enter (e : eid) (f : ReactiveEffect) (s : state) :
  effectOf s e = Some f -> Inv s -> Inv (enter e s).
Proof.
  intros Ef [Hsym [Hv1 Hv2]]. apply effectOf_lt in Ef.
  split; [ | split ].
  - exact Hsym.
  - simpl. intros e' He'. inversion He'; subst. exact Ef.
  - simpl. intros e' [<- | Hin]; auto.
Qed.

Lemma resetTracking_shape (s : state) :
  resetTracking s =
  set_tracking (match trackStack s with last :: _ => last | [] => true end)
    (tl (trackStack s)) s.
Proof. unfold resetTracking. destruct (trackStack s); reflexivity. Qed.

Lemma leave_shape (s : state) :
  leave s =
  set_stack (tl (effectStack s)) (hd_error (tl (effectStack s)))
    (resetTracking s).
Proof.
  unfold leave. rewrite !resetTracking_shape. reflexivity.
Qed.

Lemma Inv_leave (s : state) : Inv s -> Inv (leave s).
Proof.
  intros [Hsym [Hv1 Hv2]].
  rewrite leave_shape, resetTracking_shape.
  assert (Htl : forall e, In e (tl (effectStack s)) -> In e (effectStack s)).
  { intros e. destruct (effectStack s); simpl; auto. }
  split; [ | split ].
  - exact Hsym.
  - simpl. intros e He. apply Hv2. apply Htl.
    destruct (tl (effectStack s)); simpl in *; [ discriminate | ].
    inversion He; subst. left. reflexivity.
  - simpl. intros e He. apply Hv2. apply Htl. exact He.
Qed.

Lemma length_effects_cleanup (e : eid) (s : state) :
  List.length (effects (cleanup e s)) = List.length (effects s).
Proof.
  unfold cleanup.
  change (effectOf (emit (EvCleanup e) s) e) with (effectOf s e).
  destruct (effectOf s e) as [f | ]; [ | reflexivity ].
  destruct (deps f); [ reflexivity | ].
  rewrite fold_dep_delete_shape. simpl. apply length_update_nth.
Qed.

(** A state invariant kept by the primitives, the frame of a run and the
    log is kept by every program. *)
Lemma closed_invariant (I : state -> Prop) :
  (forall p s, I s -> I (applyPrim p s)) ->
  (forall e s, I s -> I (emit (EvRun e) s)) ->
  (forall e s, e < List.length (effects s) -> I s -> I (enter e s)) ->
  (forall s, I s -> I (leave s)) ->
  closed (fun s s' => I s -> I s').
Proof.
  intros Hp Hl He Hx. constructor.
  - auto.
  - auto.
  - auto.
  - intros e f s _ _. apply Hl.
  - intros e f s s2 Ef _ _ Hbody HI. apply Hx. apply Hbody.
    apply He.
    + rewrite length_effects_cleanup. apply (effectOf_lt s e f Ef).
    + apply (Hp (PCleanup e)). exact HI.
Qed.

Lemma Inv_closed : closed (fun s s' => Inv s -> Inv s').
Proof.
  apply closed_invariant.
  - apply Inv_prim.
  - intros e s. apply Inv_ext; reflexivity.
  - intros e s He. destruct (effectOf_valid s e He) as [f Ef].
    apply (Inv_enter e f s Ef).
  - apply Inv_leave.
Qed.

(** Every program keeps the invariant. *)
Lemma exec_Inv (n : nat) (p : prog) (s : state) (o : outcome value)
  (s' : state) :
  Inv s -> exec n p s = Some (o, s') -> Inv s'.
Proof.
  intros HI H. exact (@exec_rel _ Inv_closed n p s o s' H HI).
Qed.

(** ** What the primitives leave alone *)

Lemma cleanup_shape (e : eid) (s : state) :
  cleanup e s =
  set_log (EvCleanup e :: log s)
    (set_effects (effects (cleanup e s))
       (set_targetMap (targetMap (cleanup e s)) s)).
Proof.
  unfold cleanup.
  change (effectOf (emit (EvCleanup e) s) e) with (effectOf s e).
  destruct (effectOf s e) as [f | ]; [ | destruct s; reflexivity ].
  destruct (deps f); [ destruct s; reflexivity | ].
  rewrite fold_dep_delete_shape. destruct s; reflexivity.
Qed.

Lemma track_shape (t : addr) (ty : TrackOpTypes) (k : key) (s : state) :
  track t ty k s =
  set_log (log (track t ty k s))
    (set_effects (effects (track t ty k s))
       (set_targetMap (targetMap (track t ty k s)) s)).
Proof.
  unfold track. destruct (shouldTrack s); simpl; [ | destruct s; reflexivity ].
  destruct (activeEffect s) as [e | ]; [ | destruct s; reflexivity ].
  change (depOf (emit (EvTrack e t k) s) t k) with (depOf s t k).
  destruct (mem e (depOf s t k)); destruct s; reflexivity.
Qed.

Lemma writeProp_shape (a : addr) (k : key) (v : value) (s : state) :
  writeProp a k v s = set_heap (heap (writeProp a k v s)) s.
Proof.
  unfold writeProp. destruct (nth_error (heap s) a);
    [ | destruct s; reflexivity ].
  destruct (ordinaryWrite o k v); destruct s; reflexivity.
Qed.

Lemma prim_stack (p : prim) (s : state) :
  effectStack (applyPrim p s) = effectStack s
  /\ activeEffect (applyPrim p s) = activeEffect s.
Proof.
  destruct p; simpl; try (split; reflexivity).
  - rewrite track_shape. split; reflexivity.
  - rewrite cleanup_shape. split; reflexivity.
  - rewrite resetTracking_shape. split; reflexivity.
  - rewrite writeProp_shape. split; reflexivity.
Qed.

Lemma prim_tracking (p : prim) (s : state) :
  match p with PPause | PEnable | PReset => True | _ =>
    shouldTrack (applyPrim p s) = shouldTrack s
    /\ trackStack (applyPrim p s) = trackStack s
  end.
Proof.
  destruct p; simpl; try (split; reflexivity); auto.
  - rewrite track_shape. split; reflexivity.
  - rewrite cleanup_shape. split; reflexivity.
  - rewrite writeProp_shape. split; reflexivity.
Qed.

Lemma prim_heap (p : prim) (s : state) :
  match p with PAlloc _ | PWriteProp _ _ _ | PNewProxy _ _ _ => True | _ =>
    heap (applyPrim p s) = heap s
  end.
Proof.
  destruct p; simpl; try reflexivity; auto.
  - rewrite track_shape. reflexivity.
  - rewrite cleanup_shape. reflexivity.
  - rewrite resetTracking_shape. reflexivity.
Qed.

(** ** The effect stack is a stack *)

Definition sameStack (s s' : state) : Prop := effectStack s' = effectStack s.

Lemma sameStack_closed : closed sameStack.
Proof.
  unfold sameStack. constructor.
  - reflexivity.
  - intros a b c H1 H2. congruence.
  - intros p s. apply prim_stack.
  - reflexivity.
  - intros e f s s2 _ _ _ H. rewrite leave_shape. simpl. rewrite H.
    simpl. rewrite cleanup_shape. reflexivity.
Qed.

(** A program leaves the effect stack as it found it. *)
Lemma exec_sameStack (n : nat) (p : prog) (s : state) (o : outcome value)
  (s' : state) :
  exec n p s = Some (o, s') -> effectStack s' = effectStack s.
Proof. intros H. exact (@exec_rel _ sameStack_closed n p s o s' H). Qed.

(** The active effect is the top of the stack. *)
Definition activeIsTop (s : state) : Prop :=
  activeEffect s = hd_error (effectStack s).

Lemma activeIsTop_closed : closed (fun s s' => activeIsTop s -> activeIsTop s').
Proof.
  apply closed_invariant; unfold activeIsTop.
  - intros p s H. destruct (prim_stack p s) as [-> ->]. exact H.
  - auto.
  - intros e s _ _. reflexivity.
  - intros s _. rewrite leave_shape. reflexivity.
Qed.

Lemma exec_activeIsTop (n : nat) (p : prog) (s : state) (o : outcome value)
  (s' : state) :
  activeIsTop s -> exec n p s = Some (o, s') -> activeIsTop s'.
Proof. intros HI H. exact (@exec_rel _ activeIsTop_closed n p s o s' H HI). Qed.

(** ** The log only grows *)

Definition logGrows (s s' : state) : Prop :=
  exists evs, log s' = evs ++ log s.

Lemma log_track (t : addr) (ty : TrackOpTypes) (k : key) (s : state) :
  log (track t ty k s) =
  if shouldTrack s then
    match activeEffect s with
    | Some e => EvTrack e t k :: log s
    | None => log s
    end
  else log s.
Proof.
  unfold track. destruct (shouldTrack s); simpl; auto.
  destruct (activeEffect s) as [e | ]; auto.
  change (depOf (emit (EvTrack e t k) s) t k) with (depOf s t k).
  destruct (mem e (depOf s t k)); reflexivity.
Qed.

Lemma log_cleanup (e : eid) (s : state) :
  log (cleanup e s) = EvCleanup e :: log s.
Proof. rewrite cleanup_shape. reflexivity. Qed.

Lemma log_leave (s : state) : log (leave s) = log s.
Proof. rewrite leave_shape, resetTracking_shape. reflexivity. Qed.

Lemma logGrows_prim (p : prim) (s : state) : logGrows s (applyPrim p s).
Proof.
  unfold logGrows. destruct p; simpl;
    try (exists []; reflexivity);
    try (eexists [_]; reflexivity).
  - rewrite log_track. destruct (shouldTrack s); [ | exists []; reflexivity ].
    destruct (activeEffect s); [ eexists [_] | exists [] ]; reflexivity.
  - rewrite log_cleanup. eexists [_]. reflexivity.
  - rewrite resetTracking_shape. exists []. reflexivity.
  - rewrite writeProp_shape. exists []. reflexivity.
Qed.

Lemma logGrows_closed : closed logGrows.
Proof.
  constructor.
  - intros s. exists []. reflexivity.
  - intros a b c [e1 H1] [e2 H2]. exists (e2 ++ e1).
    rewrite H2, H1. apply app_assoc.
  - apply logGrows_prim.
  - intros e f s _ _. eexists [_]. reflexivity.
  - intros e f s s2 _ _ _ [evs H]. unfold logGrows.
    rewrite log_leave, H. simpl. rewrite log_cleanup.
    exists (evs ++ [EvRun e; EvCleanup e]). rewrite <- app_assoc. reflexivity.
Qed.

Lemma exec_logGrows (n : nat) (p : prog) (s : state) (o : outcome value)
  (s' : state) :
  exec n p s = Some (o, s') -> exists evs, log s' = evs ++ log s.
Proof. intros H. exact (@exec_rel _ logGrows_closed n p s o s' H). Qed.

(** ** The subscription list follows the tracked reads

    [tracked e l] replays the log [l] (newest event first) for effect [e]:
    a cleanup empties the list, a tracked read of (t, k) appends the pair
    unless it is there. *)

Fixpoint tracked (e : eid) (l : list event) : list (addr * key) :=
  match l with
  | [] => []
  | EvCleanup e' :: r => if Nat.eqb e e' then [] else tracked e r
  | EvTrack e' t k :: r =>
      if Nat.eqb e e' then
        let d := tracked e r in
        if existsb (pair_eqb (t, k)) d then d else d ++ [(t, k)]
      else tracked e r
  | _ :: r => tracked e r
  end.

Definition depsFollowLog (s : state) : Prop :=
  forall e,
    match effectOf s e with
    | Some f => deps f = tracked e (log s)
    | None => tracked e (log s) = []
    end.

Definition Inv3 (s : state) : Prop := Inv s /\ depsFollowLog s.

Lemma Inv3_init : Inv3 init.
Proof.
  split; [ apply Inv_init | ]. intros e. unfold effectOf. simpl.
  destruct e; reflexivity.
Qed.

Lemma effectOf_cleanup (e : eid) (s : state) (e' : eid) :
  effectOf (cleanup e s) e' =
  if Nat.eqb e e' then option_map (with_deps []) (effectOf s e')
  else effectOf s e'.
Proof.
  unfold cleanup.
  change (effectOf (emit (EvCleanup e) s) e) with (effectOf s e).
  destruct (effectOf s e) as [f | ] eqn:Ef.
  - destruct (deps f) eqn:Ed.
    + change (effectOf (emit (EvCleanup e) s) e') with (effectOf s e').
      destruct (Nat.eqb e e') eqn:Ee; auto.
      apply Nat.eqb_eq in Ee. subst e'. rewrite Ef. simpl.
      destruct f; simpl in *; subst; reflexivity.
    + rewrite fold_dep_delete_shape. unfold effectOf. simpl.
      apply nth_error_update_nth.
  - change (effectOf (emit (EvCleanup e) s) e') with (effectOf s e').
    destruct (Nat.eqb e e') eqn:Ee; auto.
    apply Nat.eqb_eq in Ee. subst e'. rewrite Ef. reflexivity.
Qed.

Lemma follow_ext (s s' : state) :
  effects s' = effects s -> log s' = log s ->
  depsFollowLog s -> depsFollowLog s'.
Proof.
  intros He Hl H e. unfold effectOf. rewrite He, Hl. apply H.
Qed.

Lemma follow_emit (ev : event) (s : state) :
  match ev with EvTrack _ _ _ | EvCleanup _ => False | _ => True end ->
  depsFollowLog s -> depsFollowLog (emit ev s).
Proof.
  intros Hev H e. specialize (H e).
  change (effectOf (emit ev s) e) with (effectOf s e).
  destruct ev; simpl in *; try contradiction; exact H.
Qed.

Lemma Inv3_track (t : addr) (ty : TrackOpTypes) (k : key) (s : state) :
  Inv3 s -> Inv3 (track t ty k s).
Proof.
  intros [HI HF]. split; [ apply Inv_track; exact HI | ].
  unfold track. destruct (shouldTrack s); simpl; auto.
  destruct (activeEffect s) as [e | ] eqn:Ea; auto.
  change (depOf (emit (EvTrack e t k) s) t k) with (depOf s t k).
  destruct HI as [Hsym [Hv1 _]].
  destruct (effectOf_valid s e (Hv1 e Ea)) as [f Ef].
  assert (Hmem : mem e (depOf s t k)
                 = existsb (pair_eqb (t, k)) (tracked e (log s))).
  { pose proof (HF e) as He. rewrite Ef in He. rewrite <- He.
    destruct (mem e (depOf s t k)) eqn:Em.
    - apply mem_In in Em. apply (Hsym e t k) in Em.
      destruct Em as [f0 [H0 Hin]]. rewrite Ef in H0. inversion H0; subst f0.
      symmetry. apply existsb_pair_In. exact Hin.
    - apply mem_false in Em. symmetry.
      destruct (existsb (pair_eqb (t, k)) (deps f)) eqn:Ex; auto.
      apply existsb_pair_In in Ex. exfalso. apply Em.
      apply (Hsym e t k). exists f. auto. }
  destruct (mem e (depOf s t k)) eqn:Em.
  - intros e'. specialize (HF e').
    change (effectOf (emit (EvTrack e t k) s) e') with (effectOf s e').
    simpl. destruct (Nat.eqb e' e) eqn:Ee.
    + apply Nat.eqb_eq in Ee. subst e'. rewrite <- Hmem.
      exact HF.
    + exact HF.
  - intros e'. specialize (HF e'). unfold effectOf. simpl.
    rewrite nth_error_update_nth. fold (effectOf s e').
    destruct (Nat.eqb e e') eqn:Ee.
    + apply Nat.eqb_eq in Ee. subst e'. rewrite Nat.eqb_refl.
      rewrite Ef in *. simpl. rewrite <- Hmem. rewrite HF. reflexivity.
    + rewrite Nat.eqb_sym, Ee. exact HF.
Qed.

Lemma Inv3_cleanup (e : eid) (s : state) : Inv3 s -> Inv3 (cleanup e s).
Proof.
  intros [HI HF]. split; [ apply Inv_cleanup; exact HI | ].
  intros e'. rewrite effectOf_cleanup, log_cleanup. simpl.
  specialize (HF e'). rewrite (Nat.eqb_sym e' e).
  destruct (Nat.eqb e e') eqn:Ee.
  - destruct (effectOf s e'); reflexivity.
  - exact HF.
Qed.

Lemma Inv3_prim (p : prim) (s : state) : Inv3 s -> Inv3 (applyPrim p s).
Proof.
  intros H. pose proof H as [HI HF].
  destruct p; simpl.
  - apply Inv3_track; exact H.
  - apply Inv3_cleanup; exact H.
  - split; [ apply Inv_deactivate; exact HI | ].
    intros e'. specialize (HF e'). unfold effectOf. simpl.
    rewrite nth_error_update_nth. fold (effectOf s e').
    destruct (Nat.eqb e e'); auto.
    destruct (effectOf s e'); simpl; auto.
  - exact H.
  - exact H.
  - split; [ apply (Inv_prim PReset); exact HI | ].
    rewrite resetTracking_shape. exact HF.
  - exact H.
  - split; [ apply (Inv_prim (PWriteProp a k v)); exact HI | ].
    rewrite writeProp_shape. exact HF.
  - exact H.
  - split; [ apply Inv_newEffect; exact HI | ].
    intros e. specialize (HF e). unfold effectOf in *. simpl.
    destruct (Nat.lt_ge_cases e (List.length (effects s))) as [Hlt | Hge].
    + rewrite nth_error_app1 by exact Hlt. exact HF.
    + rewrite nth_error_app2 by exact Hge.
      assert (Hn : nth_error (effects s) e = None)
        by (apply nth_error_None; exact Hge).
      rewrite Hn in HF.
      destruct (e - List.length (effects s)) as [ | m]; simpl.
      * symmetry. exact HF.
      * destruct m; exact HF.
  - split; [ exact HI | ]. apply follow_emit; simpl; auto.
  - split; [ exact HI | ]. apply follow_emit; simpl; auto.
Qed.

Lemma Inv3_closed : closed (fun s s' => Inv3 s -> Inv3 s').
Proof.
  apply closed_invariant.
  - apply Inv3_prim.
  - intros e s [HI HF]. split; [ exact HI | ]. apply follow_emit; simpl; auto.
  - intros e s He [HI HF]. split.
    + destruct (effectOf_valid s e He) as [f Ef]. apply (Inv_enter e f s Ef HI).
    + intros e'. apply (HF e').
  - intros s [HI HF]. split; [ apply Inv_leave; exact HI | ].
    rewrite leave_shape, resetTracking_shape. exact HF.
Qed.

Lemma exec_Inv3 (n : nat) (p : prog) (s : state) (o : outcome value)
  (s' : state) :
  Inv3 s -> exec n p s = Some (o, s') -> Inv3 s'.
Proof. intros HI H. exact (@exec_rel _ Inv3_closed n p s o s' H HI). Qed.

(** Events older than the last cleanup of [e] do not matter. *)
Lemma tracked_app_cleanup (e : eid) (evs old : list event) :
  tracked e (evs ++ EvCleanup e :: old) = tracked e (evs ++ [EvCleanup e]).
Proof.
  induction evs as [ | ev r IH]; simpl.
  - rewrite Nat.eqb_refl. reflexivity.
  - destruct ev; auto.
    + destruct (Nat.eqb e e0); auto. rewrite IH. reflexivity.
    + destruct (Nat.eqb e e0); auto.
Qed.

(** The events since the last cleanup of [e]. *)
Fixpoint sinceCleanup (e : eid) (l : list event) : list event :=
  match l with
  | [] => []
  | EvCleanup e' :: r =>
      if Nat.eqb e e' then [] else EvCleanup e' :: sinceCleanup e r
  | ev :: r => ev :: sinceCleanup e r
  end.

Lemma In_tracked (e : eid) (l : list event) (t : addr) (k : key) :
  In (t, k) (tracked e l) <-> In (EvTrack e t k) (sinceCleanup e l).
Proof.
  induction l as [ | ev r IH]; simpl; [ tauto | ].
  destruct ev; simpl; try (rewrite IH; intuition congruence).
  - destruct (Nat.eqb e e0) eqn:Ee.
    + apply Nat.eqb_eq in Ee. subst e0.
      destruct (existsb (pair_eqb (t0, k0)) (tracked e r)) eqn:Ex.
      * rewrite IH. split; [ auto | ].
        intros [H | H]; auto.
        inversion H; subst. apply IH. apply existsb_pair_In. exact Ex.
      * rewrite in_app_iff, IH. simpl. intuition congruence.
    + apply Nat.eqb_neq in Ee. rewrite IH. intuition congruence.
  - destruct (Nat.eqb e e0); simpl; [ tauto | ].
    rewrite IH. intuition congruence.
Qed.

Lemma NoDup_tracked (e : eid) (l : list event) : NoDup (tracked e l).
Proof.
  induction l as [ | ev r IH]; simpl; [ constructor | ].
  destruct ev; auto.
  - destruct (Nat.eqb e e0); auto.
    destruct (existsb (pair_eqb (t, k)) (tracked e r)) eqn:Ex; auto.
    apply NoDup_app; [ exact IH | repeat constructor; simpl; tauto | ].
    intros x Hx [<- | []].
    apply existsb_pair_In in Hx. congruence.
  - destruct (Nat.eqb e e0); auto. constructor.
Qed.

(** ** An effect on the stack is not run again *)


Fixpoint runsOf (e : eid) (l : list event) : nat :=
  match l with
  | [] => 0
  | EvRun e' :: r => (if Nat.eqb e e' then 1 else 0) + runsOf e r
  | _ :: r => runsOf e r
  end.







Lemma prim_runsOf (p : prim) (s : state) (e : eid) :
  runsOf e (log (applyPrim p s)) = runsOf e (log s).
Proof.
  destruct p; simpl; auto.
  - rewrite log_track. destruct (shouldTrack s); auto.
    destruct (activeEffect s); auto.
  - rewrite log_cleanup. reflexivity.
  - rewrite resetTracking_shape. reflexivity.
  - rewrite writeProp_shape. reflexivity.
Qed.




(** ** Scenarios *)

Definition noOptions : ReactiveEffectOptions prog :=
  mkOptions false None None false.

Definition lazyOptions : ReactiveEffectOptions prog :=
  mkOptions true None None false.

(** [o[k]] and [o[k] = v] *)
Definition getP (o : value) (k : string) (cont : value -> prog) : prog :=
  ReflectGet o (KStr k) o cont.

Definition setP (o : value) (k : string) (v : value) (cont : prog) : prog :=
  ReflectSet o (KStr k) v o (fun _ => cont).

(** The final state of a run from the initial state. *)
Definition finalState (n : nat) (p : prog) : state :=
  match exec n p init with
  | Some (_, s) => s
  | None => init
  end.

Definition chronicle (n : nat) (p : prog) : option (outcome value * list event) :=
  match exec n p init with
  | Some (o, s) => Some (o, rev (log s))
  | None => None
  end.

Definition depsOf (s : state) (e : eid) : list (addr * key) :=
  match effectOf s e with
  | Some f => deps f
  | None => []
  end.

(** S4: [flag = ref(true); x = ref(1); y = ref(2);
         E = effect(() => flag.value ? x.value : y.value)] *)
Definition S4_setup (cont : value -> value -> value -> prog) : prog :=
  RefP (VBool true) false (fun flag =>
  RefP (VNum 1) false (fun x =>
  RefP (VNum 2) false (fun y =>
  EffectP
    (getP flag "value" (fun b =>
       if truthy b then getP x "value" Ret else getP y "value" Ret))
    noOptions
    (fun _ => cont flag x y)))).

Definition S4_flip : prog :=
  S4_setup (fun flag x y => setP flag "value" (VBool false) (Ret VUndef)).

Definition S4_write_x : prog :=
  S4_setup (fun flag x y =>
    setP flag "value" (VBool false) (setP x "value" (VNum 99) (Ret VUndef))).

Definition S4_write_y : prog :=
  S4_setup (fun flag x y =>
    setP flag "value" (VBool false) (setP y "value" (VNum 99) (Ret VUndef))).

Example S4_flip_deps :
  depsOf (finalState 20 S4_flip) 0 = [(0, VALUE); (2, VALUE)]
  /\ runsOf 0 (log (finalState 20 S4_flip)) = 2.
Proof. vm_compute. split; reflexivity. Qed.

(** A lazily created effect that reads [o.n] and throws. *)
Definition throwing_setup : prog :=
  NewObject RTObject [(KStr "n", VNum 0)] true (fun x =>
  Wrap false false x (fun o =>
  EffectP (getP o "n" (fun _ => Throw (VStr "boom"))) lazyOptions Ret)).

(** An effect that increments the property it reads. *)
Definition selfWrite (z : Z) : prog :=
  NewObject RTObject [(KStr "n", VNum z)] true (fun x =>
  Wrap false false x (fun o =>
  EffectP
    (getP o "n" (fun v =>
       match v with
       | VNum i => setP o "n" (VNum (i + 1)) (Ret VUndef)
       | _ => Ret VUndef
       end))
    noOptions
    (fun _ => getP o "n" Ret))).

Example selfWrite_0 :
  chronicle 20 (selfWrite 0)
  = Some (Normal (VNum 1),
          [EvCleanup 0; EvRun 0; EvTrack 0 0 (KStr "n");
           EvTrigger (VRef 0) SET (Some (KStr "n"))]).
Proof. vm_compute. reflexivity. Qed.

(** Calls of the tracking switches. *)
Inductive switch : Type := Pause | Enable | Reset.

Definition flip (c : switch) (s : state) : state :=
  match c with
  | Pause => pauseTracking s
  | Enable => enableTracking s
  | Reset => resetTracking s
  end.

Definition flips (cs : list switch) (s : state) : state :=
  fold_left (fun s c => flip c s) cs s.

(** Every [Reset] of [cs] answers an earlier [Pause] or [Enable], and
    none of these is left unanswered, starting at depth [d]. *)
Fixpoint paired (d : nat) (cs : list switch) : bool :=
  match cs with
  | [] => Nat.eqb d 0
  | Pause :: r | Enable :: r => paired (S d) r
  | Reset :: r =>
      match d with
      | O => false
      | S d' => paired d' r
      end
  end.

Lemma paired_trackStack (cs : list switch) :
  forall (d : nat) (s : state) (pre base : list bool),
    paired d cs = true -> trackStack s = pre ++ base ->
    List.length pre = d ->
    trackStack (flips cs s) = base.
Proof.
  induction cs as [ | c r IH]; intros d s pre base Hp Hs Hl; simpl in *.
  - apply Nat.eqb_eq in Hp. subst d.
    destruct pre; [ exact Hs | discriminate ].
  - destruct c.
    + apply (IH (S d) _ (shouldTrack s :: pre) base Hp).
      * simpl. rewrite Hs. reflexivity.
      * simpl. congruence.
    + apply (IH (S d) _ (shouldTrack s :: pre) base Hp).
      * simpl. rewrite Hs. reflexivity.
      * simpl. congruence.
    + destruct d as [ | d']; [ discriminate | ].
      destruct pre as [ | b pre']; [ discriminate | ].
      apply (IH d' _ pre' base Hp).
      * rewrite resetTracking_shape. simpl. rewrite Hs. reflexivity.
      * simpl in Hl. congruence.
Qed.

(** * Properties of the specification *)

(** C10.  [resetTracking] on an empty [trackStack] sets [shouldTrack] to
    true (it neither keeps the flag nor fails); hence a reset that no
    [pauseTracking] or [enableTracking] call answers, coming after any
    sequence of paired calls on an empty stack, leaves tracking enabled. *)
Theorem C10_reset_on_empty_stack :
  forall (s : state) (cs : list switch),
    trackStack s = [] ->
    shouldTrack (resetTracking s) = true
    /\ trackStack (resetTracking s) = []
    /\ (paired 0 cs = true ->
        shouldTrack (resetTracking (flips cs s)) = true).
Proof.
  intros s cs Hs. split; [ | split ].
  - unfold resetTracking. rewrite Hs. reflexivity.
  - unfold resetTracking. rewrite Hs. reflexivity.
  - intros Hp.
    assert (H : trackStack (flips cs s) = []).
    { apply (paired_trackStack cs 0 s [] []); auto. }
    unfold resetTracking. rewrite H. reflexivity.
Qed.

Lemma C10_witness :
  shouldTrack (resetTracking init) = true
  /\ trackStack (resetTracking init) = []
  /\ shouldTrack (resetTracking (flips [Pause; Pause; Reset; Reset] init))
     = true.
Proof.
  destruct (C10_reset_on_empty_stack init [Pause; Pause; Reset; Reset]
              eq_refl) as [H1 [H2 H3]].
  split; [ exact H1 | split; [ exact H2 | apply H3; reflexivity ] ].
Defined.

(** C5.  Edge symmetry: from a state in which the edges are symmetric (and
    the running effects exist), every program -- any sequence of [track],
    [trigger], effect runs, [stop] and the other operations -- ends in a
    state where, for every effect [e] and every Dep (t, k), [e] is a
    member of the Dep if and only if the Dep is in [e.deps].  The initial
    state of the module is such a state. *)
Theorem C5_edge_symmetry :
  forall (n : nat) (p : prog) (s : state) (o : outcome value) (s' : state),
    Inv s -> exec n p s = Some (o, s') ->
    forall e t k,
      In e (depOf s' t k) <->
      (exists f, effectOf s' e = Some f /\ In (t, k) (deps f)).
Proof.
  intros n p s o s' HI H. destruct (exec_Inv n p s o s' HI H) as [Hsym _].
  exact Hsym.
Qed.

Lemma C5_witness :
  In 0 (depOf (finalState 20 S4_write_y) 2 VALUE) <->
  (exists f, effectOf (finalState 20 S4_write_y) 0 = Some f
             /\ In (2, VALUE) (deps f)).
Proof.
  apply (C5_edge_symmetry 20 S4_write_y init (Normal VUndef)
           (finalState 20 S4_write_y) Inv_init).
  vm_compute. reflexivity.
Defined.

(** ** Runs of an effect *)

Lemma reactiveEffect_active (call : prog -> M value) (e : eid)
  (f : ReactiveEffect) (s : state) :
  effectOf s e = Some f -> active f = true ->
  mem e (effectStack s) = false ->
  reactiveEffect call e s =
  match call (raw f) (enter e (cleanup e s)) with
  | None => None
  | Some (o, s') => Some (o, leave s')
  end.
Proof.
  intros Ef Ha Hm. unfold reactiveEffect, bind, gets.
  rewrite Ef, Ha. simpl. rewrite Hm. reflexivity.
Qed.


Lemma sinceCleanup_app (e : eid) (evs old : list event) :
  sinceCleanup e (evs ++ EvCleanup e :: old) = sinceCleanup e evs.
Proof.
  induction evs as [ | ev r IH]; simpl.
  - rewrite Nat.eqb_refl. reflexivity.
  - destruct ev; rewrite IH; reflexivity.
Qed.

Lemma depsOf_follow (s : state) (e : eid) :
  depsFollowLog s -> depsOf s e = tracked e (log s).
Proof.
  intros H. specialize (H e). unfold depsOf.
  destruct (effectOf s e); congruence.
Qed.

Lemma listed_depsOf (s : state) (e : eid) (t : addr) (k : key) :
  listed s e t k <-> In (t, k) (depsOf s e).
Proof.
  unfold listed, depsOf. destruct (effectOf s e) as [f | ].
  - split; [ intros [f0 [H0 Hin]]; inversion H0; subst; exact Hin
           | intros Hin; exists f; auto ].
  - split; [ intros [f0 [H0 _]]; discriminate | intros [] ].
Qed.

Lemma Inv3_finalState (n : nat) (p : prog) : Inv3 (finalState n p).
Proof.
  unfold finalState. destruct (exec n p init) as [[o s] | ] eqn:E.
  - exact (exec_Inv3 n p init o s Inv3_init E).
  - exact Inv3_init.
Qed.

Definition S4_state : state := finalState 20 S4_flip.

Definition noEffect : ReactiveEffect :=
  mkEffect 0 false (Ret VUndef) [] noOptions false.

Definition S4_effect : ReactiveEffect :=
  match effectOf S4_state 0 with Some f => f | None => noEffect end.

Definition S4_rerun : state :=
  match reactiveEffect (exec 10) 0 S4_state with
  | Some (_, s) => s
  | None => init
  end.

(** ** What [trigger] collects *)

(** [e] may be scheduled: it is not the running effect, or it allows
    recursion. *)
Definition schedulable (s : state) (e : eid) : Prop :=
  isActiveEffect s e = false \/ allowsRecurse s e = true.

Lemma In_add (s : state) (d : Dep) :
  forall (acc : list eid) (e : eid),
    In e (add s acc d) <->
    In e acc \/ (In e d /\ schedulable s e).
Proof.
  unfold add, schedulable. induction d as [ | x r IH]; intros acc e; simpl.
  - tauto.
  - rewrite IH.
    destruct (negb (isActiveEffect s x) || allowsRecurse s x) eqn:Eg.
    + assert (Hx : isActiveEffect s x = false \/ allowsRecurse s x = true).
      { apply orb_true_iff in Eg. rewrite negb_true_iff in Eg. exact Eg. }
      destruct (mem x acc) eqn:Em.
      * apply mem_In in Em. intuition (subst; auto).
      * rewrite in_app_iff. simpl. intuition (subst; auto).
    + assert (Hx : ~ (isActiveEffect s x = false \/ allowsRecurse s x = true)).
      { apply orb_false_iff in Eg. rewrite negb_false_iff in Eg.
        destruct Eg as [E1 E2]. intros [H | H]; congruence. }
      intuition (subst; auto; try contradiction).
Qed.

Lemma In_addOpt (s : state) (d : option Dep) (acc : list eid) (e : eid) :
  In e (addOpt s acc d) <->
  In e acc \/ (exists dep, d = Some dep /\ In e dep /\ schedulable s e).
Proof.
  destruct d as [dep | ]; simpl.
  - rewrite In_add. split.
    + intros [H | [H1 H2]]; auto. right. exists dep. auto.
    + intros [H | [dep' [H0 [H1 H2]]]]; auto. inversion H0; subst. auto.
  - split; auto. intros [H | [dep [H0 _]]]; auto. discriminate.
Qed.

Lemma NoDup_add (s : state) (d : Dep) :
  forall acc : list eid, NoDup acc -> NoDup (add s acc d).
Proof.
  unfold add. induction d as [ | x r IH]; intros acc Hacc; simpl; auto.
  apply IH.
  destruct (negb (isActiveEffect s x) || allowsRecurse s x); auto.
  destruct (mem x acc) eqn:Em; auto.
  assert (Hx : ~ In x acc).
  { intros Hin. apply mem_In in Hin. congruence. }
  clear Em IH. induction acc as [ | y acc' IHa]; simpl.
  - constructor; [ intros [] | constructor ].
  - inversion Hacc; subst. constructor.
    + rewrite in_app_iff. simpl. intros [H | [H | []]]; auto.
      subst. apply Hx. left. reflexivity.
    + apply IHa; auto. intros H. apply Hx. right. exact H.
Qed.







Definition throwing_state : state := finalState 20 throwing_setup.

Definition throwing_effect : ReactiveEffect :=
  match effectOf throwing_state 0 with Some f => f | None => noEffect end.

Definition throwing_body_end : state :=
  match exec 10 (raw throwing_effect) (enter 0 (cleanup 0 throwing_state)) with
  | Some (_, s) => s
  | None => init
  end.

(** ** Evaluating reads and writes *)

(** A record or an array: an object the base handlers wrap and that has
    no accessor. *)
Definition plainObj (o : obj) : Prop :=
  match o with
  | OPlain RTObject _ _ | OArray _ _ _ => True
  | _ => False
  end.

Definition notProxy (o : obj) : Prop :=
  match o with
  | OProxy _ _ _ => False
  | _ => True
  end.

Lemma plainObj_notProxy (o : obj) : plainObj o -> notProxy o.
Proof. destruct o; simpl; auto. Qed.

Lemma exec_Ret (n : nat) (v : value) (s : state) :
  exec (S n) (Ret v) s = Some (Normal v, s).
Proof. reflexivity. Qed.

Lemma rawObj_raw (d : nat) (h : list obj) (a : addr) (o : obj) :
  nth_error h a = Some o -> notProxy o -> rawObj d h a = Some (a, o).
Proof.
  intros H Hn. destruct d; simpl; rewrite H; destruct o; simpl in Hn;
    try reflexivity; contradiction.
Qed.

Lemma underlying_raw (s : state) (a : addr) (o : obj) :
  nth_error (heap s) a = Some o -> notProxy o ->
  underlying s (VRef a) = Some (a, o).
Proof. intros H Hn. apply rawObj_raw; assumption. Qed.

Lemma underlying_proxy (s : state) (p t : addr) (ro sh : bool) (o : obj) :
  nth_error (heap s) p = Some (OProxy t ro sh) ->
  nth_error (heap s) t = Some o -> notProxy o ->
  underlying s (VRef p) = Some (t, o).
Proof.
  intros Hp Ht Hn. unfold underlying.
  destruct (List.length (heap s)) as [ | d] eqn:El.
  - apply length_zero_iff_nil in El. rewrite El in Hp.
    destruct p; discriminate.
  - simpl. rewrite Hp. apply rawObj_raw; assumption.
Qed.

Lemma toRawType_plain (s : state) (a : addr) (o : obj) :
  nth_error (heap s) a = Some o -> plainObj o ->
  targetTypeMap (toRawType s (VRef a)) = COMMON.
Proof.
  intros H Hp. unfold toRawType.
  rewrite (underlying_raw s a o H (plainObj_notProxy o Hp)).
  destruct o as [rt | | | | ]; simpl in Hp; try contradiction; auto.
  destruct rt; try contradiction; reflexivity.
Qed.

Lemma reflectGet_plain (call : prog -> M value) (a : addr) (o : obj)
  (k : key) (r : value) (s : state) :
  nth_error (heap s) a = Some o -> plainObj o ->
  reflectGet call (VRef a) k r s = Some (Normal (ordinaryGet a o k), s).
Proof.
  intros H Hp. unfold reflectGet, bind, gets. rewrite H.
  destruct o as [rt | | | | ]; simpl in Hp; try contradiction; reflexivity.
Qed.

Lemma exec_get_plain (n : nat) (a : addr) (o : obj) (k : key) (r : value)
  (s : state) :
  nth_error (heap s) a = Some o -> plainObj o ->
  exec (S (S n)) (ReflectGet (VRef a) k r Ret) s
  = Some (Normal (ordinaryGet a o k), s).
Proof.
  intros H Hp. change (exec (S (S n)) (ReflectGet (VRef a) k r Ret))
    with (bind (reflectGet (exec (S n)) (VRef a) k r)
            (fun v => exec (S n) (Ret v))).
  unfold bind. rewrite (reflectGet_plain _ a o k r s H Hp). reflexivity.
Qed.

Lemma isRef_nonobject (s : state) (v : value) :
  isObject v = false -> isRef s v = false.
Proof.
  intros H. unfold isRef, peek. destruct v; simpl in *; try discriminate;
    try reflexivity; rewrite andb_false_r; reflexivity.
Qed.

(** A read through a read-only proxy of a record or array, of a property
    that does not hold an object, changes nothing. *)
Lemma readonly_read_pure (n : nat) (s : state) (r x : addr) (o : obj)
  (sh : bool) (k : key) :
  nth_error (heap s) r = Some (OProxy x true sh) ->
  nth_error (heap s) x = Some o -> plainObj o ->
  isObject (ordinaryGet x o k) = false ->
  exists v,
    exec (S (S (S n))) (ReflectGet (VRef r) k (VRef r) Ret) s
    = Some (Normal v, s).
Proof.
  intros Hr Hx Hp Hobj.
  change (exec (S (S (S n))) (ReflectGet (VRef r) k (VRef r) Ret))
    with (bind (reflectGet (exec (S (S n))) (VRef r) k (VRef r))
            (fun v => exec (S (S n)) (Ret v))).
  assert (Hg : exists v,
             reflectGet (exec (S (S n))) (VRef r) k (VRef r) s
             = Some (Normal v, s)).
  { unfold reflectGet, bind, gets. rewrite Hr.
    rewrite (toRawType_plain s x o Hx Hp).
    unfold createGetter.
    destruct (key_eqb k IS_REACTIVE); [ eexists; reflexivity | ].
    destruct (key_eqb k IS_READONLY); [ eexists; reflexivity | ].
    unfold bind, gets.
    destruct (key_eqb k RAW
              && strictEq (VRef r) (registeredProxy true sh s (VRef x)));
      [ eexists; reflexivity | ].
    cbn [negb andb].
    rewrite (exec_get_plain n x o k (VRef r) s Hx Hp).
    destruct (if isSymbol k then builtInSymbols_has k
              else isNonTrackableKeys k); [ eexists; reflexivity | ].
    cbn [ret].
    destruct sh; [ eexists; reflexivity | ].
    rewrite (isRef_nonobject s _ Hobj), Hobj. eexists; reflexivity. }
  destruct Hg as [v Hv]. exists v. unfold bind. rewrite Hv. reflexivity.
Qed.

(** [x = {a: 1}; p = reactive(x); r = readonly(p);
     E = effect(() => r.a)], and then [p.a = 2]. *)
Definition layered_setup (cont : value -> value -> prog) : prog :=
  NewObject RTObject [(KStr "a", VNum 1)] true (fun x =>
  Wrap false false x (fun p =>
  Wrap true false p (fun r =>
  EffectP (getP r "a" Ret) noOptions (fun _ => cont p r)))).

Definition layered_read : prog := layered_setup (fun _ _ => Ret VUndef).

Definition layered_write : prog :=
  layered_setup (fun p _ => setP p "a" (VNum 2) (Ret VUndef)).

(** [x = {a: 1}; r = readonly(x); E = effect(() => r.a)] *)
Definition readonly_read : prog :=
  NewObject RTObject [(KStr "a", VNum 1)] true (fun x =>
  Wrap true false x (fun r =>
  EffectP (getP r "a" Ret) noOptions (fun _ => Ret r))).

(** ** Writes through a mutable proxy *)

Lemma underlying_Some (s : state) (v : value) (c : addr) (oc : obj) :
  underlying s v = Some (c, oc) -> nth_error (heap s) c = Some oc.
Proof.
  unfold underlying. destruct v; try discriminate.
  generalize (List.length (heap s)). intros d. revert a.
  induction d as [ | d IH]; intros a H; simpl in H.
  - destruct (nth_error (heap s) a) as [o | ] eqn:E; try discriminate.
    destruct o; inversion H; subst; exact E.
  - destruct (nth_error (heap s) a) as [o | ] eqn:E; try discriminate.
    destruct o; try (inversion H; subst; exact E).
    apply (IH target H).
Qed.

(** The outcome of the native assignment. *)
Definition writeResult (oc : obj) (k : key) (v : value) : outcome value :=
  match ordinaryWrite oc k v with
  | SetOk _ => Normal (VBool true)
  | SetFail => Normal (VBool false)
  | SetThrow x => Thrown x
  end.

Lemma ordinarySet_eval (k : key) (v : value) (receiver : value) (s : state)
  (c : addr) (oc : obj) :
  underlying s receiver = Some (c, oc) ->
  ordinarySet k v receiver s = Some (writeResult oc k v, writeProp c k v s).
Proof.
  intros Hu. unfold ordinarySet, bind, gets, writeResult. rewrite Hu.
  pose proof (underlying_Some s receiver c oc Hu) as Hn.
  destruct (ordinaryWrite oc k v) eqn:Ew;
    unfold perform, applyPrim, ret, throw, writeProp; rewrite Hn, Ew;
    reflexivity.
Qed.

Lemma reflectSet_plain (call : prog -> M value) (t : addr) (o : obj)
  (k : key) (v : value) (r : value) (s : state) :
  nth_error (heap s) t = Some o -> plainObj o ->
  reflectSet call (VRef t) k v r s = ordinarySet k v r s.
Proof.
  intros H Hp. unfold reflectSet, bind, gets. rewrite H.
  destruct o as [rt | | | | ]; simpl in Hp; try contradiction; reflexivity.
Qed.

(** The value the setter stores, and the old value it compares with. *)
Definition setterValue (shallow : bool) (s : state) (v : value) : value :=
  if negb shallow then toRaw s v else v.

(** [hadKey] *)
Definition hadKeyOf (s : state) (t : addr) (k : key) : option bool :=
  if isArray s (VRef t) then
    match isIntegerKey k with
    | Some true => Some (jsnum_lt (keyNumber k) (lengthOf s (VRef t)))
    | Some false => Some (hasOwn s (VRef t) k)
    | None => None
    end
  else Some (hasOwn s (VRef t) k).

Lemma hadKey_eval (t : addr) (k : key) (s : state) :
  (if isArray s (VRef t) then
     match isIntegerKey k with
     | Some true =>
         gets (fun s => jsnum_lt (keyNumber k) (lengthOf s (VRef t)))
     | Some false => gets (fun s => hasOwn s (VRef t) k)
     | None => throw NotModelled
     end
   else gets (fun s => hasOwn s (VRef t) k)) s
  = Some (match hadKeyOf s t k with
          | Some b => Normal b
          | None => Thrown NotModelled
          end, s).
Proof.
  unfold hadKeyOf. destruct (isArray s (VRef t)); [ | reflexivity ].
  destruct (isIntegerKey k) as [[ | ] | ]; reflexivity.
Qed.

Lemma hasChanged_same (v : value) : hasChanged v v = false.
Proof.
  unfold hasChanged. destruct (strictEq v v); reflexivity.
Qed.

Lemma strictEq_eq (a b : value) : strictEq a b = true -> a = b.
Proof.
  destruct a, b; simpl; intros H; try discriminate; try reflexivity.
  - apply Bool.eqb_prop in H. congruence.
  - apply Z.eqb_eq in H. congruence.
  - apply String.eqb_eq in H. congruence.
  - apply Nat.eqb_eq in H. congruence.
  - apply Nat.eqb_eq in H. congruence.
  - apply String.eqb_eq in H. congruence.
  - apply Nat.eqb_eq in H. congruence.
Qed.

(** Equal under the NaN-aware comparison: the same value. *)
Lemma hasChanged_false (a b : value) : hasChanged a b = false -> a = b.
Proof.
  unfold hasChanged. intros H. apply andb_false_iff in H.
  destruct H as [H | H].
  - apply negb_false_iff in H. apply strictEq_eq. exact H.
  - apply orb_false_iff in H. destruct H as [Ha Hb].
    destruct a; simpl in Ha; try discriminate;
      try (rewrite ?Bool.eqb_reflx, ?Z.eqb_refl, ?String.eqb_refl,
             ?Nat.eqb_refl in Ha; discriminate).
    destruct b; simpl in Hb; try discriminate;
      try (rewrite ?Bool.eqb_reflx, ?Z.eqb_refl, ?String.eqb_refl,
             ?Nat.eqb_refl in Hb; discriminate).
    reflexivity.
Qed.

(** The set handler of a mutable proxy calls [trigger] neither when the
    receiver is not the canonical proxy nor when the key existed and the
    value did not change: the native assignment is all that happens.
    ([hadKey] is computed before the assignment in both cases.) *)
Lemma createSetter_quiet (n : nat) (s : state) (p t : addr) (o : obj)
  (sh : bool) (k : key) (v receiver : value) (c : addr) (oc : obj) :
  nth_error (heap s) p = Some (OProxy t false sh) ->
  nth_error (heap s) t = Some o -> plainObj o ->
  underlying s receiver = Some (c, oc) ->
  (negb sh && negb (isArray s (VRef t))
   && isRef s (setterValue sh s (ordinaryGet t o k))
   && negb (isRef s (setterValue sh s v))) = false ->
  (exists hk, hadKeyOf s t k = Some hk
     /\ (strictEq (VRef t)
          (toRaw (writeProp c k (setterValue sh s v) s) receiver) = false
         \/ (hk = true
             /\ hasChanged (setterValue sh s v)
                  (setterValue sh s (ordinaryGet t o k)) = false))) ->
  exec (S (S (S n))) (ReflectSet (VRef p) k v receiver Ret) s
  = Some (writeResult oc k (setterValue sh s v),
          writeProp c k (setterValue sh s v) s).
Proof.
  intros Hp Ht Hpl Hu Hdel [hk [Hhk Hq]].
  change (exec (S (S (S n))) (ReflectSet (VRef p) k v receiver Ret))
    with (bind (reflectSet (exec (S (S n))) (VRef p) k v receiver)
            (fun b => exec (S (S n)) (Ret b))).
  assert (Hs : reflectSet (exec (S (S n))) (VRef p) k v receiver s
               = Some (writeResult oc k (setterValue sh s v),
                       writeProp c k (setterValue sh s v) s)).
  { unfold reflectSet at 1. unfold bind at 1. unfold gets at 1. rewrite Hp.
    unfold bind at 1. unfold gets at 1.
    rewrite (toRawType_plain s t o Ht Hpl).
    unfold createSetter. unfold bind at 1.
    rewrite (exec_get_plain n t o k (VRef t) s Ht Hpl).
    unfold bind at 1. unfold gets at 1.
    unfold bind at 1. unfold gets at 1.
    unfold bind at 1. unfold gets at 1.
    fold (setterValue sh s v). fold (setterValue sh s (ordinaryGet t o k)).
    rewrite Hdel.
    unfold bind at 1. unfold gets at 1.
    unfold bind at 1. rewrite hadKey_eval, Hhk.
    unfold bind at 1.
    change (exec (S (S n))
              (ReflectSet (VRef t) k (setterValue sh s v) receiver Ret))
      with (bind (reflectSet (exec (S n)) (VRef t) k (setterValue sh s v)
                    receiver)
              (fun b => exec (S n) (Ret b))).
    unfold bind at 1.
    rewrite (reflectSet_plain _ t o k _ receiver s Ht Hpl).
    rewrite (ordinarySet_eval k _ receiver s c oc Hu).
    unfold writeResult.
    destruct (ordinaryWrite oc k (setterValue sh s v)) eqn:Ew;
      try reflexivity.
    - rewrite exec_Ret. unfold bind at 1. unfold gets at 1.
      destruct Hq as [Hq | [Hk Hc]].
      + rewrite Hq. reflexivity.
      + subst hk. rewrite Hc. cbn [negb].
        destruct (strictEq (VRef t)
                    (toRaw (writeProp c k (setterValue sh s v) s) receiver));
          reflexivity.
    - rewrite exec_Ret. unfold bind at 1. unfold gets at 1.
      destruct Hq as [Hq | [Hk Hc]].
      + rewrite Hq. reflexivity.
      + subst hk. rewrite Hc. cbn [negb].
        destruct (strictEq (VRef t)
                    (toRaw (writeProp c k (setterValue sh s v) s) receiver));
          reflexivity. }
  unfold bind. rewrite Hs.
  destruct (writeResult oc k (setterValue sh s v)); reflexivity.
Qed.

(** [o = reactive({a: v0}); E = effect(() => o.a); o.a = v1] *)
Definition write_scenario (v0 v1 : value) : prog :=
  NewObject RTObject [(KStr "a", v0)] true (fun x =>
  Wrap false false x (fun o =>
  EffectP (getP o "a" Ret) noOptions (fun _ =>
  setP o "a" v1 (Ret VUndef)))).

(** [x = {a: 1}; p = reactive(x); child = {}] *)
Definition child_setup : prog :=
  NewObject RTObject [(KStr "a", VNum 1)] true (fun x =>
  Wrap false false x (fun p =>
  NewObject RTObject [] true Ret)).

Definition child_state : state := finalState 20 child_setup.

Definition record_a1 : obj := OPlain RTObject [(KStr "a", VNum 1)] true.

(** ** Wrapping *)

(** Every entry of a proxy map names a proxy of that target and flavor. *)
Definition wfMaps (s : state) : Prop :=
  forall ro sh t p,
    alookup Nat.eqb t (proxyMapOf ro sh s) = Some p ->
    nth_error (heap s) p = Some (OProxy t ro sh).

Definition reserved : list key := [SKIP; IS_REACTIVE; IS_READONLY; RAW].

(** An eligible target: a record, an array or a container of a
    whitelisted type that is extensible and defines none of the reserved
    keys (so it is neither marked [skip] nor taken for a proxy). *)
Definition eligible (o : obj) : Prop :=
  match o with
  | OPlain rt ps true =>
      targetTypeMap rt <> INVALID
      /\ forall k, In k reserved -> alookup key_eqb k ps = None
  | OArray _ ps true =>
      forall k, In k reserved -> alookup key_eqb k ps = None
  | _ => False
  end.

(** A value that is not a proxy and does not define the reserved key
    [RAW]. *)
Definition nonProxy (s : state) (v : value) : Prop :=
  forall a, v = VRef a ->
    exists o, nth_error (heap s) a = Some o /\ notProxy o
              /\ getOwn a o RAW = None.

Lemma wfMaps_init : wfMaps init.
Proof. intros ro sh t p H. destruct ro, sh; discriminate. Qed.

Lemma wfMaps_ext (s s' : state) :
  heap s' = heap s -> reactiveMap s' = reactiveMap s ->
  shallowReactiveMap s' = shallowReactiveMap s ->
  readonlyMap s' = readonlyMap s ->
  shallowReadonlyMap s' = shallowReadonlyMap s ->
  wfMaps s -> wfMaps s'.
Proof.
  intros Hh H1 H2 H3 H4 Hw ro sh t p H. rewrite Hh. apply Hw.
  unfold proxyMapOf in *. rewrite H1, H2, H3, H4 in H. exact H.
Qed.

Lemma wfMaps_newProxy (t : addr) (ro1 sh1 : bool) (s : state) :
  wfMaps s -> wfMaps (newProxy t ro1 sh1 s).
Proof.
  intros Hw ro sh t0 p H. unfold newProxy, register, heapAlloc in *.
  simpl in *.
  assert (Hold : forall q, nth_error (heap s) q = Some (OProxy t0 ro sh) ->
                           nth_error (heap s ++ [OProxy t ro1 sh1]) q
                           = Some (OProxy t0 ro sh)).
  { intros q Hq. rewrite nth_error_app1; [ exact Hq | ].
    apply nth_error_Some. congruence. }
  assert (Hnew : forall m,
             alookup Nat.eqb t0 (aset Nat.eqb t (List.length (heap s)) m)
             = Some p ->
             (t0 = t /\ p = List.length (heap s))
             \/ alookup Nat.eqb t0 m = Some p).
  { intros m Hm. destruct (Nat.eq_dec t t0) as [-> | Hne].
    - rewrite (alookup_aset_same _ _ Nat.eqb Nat.eqb_eq) in Hm.
      inversion Hm. left. auto.
    - rewrite (alookup_aset_other _ _ Nat.eqb Nat.eqb_eq) in Hm by exact Hne.
      right. exact Hm. }
  assert (Hfresh : nth_error (heap s ++ [OProxy t ro1 sh1])
                     (List.length (heap s))
                   = Some (OProxy t ro1 sh1)).
  { rewrite nth_error_app2 by apply Nat.le_refl.
    rewrite Nat.sub_diag. reflexivity. }
  destruct ro1, sh1, ro, sh; simpl in H;
    try (apply Hold; apply Hw; exact H);
    (destruct (Hnew _ H) as [[-> ->] | H'];
     [ exact Hfresh | apply Hold; apply Hw; exact H' ]).
Qed.

Lemma wfMaps_prim (p : prim) (s : state) : wfMaps s -> wfMaps (applyPrim p s).
Proof.
  intros Hw. destruct p; simpl.
  - rewrite track_shape. revert Hw. apply wfMaps_ext; reflexivity.
  - rewrite cleanup_shape. revert Hw. apply wfMaps_ext; reflexivity.
  - revert Hw. apply wfMaps_ext; reflexivity.
  - revert Hw. apply wfMaps_ext; reflexivity.
  - revert Hw. apply wfMaps_ext; reflexivity.
  - rewrite resetTracking_shape. revert Hw. apply wfMaps_ext; reflexivity.
  - intros ro sh t p H. specialize (Hw ro sh t p H). simpl.
    rewrite nth_error_app1; [ exact Hw | ].
    apply nth_error_Some. congruence.
  - unfold writeProp. destruct (nth_error (heap s) a) as [oa | ] eqn:Ea; auto.
    destruct (ordinaryWrite oa k v) as [o' | | ] eqn:Ew; auto.
    intros ro sh t p H. specialize (Hw ro sh t p H). simpl.
    rewrite nth_error_update_nth.
    destruct (Nat.eqb a p) eqn:Eap; [ | exact Hw ].
    apply Nat.eqb_eq in Eap. subst p. rewrite Hw in Ea. inversion Ea; subst oa.
    simpl in Ew. discriminate.
  - apply wfMaps_newProxy. exact Hw.
  - revert Hw. apply wfMaps_ext; reflexivity.
  - revert Hw. apply wfMaps_ext; reflexivity.
  - revert Hw. apply wfMaps_ext; reflexivity.
Qed.

Lemma wfMaps_closed : closed (fun s s' => wfMaps s -> wfMaps s').
Proof.
  apply closed_invariant.
  - apply wfMaps_prim.
  - intros e s. apply wfMaps_ext; reflexivity.
  - intros e s _. apply wfMaps_ext; reflexivity.
  - intros s. rewrite leave_shape, resetTracking_shape.
    apply wfMaps_ext; reflexivity.
Qed.

(** The proxy maps of every state a program reaches are well formed. *)
Lemma exec_wfMaps (n : nat) (p : prog) (s : state) (o : outcome value)
  (s' : state) :
  wfMaps s -> exec n p s = Some (o, s') -> wfMaps s'.
Proof. intros HI H. exact (@exec_rel _ wfMaps_closed n p s o s' H HI). Qed.

Lemma toRaw_fuel_falsy (d : nat) (s : state) (v : value) :
  truthy v = false -> toRaw_fuel d s v = v.
Proof. intros H. destruct d; simpl; [ | rewrite H ]; reflexivity. Qed.

Lemma peek_raw_object (s : state) (a : addr) (o : obj) (k : key) :
  nth_error (heap s) a = Some o -> notProxy o ->
  peek s (VRef a) k = match getOwn a o k with Some x => x | None => VUndef end.
Proof.
  intros H Hn. unfold peek. rewrite H.
  destruct o; simpl in Hn; try contradiction; reflexivity.
Qed.

Lemma toRaw_nonProxy (s : state) (v : value) : nonProxy s v -> toRaw s v = v.
Proof.
  intros Hn. unfold toRaw. simpl.
  destruct (truthy v) eqn:Et; [ | reflexivity ].
  assert (Hp : peek s v RAW = VUndef).
  { destruct v; try reflexivity.
    destruct (Hn a eq_refl) as [o [Ho [Hnp Hg]]].
    rewrite (peek_raw_object s a o RAW Ho Hnp), Hg. reflexivity. }
  rewrite Hp, toRaw_fuel_falsy by reflexivity. reflexivity.
Qed.

Lemma peek_proxy_raw (s : state) (p t : addr) (ro sh : bool) :
  nth_error (heap s) p = Some (OProxy t ro sh) ->
  alookup Nat.eqb t (proxyMapOf ro sh s) = Some p ->
  peek s (VRef p) RAW = VRef t.
Proof.
  intros Hp Hm. unfold peek. rewrite Hp.
  change (key_eqb RAW IS_REACTIVE) with false.
  change (key_eqb RAW IS_READONLY) with false.
  change (key_eqb RAW RAW) with true.
  rewrite Hm. simpl. rewrite Nat.eqb_refl. reflexivity.
Qed.

Lemma toRaw_proxy (s : state) (p t : addr) (ro sh : bool) :
  nth_error (heap s) p = Some (OProxy t ro sh) ->
  alookup Nat.eqb t (proxyMapOf ro sh s) = Some p ->
  nonProxy s (VRef t) ->
  toRaw s (VRef p) = VRef t.
Proof.
  intros Hp Hm Hn. unfold toRaw.
  destruct (List.length (heap s)) as [ | d] eqn:El.
  { apply length_zero_iff_nil in El. rewrite El in Hp.
    destruct p; discriminate. }
  cbn [toRaw_fuel truthy]. rewrite (peek_proxy_raw s p t ro sh Hp Hm).
  cbn [toRaw_fuel truthy].
  destruct (Hn t eq_refl) as [o [Ho [Hnp Hg]]].
  rewrite (peek_raw_object s t o RAW Ho Hnp), Hg.
  rewrite toRaw_fuel_falsy by reflexivity. reflexivity.
Qed.


Definition ordinaryObj (o : obj) : Prop :=
  match o with
  | OPlain _ _ _ | OArray _ _ _ => True
  | _ => False
  end.

Lemma reflectGet_ordinary (call : prog -> M value) (a : addr) (o : obj)
  (k : key) (r : value) (s : state) :
  nth_error (heap s) a = Some o -> ordinaryObj o ->
  reflectGet call (VRef a) k r s = Some (Normal (ordinaryGet a o k), s).
Proof.
  intros H Hp. unfold reflectGet, bind, gets. rewrite H.
  destruct o; simpl in Hp; try contradiction; reflexivity.
Qed.

Lemma exec_get_ordinary (n : nat) (a : addr) (o : obj) (k : key) (r : value)
  (s : state) :
  nth_error (heap s) a = Some o -> ordinaryObj o ->
  exec (S (S n)) (ReflectGet (VRef a) k r Ret) s
  = Some (Normal (ordinaryGet a o k), s).
Proof.
  intros H Hp. change (exec (S (S n)) (ReflectGet (VRef a) k r Ret))
    with (bind (reflectGet (exec (S n)) (VRef a) k r)
            (fun v => exec (S n) (Ret v))).
  unfold bind. rewrite (reflectGet_ordinary _ a o k r s H Hp). reflexivity.
Qed.

Lemma eligible_facts (t : addr) (o : obj) :
  eligible o ->
  ordinaryObj o /\ notProxy o
  /\ (forall k, In k reserved -> getOwn t o k = None)
  /\ ordinaryGet t o SKIP = VUndef.
Proof.
  intros He.
  assert (Hg : forall k, In k reserved -> getOwn t o k = None).
  { destruct o as [rt ps [ | ] | el ps [ | ] | | | ]; simpl in He;
      try contradiction.
    - destruct He as [_ He]. intros k Hk. simpl. apply He. exact Hk.
    - intros k Hk. simpl in Hk.
      destruct Hk as [<- | [<- | [<- | [<- | []]]]]; simpl;
        apply He; simpl; auto. }
  destruct o as [rt ps [ | ] | el ps [ | ] | | | ]; simpl in He;
    try contradiction; (split; [ exact I | split; [ exact I | ] ]);
    (split; [ exact Hg | ]); unfold ordinaryGet;
    rewrite (Hg SKIP) by (simpl; auto); reflexivity.
Qed.

Lemma eligible_type (s : state) (t : addr) (o : obj) :
  nth_error (heap s) t = Some o -> eligible o ->
  isExtensible s (VRef t) = true
  /\ targetTypeMap (toRawType s (VRef t)) <> INVALID.
Proof.
  intros Ht He. destruct (eligible_facts t o He) as [_ [Hn _]].
  unfold isExtensible, toRawType. rewrite (underlying_raw s t o Ht Hn).
  destruct o as [rt ps [ | ] | el ps [ | ] | | | ]; simpl in He;
    try contradiction.
  - split; [ reflexivity | exact (proj1 He) ].
  - split; [ reflexivity | discriminate ].
Qed.

Lemma registered_newProxy (t : addr) (ro sh : bool) (s : state) :
  alookup Nat.eqb t (proxyMapOf ro sh (newProxy t ro sh s))
  = Some (List.length (heap s)).
Proof.
  unfold newProxy, register, proxyMapOf.
  destruct ro, sh; simpl; apply (alookup_aset_same _ _ Nat.eqb Nat.eqb_eq).
Qed.

Lemma heap_newProxy (t : addr) (ro sh : bool) (s : state) :
  heap (newProxy t ro sh s) = heap s ++ [OProxy t ro sh].
Proof. reflexivity. Qed.

(** Wrapping an eligible target gives its proxy of that flavor: the one
    in the proxy map, or a new one. *)
Lemma wrap_eligible (n : nat) (s : state) (t : addr) (o : obj)
  (ro sh : bool) :
  wfMaps s -> nth_error (heap s) t = Some o -> eligible o ->
  exists p s1,
    wrap (exec (S (S n))) ro sh (VRef t) s = Some (Normal (VRef p), s1)
    /\ nth_error (heap s1) p = Some (OProxy t ro sh)
    /\ alookup Nat.eqb t (proxyMapOf ro sh s1) = Some p
    /\ nth_error (heap s1) t = Some o.
Proof.
  intros Hw Ht He.
  destruct (eligible_facts t o He) as [Ho [Hn [Hg Hskip]]].
  destruct (eligible_type s t o Ht He) as [Hext Hty].
  assert (Hpk : forall k, In k reserved -> peek s (VRef t) k = VUndef).
  { intros k Hk. rewrite (peek_raw_object s t o k Ht Hn), (Hg k Hk).
    reflexivity. }
  assert (Hc : exists p s1,
             createReactiveObject (exec (S (S n))) (VRef t) ro sh s
             = Some (Normal (VRef p), s1)
             /\ nth_error (heap s1) p = Some (OProxy t ro sh)
             /\ alookup Nat.eqb t (proxyMapOf ro sh s1) = Some p
             /\ nth_error (heap s1) t = Some o).
  { unfold createReactiveObject, bind, gets. cbn [isObject negb].
    rewrite (Hpk RAW) by (simpl; auto). cbn [truthy andb].
    unfold existingProxy.
    destruct (alookup Nat.eqb t (proxyMapOf ro sh s)) as [p | ] eqn:Ex.
    - exists p, s. split; [ reflexivity | ].
      split; [ apply (Hw ro sh t p Ex) | ]. split; [ exact Ex | exact Ht ].
    - exists (List.length (heap s)), (newProxy t ro sh s).
      split.
      + unfold getTargetType, bind, gets.
        rewrite (exec_get_ordinary n t o SKIP (VRef t) s Ht Ho), Hskip, Hext.
        cbn [truthy orb negb].
        destruct (targetTypeMap (toRawType s (VRef t))); try reflexivity.
        contradiction.
      + split; [ | split ].
        * rewrite heap_newProxy, nth_error_app2 by apply Nat.le_refl.
          rewrite Nat.sub_diag. reflexivity.
        * apply registered_newProxy.
        * rewrite heap_newProxy, nth_error_app1; [ exact Ht | ].
          apply nth_error_Some. congruence. }
  unfold wrap, reactive, shallowReactive, readonly, shallowReadonly.
  destruct ro, sh; try exact Hc.
  unfold bind, gets. rewrite (Hpk IS_READONLY) by (simpl; auto).
  cbn [truthy andb]. exact Hc.
Qed.



Lemma wfMaps_finalState (n : nat) (p : prog) : wfMaps (finalState n p).
Proof.
  unfold finalState. destruct (exec n p init) as [[o s] | ] eqn:E.
  - exact (exec_wfMaps n p init o s wfMaps_init E).
  - exact wfMaps_init.
Qed.

Definition one_record : state :=
  finalState 5 (NewObject RTObject [(KStr "a", VNum 1)] true Ret).


(** ** Computed values *)

(** The object at [c] is the computed built on effect [e]. *)
Definition computedAt (s : state) (c : addr) (e : eid)
  (st : option (value -> prog)) (ro : bool) : Prop :=
  exists val d extra,
    nth_error (heap s) c = Some (OComputed val d e st ro extra).

Lemma computedAt_ext (s s' : state) c e st ro :
  heap s' = heap s -> computedAt s c e st ro -> computedAt s' c e st ro.
Proof. intros Hh [val [d [x H]]]. exists val, d, x. rewrite Hh. exact H. Qed.

Lemma computedAt_append (s : state) (o : obj) c e st ro :
  computedAt s c e st ro ->
  exists val d extra,
    nth_error (heap s ++ [o]) c = Some (OComputed val d e st ro extra).
Proof.
  intros [val [d [x H]]]. exists val, d, x.
  rewrite nth_error_app1; [ exact H | ]. apply nth_error_Some. congruence.
Qed.

Lemma computedAt_writeProp (s : state) (a : addr) (k : key) (v : value)
  c e st ro :
  computedAt s c e st ro -> computedAt (writeProp a k v s) c e st ro.
Proof.
  intros [val [d [x H]]]. unfold writeProp.
  destruct (nth_error (heap s) a) as [oa | ] eqn:Ea;
    [ | exists val, d, x; exact H ].
  destruct (ordinaryWrite oa k v) as [o' | | ] eqn:Ew;
    try (exists val, d, x; exact H).
  unfold computedAt. simpl. rewrite nth_error_update_nth.
  destruct (Nat.eqb a c) eqn:Eac; [ | exists val, d, x; exact H ].
  apply Nat.eqb_eq in Eac. subst a. rewrite H in Ea. inversion Ea; subst oa.
  rewrite H. simpl in Ew. simpl.
  destruct (key_eqb k (KStr "_value")); [ inversion Ew; eauto | ].
  destruct (key_eqb k (KStr "_dirty")); inversion Ew; eauto.
Qed.

Lemma computedAt_closed c e st ro :
  closed (fun s s' => computedAt s c e st ro -> computedAt s' c e st ro).
Proof.
  apply closed_invariant.
  - intros p s H.
    destruct p as [ | | | | | | | | t1 ro1 sh1 | | | ]; simpl;
      try (revert H; apply computedAt_ext; reflexivity).
    + rewrite track_shape. revert H. apply computedAt_ext; reflexivity.
    + rewrite cleanup_shape. revert H. apply computedAt_ext; reflexivity.
    + rewrite resetTracking_shape. revert H.
      apply computedAt_ext; reflexivity.
    + apply computedAt_append. exact H.
    + apply computedAt_writeProp. exact H.
    + apply (computedAt_append s (OProxy t1 ro1 sh1)). exact H.
  - intros e0 s. apply computedAt_ext; reflexivity.
  - intros e0 s _. apply computedAt_ext; reflexivity.
  - intros s. rewrite leave_shape, resetTracking_shape.
    apply computedAt_ext; reflexivity.
Qed.

Lemma exec_computedAt (n : nat) (p : prog) (s : state) (o : outcome value)
  (s' : state) c e st ro :
  computedAt s c e st ro -> exec n p s = Some (o, s') ->
  computedAt s' c e st ro.
Proof.
  intros HI H. exact (@exec_rel _ (computedAt_closed c e st ro) n p s o s' H HI).
Qed.

Lemma peek_track (t : addr) (ty : TrackOpTypes) (k : key) (s : state)
  (v : value) (k' : key) :
  peek (track t ty k s) v k' = peek s v k'.
Proof. rewrite track_shape. reflexivity. Qed.

Lemma toRaw_computed (s : state) (c : addr) val d e st ro extra :
  nth_error (heap s) c = Some (OComputed val d e st ro extra) ->
  alookup key_eqb RAW extra = None ->
  toRaw s (VRef c) = VRef c.
Proof.
  intros H Hx. apply toRaw_nonProxy. intros a Ha. inversion Ha; subst a.
  eexists. split; [ exact H | ]. split; [ exact I | exact Hx ].
Qed.

Lemma writeProp_value (s : state) (c : addr) (v : value) val d e st ro extra :
  nth_error (heap s) c = Some (OComputed val d e st ro extra) ->
  nth_error (heap (writeProp c (KStr "_value") v s)) c
  = Some (OComputed v d e st ro extra).
Proof.
  intros H. unfold writeProp. rewrite H. simpl.
  rewrite nth_error_update_nth, Nat.eqb_refl, H. reflexivity.
Qed.

Lemma writeProp_dirty (s : state) (c : addr) (b : bool) val d e st ro extra :
  nth_error (heap s) c = Some (OComputed val d e st ro extra) ->
  nth_error (heap (writeProp c (KStr "_dirty") (VBool b) s)) c
  = Some (OComputed val b e st ro extra).
Proof.
  intros H. unfold writeProp. rewrite H. simpl.
  rewrite nth_error_update_nth, Nat.eqb_refl, H. reflexivity.
Qed.

(** A read of a computed that is not dirty returns the cached value
    and only tracks the computed itself. *)
Lemma computed_read_cached (call : prog -> M value) (s : state) (c : addr)
  val e st ro extra :
  nth_error (heap s) c = Some (OComputed val false e st ro extra) ->
  alookup key_eqb RAW extra = None ->
  reflectGet call (VRef c) VALUE (VRef c) s
  = Some (Normal val, track c GET VALUE s).
Proof.
  intros H Hx. unfold reflectGet, bind, gets. rewrite H.
  change (key_eqb VALUE VALUE) with true. cbn iota.
  unfold computedGet, bind, gets.
  rewrite (toRaw_computed s c _ _ _ _ _ _ H Hx).
  rewrite (peek_raw_object s c _ (KStr "_dirty") H I).
  cbn [getOwn key_eqb String.eqb Ascii.eqb Bool.eqb truthy trackV perform
       applyPrim ret].
  rewrite peek_track, (peek_raw_object s c _ (KStr "_value") H I).
  reflexivity.
Qed.

(** A read of a computed that returns leaves it clean, with the value
    returned in the cache. *)
Lemma computed_read_clean (n : nat) (s : state) (c : addr) val d e st ro extra
  (v : value) (s' : state) :
  nth_error (heap s) c = Some (OComputed val d e st ro extra) ->
  alookup key_eqb RAW extra = None ->
  exec (S n) (ReflectGet (VRef c) VALUE (VRef c) Ret) s = Some (Normal v, s') ->
  exists extra',
    nth_error (heap s') c = Some (OComputed v false e st ro extra').
Proof.
  intros H Hx Hrun.
  change (exec (S n) (ReflectGet (VRef c) VALUE (VRef c) Ret))
    with (bind (reflectGet (exec n) (VRef c) VALUE (VRef c))
            (fun v => exec n (Ret v))) in Hrun.
  destruct d.
  - unfold bind at 1 in Hrun.
    destruct (reflectGet (exec n) (VRef c) VALUE (VRef c) s)
      as [[[v1 | x1] s1] | ] eqn:Eg; try discriminate.
    destruct n as [ | n0]; [ discriminate | ].
    rewrite exec_Ret in Hrun. inversion Hrun; subst v1 s1. clear Hrun.
    unfold reflectGet, bind, gets in Eg. rewrite H in Eg.
    change (key_eqb VALUE VALUE) with true in Eg. cbn iota in Eg.
    unfold computedGet in Eg. unfold bind at 1 in Eg. unfold gets at 1 in Eg.
    rewrite (toRaw_computed s c _ _ _ _ _ _ H Hx) in Eg.
    unfold bind at 1 in Eg. unfold gets at 1 in Eg.
    rewrite (peek_raw_object s c _ (KStr "_dirty") H I) in Eg.
    cbn [getOwn key_eqb String.eqb Ascii.eqb Bool.eqb truthy] in Eg.
    unfold bind at 1 in Eg. unfold bind at 1 in Eg.
    destruct (exec (S n0) (ReflectGet (VRef c) (KStr "effect") (VRef c) Ret) s)
      as [[[f | xf] sa] | ] eqn:Ea; try discriminate.
    unfold bind at 1 in Eg.
    destruct (exec (S n0) (CallFn f VUndef Ret) sa)
      as [[[w | xw] sb] | ] eqn:Eb; try discriminate.
    assert (Hc : computedAt s c e st ro) by (exists val, true, extra; exact H).
    pose proof (exec_computedAt _ _ _ _ _ c e st ro Hc Ea) as Hca.
    pose proof (exec_computedAt _ _ _ _ _ c e st ro Hca Eb) as Hcb.
    destruct Hcb as [val2 [d2 [extra2 Hb]]].
    cbn [writeField bind perform applyPrim] in Eg.
    unfold bind, perform, applyPrim, trackV, gets in Eg.
    inversion Eg; subst. clear Eg.
    exists extra2.
    rewrite track_shape. cbn [heap set_log set_effects set_targetMap].
    pose proof (writeProp_value sb c w _ _ _ _ _ _ Hb) as H1.
    pose proof (writeProp_dirty _ c false _ _ _ _ _ _ H1) as H2.
    try rewrite peek_track. unfold peek. rewrite H2. reflexivity.
  - unfold bind in Hrun.
    rewrite (computed_read_cached (exec n) s c val e st ro extra H Hx) in Hrun.
    destruct n as [ | n0]; [ discriminate | ].
    rewrite exec_Ret in Hrun. inversion Hrun; subst.
    exists extra. rewrite track_shape. exact H.
Qed.

(** The scheduler of a dirty computed does nothing; the scheduler of a
    clean one marks it dirty and calls [trigger] once, for its key
    [value]. *)
Lemma scheduler_dirty (call : prog -> M value) (s : state) (c : addr) (e0 : eid)
  val e st ro extra :
  nth_error (heap s) c = Some (OComputed val true e st ro extra) ->
  runScheduler call (SchedComputed c) e0 s = Some (Normal tt, s).
Proof.
  intros H. unfold runScheduler, bind, gets.
  rewrite (peek_raw_object s c _ (KStr "_dirty") H I). reflexivity.
Qed.

Lemma scheduler_clean (call : prog -> M value) (s : state) (c : addr) (e0 : eid)
  val e st ro extra :
  nth_error (heap s) c = Some (OComputed val false e st ro extra) ->
  alookup key_eqb RAW extra = None ->
  runScheduler call (SchedComputed c) e0 s
  = (call (TriggerP (VRef c) SET (Some VALUE) VUndef (Ret VUndef)) ;; ret tt)
      (writeProp c (KStr "_dirty") (VBool true) s)
  /\ nth_error (heap (writeProp c (KStr "_dirty") (VBool true) s)) c
     = Some (OComputed val true e st ro extra).
Proof.
  intros H Hx. pose proof (writeProp_dirty s c true _ _ _ _ _ _ H) as Hd.
  split; [ | exact Hd ].
  unfold runScheduler. unfold bind at 1. unfold gets at 1.
  rewrite (peek_raw_object s c _ (KStr "_dirty") H I).
  cbn [getOwn key_eqb String.eqb Ascii.eqb Bool.eqb truthy negb].
  unfold bind at 1. unfold perform at 1. cbn [applyPrim].
  unfold bind at 1. unfold gets at 1.
  rewrite (toRaw_computed _ c _ _ _ _ _ _ Hd Hx). reflexivity.
Qed.

(** [trigger] hands the effect of a computed to its scheduler: the getter
    is not called. *)
Lemma run_scheduled (call : prog -> M value) (s : state) (e : eid)
  (f : ReactiveEffect) (sch : sched prog) :
  effectOf s e = Some f -> scheduler (options f) = Some sch ->
  run call e s = runScheduler call sch e (emit (EvSchedule e) s).
Proof.
  intros Ef Hs. unfold run, bind, gets. rewrite Ef, Hs. reflexivity.
Qed.

Definition double (x : value) : prog :=
  getP x "value" (fun v =>
    match v with
    | VNum z => Ret (VNum (z * 2))
    | _ => Ret VNaN
    end).

(** S5: [x = ref(3); c = computed(() => x.value * 2)]; read [c.value]
    twice; [x.value = 4]; read [c.value]. *)
Definition S5 : prog :=
  RefP (VNum 3) false (fun x =>
  ComputedP (double x) None (fun c =>
  getP c "value" (fun _ =>
  getP c "value" (fun _ =>
  setP x "value" (VNum 4)
    (getP c "value" Ret))))).

(** ... with two writes of [x] before the last read. *)
Definition S5_two_writes : prog :=
  RefP (VNum 3) false (fun x =>
  ComputedP (double x) None (fun c =>
  getP c "value" (fun _ =>
  setP x "value" (VNum 4)
    (setP x "value" (VNum 5)
       (getP c "value" Ret))))).

(** ... with an effect [D = effect(() => c.value)] downstream. *)
Definition S5_downstream : prog :=
  RefP (VNum 3) false (fun x =>
  ComputedP (double x) None (fun c =>
  EffectP (getP c "value" Ret) noOptions (fun _ =>
  setP x "value" (VNum 4) (Ret VUndef)))).

(** S5 after the first read, and after the write of [x]. *)
Definition S5_clean : state :=
  finalState 20
    (RefP (VNum 3) false (fun x =>
     ComputedP (double x) None (fun c => getP c "value" Ret))).

Definition S5_dirty : state :=
  finalState 20
    (RefP (VNum 3) false (fun x =>
     ComputedP (double x) None (fun c =>
     getP c "value" (fun _ => setP x "value" (VNum 4) (Ret VUndef))))).

Definition S5_effect : ReactiveEffect :=
  match effectOf S5_clean 0 with Some f => f | None => noEffect end.

Definition S5_dirty_effect : ReactiveEffect :=
  match effectOf S5_dirty 0 with Some f => f | None => noEffect end.

(** ** Integer keys as numbers *)

Local Open Scope char_scope.

Definition isDigit (c : ascii) : Prop :=
  c = "0" \/ c = "1" \/ c = "2" \/ c = "3" \/ c = "4" \/ c = "5" \/ c = "6"
  \/ c = "7" \/ c = "8" \/ c = "9".

Local Close Scope char_scope.

Ltac digit_cases H :=
  destruct H as [H | [H | [H | [H | [H | [H | [H | [H | [H | H]]]]]]]]];
  subst.

Lemma digits_of_uint (d : Decimal.uint) :
  Forall isDigit (asciis (NilEmpty.string_of_uint d)).
Proof.
  induction d; simpl; constructor; auto; unfold isDigit; tauto.
Qed.

Lemma digit_not_ws (c : ascii) : isDigit c -> isWS c = false.
Proof. intros H. digit_cases H; reflexivity. Qed.

Lemma dropWS_digits (l : list ascii) : Forall isDigit l -> dropWS l = l.
Proof.
  intros H. destruct H as [ | c r Hc Hr]; simpl; auto.
  rewrite (digit_not_ws c Hc). reflexivity.
Qed.

Lemma trimWS_digits (l : list ascii) : Forall isDigit l -> trimWS l = l.
Proof.
  intros H. unfold trimWS. rewrite (dropWS_digits l H).
  rewrite dropWS_digits; [ apply rev_involutive | ].
  apply Forall_rev. exact H.
Qed.

Lemma spanDigits_cons (c : ascii) (v : Z) (r : list ascii) (acc : Z)
  (cnt : nat) :
  digitVal c = Some v ->
  spanDigits (c :: r) acc cnt = spanDigits r (10 * acc + v) (S cnt).
Proof. intros H. cbn [spanDigits]. rewrite H. reflexivity. Qed.

Ltac span_digit :=
  match goal with
  | |- spanDigits (?c :: _) _ _ = _ =>
      let v := eval vm_compute in (digitVal c) in
      match v with
      | Some ?x => rewrite (spanDigits_cons c x _ _ _ eq_refl)
      end
  end.

Lemma spanDigits_uint (d : Decimal.uint) :
  forall (a cnt : nat),
    spanDigits (asciis (NilEmpty.string_of_uint d)) (Z.of_nat a) cnt
    = (Z.of_nat (Nat.of_uint_acc d a), cnt + Decimal.nb_digits d, []).
Proof.
  induction d; intros a cnt;
    cbn [NilEmpty.string_of_uint asciis list_ascii_of_string Nat.of_uint_acc
         Decimal.nb_digits];
    try (rewrite Nat.add_0_r; reflexivity);
    span_digit;
    match goal with
    | |- spanDigits _ ?z _ = (Z.of_nat (Nat.of_uint_acc _ ?m), _, _) =>
        replace z with (Z.of_nat m)
          by (rewrite Nat.tail_mul_spec; lia)
    end;
    rewrite IHd; f_equal; f_equal; lia.
Qed.

Lemma radixPrefix_digits (l : list ascii) :
  Forall isDigit l -> radixPrefix l = None.
Proof.
  intros H. destruct H as [ | z r Hz Hr]; [ reflexivity | ].
  destruct Hr as [ | x r' Hx Hr']; [ reflexivity | ].
  digit_cases Hz; try reflexivity.
  digit_cases Hx; reflexivity.
Qed.

Lemma parseUnsignedDecimal_uint (d : Decimal.uint) :
  d <> Decimal.Nil ->
  parseUnsignedDecimal (asciis (NilEmpty.string_of_uint d))
  = JFin (Z.of_nat (Nat.of_uint d)) 0.
Proof.
  intros Hd. unfold parseUnsignedDecimal.
  assert (Hinf : ascii_list_eqb (asciis (NilEmpty.string_of_uint d))
                   (asciis "Infinity") = false).
  { destruct d; try contradiction; reflexivity. }
  rewrite Hinf.
  change 0%Z with (Z.of_nat 0) at 1.
  rewrite (spanDigits_uint d 0 0). cbn [Nat.add].
  assert (Hn : (Decimal.nb_digits d + 0 =? 0) = false).
  { destruct d; try contradiction; reflexivity. }
  rewrite Hn. reflexivity.
Qed.

Lemma StringToNumber_uint (d : Decimal.uint) :
  StringToNumber (NilZero.string_of_uint d)
  = JFin (Z.of_nat (Nat.of_uint d)) 0.
Proof.
  destruct (Decimal.uint_eq_dec d Decimal.Nil) as [-> | Hd];
    [ reflexivity | ].
  assert (Hs : NilZero.string_of_uint d = NilEmpty.string_of_uint d).
  { destruct d; try contradiction; reflexivity. }
  rewrite Hs. unfold StringToNumber.
  pose proof (digits_of_uint d) as Hall.
  rewrite (trimWS_digits _ Hall), (radixPrefix_digits _ Hall).
  pose proof (parseUnsignedDecimal_uint d Hd) as Hp.
  destruct (asciis (NilEmpty.string_of_uint d)) as [ | c r] eqn:El.
  - destruct d; try contradiction; discriminate.
  - inversion Hall as [ | c' r' Hc Hr]; subst.
    assert (Hsign : (nat_of_ascii c =? 43) = false
                    /\ (nat_of_ascii c =? 45) = false).
    { digit_cases Hc; split; reflexivity. }
    destruct Hsign as [-> ->]. exact Hp.
Qed.

Lemma of_lu_N_nat (d : Decimal.uint) :
  DecimalPos.Unsigned.of_lu d = N.of_nat (DecimalNat.Unsigned.of_lu d).
Proof.
  induction d; simpl DecimalNat.Unsigned.of_lu; try reflexivity;
    rewrite DecimalPos.Unsigned.of_lu_eqn; simpl DecimalPos.Unsigned.hd;
    simpl DecimalPos.Unsigned.tl; rewrite IHd; lia.
Qed.

Lemma of_uint_N_nat (d : Decimal.uint) :
  N.of_uint d = N.of_nat (Nat.of_uint d).
Proof.
  unfold N.of_uint. rewrite DecimalPos.Unsigned.of_uint_alt.
  rewrite DecimalNat.Unsigned.of_uint_alt. apply of_lu_N_nat.
Qed.

(** The decimal string of [n] converts to the number [n]. *)
Lemma StringToNumber_decimal (n : N) :
  StringToNumber (decimalOfN n) = JFin (Z.of_N n) 0.
Proof.
  unfold decimalOfN. rewrite StringToNumber_uint. f_equal.
  rewrite <- (DecimalN.Unsigned.of_to n) at 2.
  rewrite of_uint_N_nat. lia.
Qed.

(** The key of the index [i]. *)
Definition indexKey (i : nat) : key := KStr (decimalOfN (N.of_nat i)).

(** For an integer key and a new length [n] (below [2^32], as every
    length of an array), [key >= n] compares the index with [n]. *)
Lemma safeInteger_length (n : nat) :
  (Z.of_nat n < 4294967296)%Z -> safeInteger (Z.of_nat n) = true.
Proof. intros H. unfold safeInteger. apply Z.leb_le. lia. Qed.

Lemma geInteger_integer (i z : Z) :
  geInteger (JFin i 0) z = Some (z <=? i)%Z.
Proof.
  unfold geInteger, jsnum_ge. cbn [Z.min Z.compare Z.sub Z.opp Z.add].
  change (10 ^ 0)%Z with 1%Z. rewrite !Z.mul_1_r.
  destruct (z <=? i)%Z eqn:E; [ reflexivity | ].
  apply Z.leb_gt in E.
  assert (H : (i <=? z - 1)%Z = true) by (apply Z.leb_le; lia).
  rewrite H. reflexivity.
Qed.

Lemma keyGe_index (i n : nat) :
  (Z.of_nat n < 4294967296)%Z ->
  keyGe (indexKey i) (VNum (Z.of_nat n)) = Normal (n <=? i).
Proof.
  intros Hn. unfold keyGe, indexKey. cbn [toNumber].
  rewrite (safeInteger_length n Hn), StringToNumber_decimal, geInteger_integer.
  f_equal. destruct (n <=? i) eqn:E.
  - apply Nat.leb_le in E. apply Z.leb_le. lia.
  - apply Nat.leb_gt in E. apply Z.leb_gt. lia.
Qed.

(** A string that is not a numeric literal converts to [NaN] and passes
    no comparison with a number. *)
Lemma keyGe_nonnumeric (str : string) (n : nat) :
  (Z.of_nat n < 4294967296)%Z -> StringToNumber str = JNaN ->
  keyGe (KStr str) (VNum (Z.of_nat n)) = Normal false.
Proof.
  intros Hn Hs. unfold keyGe. cbn [toNumber].
  rewrite (safeInteger_length n Hn), Hs. reflexivity.
Qed.

(** ** Writing the length of an array *)

(** The run set of a [length] write as the collection rule words it: the
    members of the [length] Dep and of the Dep of every integer index
    [i >= n]. *)
Definition lengthRunSet (dm : KeyToDepMap) (n : nat) (e : eid) : Prop :=
  exists k dep, In (k, dep) dm /\ In e dep
                /\ (k = LENGTH \/ exists i, k = indexKey i /\ n <= i).

(** The run set as [trigger] selects it: the members of the [length] Dep
    and of every Dep whose key passes [key >= newValue]. *)
Definition numericRunSet (dm : KeyToDepMap) (newValue : value) (e : eid)
  : Prop :=
  exists k dep, In (k, dep) dm /\ In e dep
                /\ (k = LENGTH \/ keyGe k newValue = Normal true).

(** Every key is [length] or a key whose comparison with the new value
    returns: a string (a symbol throws) for which the embedding decides
    the comparison. *)
Definition comparableKeys (dm : KeyToDepMap) (newValue : value) : Prop :=
  forall k dep, In (k, dep) dm ->
    k = LENGTH \/ exists b, keyGe k newValue = Normal b.

(** Every key is [length], the key of an integer index, or a string that
    is not a numeric literal (the name of a property or a method). *)
Definition sequenceKeys (dm : KeyToDepMap) : Prop :=
  forall k dep, In (k, dep) dm ->
    k = LENGTH \/ (exists i, k = indexKey i)
    \/ (exists str, k = KStr str /\ StringToNumber str = JNaN).

(** S2: [a = reactive([10,20,30,40])]; E1 reads [a[3]], E2 reads
    [a.length], E3 reads [a[0]]. *)
Definition S2_setup (cont : value -> prog) : prog :=
  NewArray [VNum 10; VNum 20; VNum 30; VNum 40] (fun x =>
  Wrap false false x (fun a =>
  EffectP (getP a "3" Ret) noOptions (fun _ =>
  EffectP (getP a "length" Ret) noOptions (fun _ =>
  EffectP (getP a "0" Ret) noOptions (fun _ => cont a))))).

Definition S2 : prog :=
  S2_setup (fun a => setP a "length" (VNum 2) (Ret VUndef)).

Definition S2_state : state := finalState 20 (S2_setup Ret).

Definition S2_depsMap : KeyToDepMap :=
  [(KStr "3", [0]); (KStr "length", [1]); (KStr "0", [2])].

(** An effect that reads the property ["1.5"] of a reactive array. *)
Definition fraction_setup (cont : value -> prog) : prog :=
  NewArray [VNum 10; VNum 20] (fun x =>
  Wrap false false x (fun a =>
  EffectP (getP a "1.5" Ret) noOptions (fun _ => cont a))).

Definition fraction : prog :=
  fraction_setup (fun a => setP a "length" (VNum 1) (Ret VUndef)).

Definition fraction_state : state := finalState 20 (fraction_setup Ret).

Definition fraction_depsMap : KeyToDepMap := [(KStr "1.5", [0])].

Lemma comparableKeys_tail (kd : key * Dep) (dm : KeyToDepMap) (nv : value) :
  comparableKeys (kd :: dm) nv -> comparableKeys dm nv.
Proof. intros H k dep Hin. apply (H k dep). right. exact Hin. Qed.

Lemma numericRunSet_cons (k : key) (dep : Dep) (dm : KeyToDepMap)
  (nv : value) (e : eid) :
  numericRunSet ((k, dep) :: dm) nv e <->
  (In e dep /\ (k = LENGTH \/ keyGe k nv = Normal true))
  \/ numericRunSet dm nv e.
Proof.
  unfold numericRunSet. split.
  - intros [k' [dep' [[Heq | Hin] [He Hk]]]].
    + inversion Heq; subst. left. auto.
    + right. exists k', dep'. auto.
  - intros [[He Hk] | [k' [dep' [Hin [He Hk]]]]].
    + exists k, dep. split; [ left; reflexivity | auto ].
    + exists k', dep'. split; [ right; exact Hin | auto ].
Qed.

(** When every comparison returns, the [forEach] of the [length] branch
    ends normally and adds exactly the members that pass the test. *)
Lemma collectLength_spec (s : state) (nv : value) (dm : KeyToDepMap) :
  comparableKeys dm nv ->
  forall acc : list eid,
  exists effs,
    collectLength s dm nv acc = Normal effs
    /\ (NoDup acc -> NoDup effs)
    /\ forall e, In e effs <->
                 In e acc \/ (numericRunSet dm nv e /\ schedulable s e).
Proof.
  induction dm as [ | [k dep] r IH]; intros Hk acc.
  - exists acc. simpl. split; [ reflexivity | split; [ auto | ] ].
    intros e. split; auto.
    intros [H | [[k [dep [[] _]]] _]]. exact H.
  - specialize (IH (@comparableKeys_tail _ _ _ Hk)).
    cbn [collectLength].
    destruct (key_eqb k LENGTH) eqn:Ek.
    + apply key_eqb_eq in Ek.
      destruct (IH (add s acc dep)) as [effs [Hc [Hnd Hin]]].
      exists effs. split; [ exact Hc | split ].
      * intros Hacc. apply Hnd. apply NoDup_add. exact Hacc.
      * intros e. rewrite Hin, In_add, numericRunSet_cons. tauto.
    + assert (Hne : k <> LENGTH).
      { intros Heq. apply key_eqb_eq in Heq. congruence. }
      destruct (Hk k dep (or_introl eq_refl)) as [Hl | [[ | ] Hge]];
        [ contradiction | | ]; rewrite Hge.
      * destruct (IH (add s acc dep)) as [effs [Hc [Hnd Hin]]].
        exists effs. split; [ exact Hc | split ].
        -- intros Hacc. apply Hnd. apply NoDup_add. exact Hacc.
        -- intros e. rewrite Hin, In_add, numericRunSet_cons. tauto.
      * destruct (IH acc) as [effs [Hc [Hnd Hin]]].
        exists effs. split; [ exact Hc | split; [ exact Hnd | ] ].
        intros e. rewrite Hin, numericRunSet_cons.
        intuition congruence.
Qed.

Lemma indexKey_not_length (i : nat) : indexKey i <> LENGTH.
Proof.
  unfold indexKey, LENGTH. intros H. inversion H as [Hs].
  pose proof (StringToNumber_decimal (N.of_nat i)) as Hn.
  rewrite Hs in Hn. vm_compute in Hn. discriminate.
Qed.

Lemma sequenceKeys_comparable (dm : KeyToDepMap) (n : nat) :
  (Z.of_nat n < 4294967296)%Z -> sequenceKeys dm ->
  comparableKeys dm (VNum (Z.of_nat n)).
Proof.
  intros Hn H k dep Hin.
  destruct (H k dep Hin) as [Hl | [[i ->] | [str [-> Hs]]]].
  - left. exact Hl.
  - right. eexists. apply (keyGe_index i n Hn).
  - right. eexists. apply (keyGe_nonnumeric str n Hn Hs).
Qed.

(** Over [length], integer keys and names the two run sets agree. *)
Lemma runSets_agree (dm : KeyToDepMap) (n : nat) (e : eid) :
  (Z.of_nat n < 4294967296)%Z -> sequenceKeys dm ->
  numericRunSet dm (VNum (Z.of_nat n)) e <-> lengthRunSet dm n e.
Proof.
  intros Hn Hk. unfold numericRunSet, lengthRunSet. split.
  - intros [k [dep [Hin [He [Hl | Hge]]]]]; exists k, dep;
      (split; [ exact Hin | split; [ exact He | ] ]); auto.
    destruct (Hk k dep Hin) as [Hl | [[i Hi] | [str [Hi Hs]]]]; auto.
    + right. exists i. split; auto. subst k.
      rewrite (keyGe_index i n Hn) in Hge. inversion Hge as [Hb].
      apply Nat.leb_le in Hb. exact Hb.
    + subst k. rewrite (keyGe_nonnumeric str n Hn Hs) in Hge. discriminate.
  - intros [k [dep [Hin [He [Hl | [i [Hi Hle]]]]]]]; exists k, dep;
      (split; [ exact Hin | split; [ exact He | ] ]); auto.
    right. subst k. rewrite (keyGe_index i n Hn). f_equal.
    apply Nat.leb_le. exact Hle.
Qed.

Lemma collect_length (s : state) (dm : KeyToDepMap) (target : value)
  (ty : TriggerOpTypes) (nv : value) :
  ty <> CLEAR -> isArray s target = true -> comparableKeys dm nv ->
  exists effs,
    collect s dm target ty (Some LENGTH) nv = Normal effs
    /\ NoDup effs
    /\ forall e, In e effs <-> numericRunSet dm nv e /\ schedulable s e.
Proof.
  intros Hty Ha Hk.
  destruct (collectLength_spec s nv dm Hk []) as [effs [Hc [Hnd Hin]]].
  exists effs. split; [ | split; [ apply Hnd; constructor | ] ].
  - unfold collect. cbn [opt_key_eqb]. rewrite Ha.
    assert (El : key_eqb LENGTH LENGTH = true)
      by (apply key_eqb_eq; reflexivity).
    rewrite El. cbn [andb].
    destruct ty; try exact Hc. contradiction Hty. reflexivity.
  - intros e. rewrite Hin. simpl. tauto.
Qed.

Unset Implicit Arguments.


(** * Further properties of the code *)

(** ** The effects a trigger collects *)

(** [e] is a member of the Dep that [dm] holds for the key [k]. *)
Definition depMember (dm : KeyToDepMap) (k : key) (e : eid) : Prop :=
  exists dep, alookup key_eqb k dm = Some dep /\ In e dep.

Lemma NoDup_addOpt (s : state) (d : option Dep) (acc : list eid) :
  NoDup acc -> NoDup (addOpt s acc d).
Proof. destruct d; simpl; auto. apply NoDup_add. Qed.

Lemma In_addOpt_member (s : state) (dm : KeyToDepMap) (k : key)
  (acc : list eid) (e : eid) :
  In e (addOpt s acc (alookup key_eqb k dm)) <->
  In e acc \/ (depMember dm k e /\ schedulable s e).
Proof.
  rewrite In_addOpt. unfold depMember. split.
  - intros [H | [dep [H0 [H1 H2]]]]; auto. right. split; auto.
    exists dep. auto.
  - intros [H | [[dep [H0 H1]] H2]]; auto. right. exists dep. auto.
Qed.

Lemma collect_clear (s : state) (dm : KeyToDepMap) :
  forall acc : list eid,
    (NoDup acc ->
     NoDup (fold_left (fun acc kd => add s acc (snd kd)) dm acc))
    /\ forall e,
         In e (fold_left (fun acc kd => add s acc (snd kd)) dm acc) <->
         In e acc
         \/ ((exists k dep, In (k, dep) dm /\ In e dep) /\ schedulable s e).
Proof.
  induction dm as [ | [k dep] r IH]; intros acc; simpl.
  - split; auto. intros e. split; auto.
    intros [H | [[k [dep [[] _]]] _]]. exact H.
  - destruct (IH (add s acc dep)) as [Hnd Hin]. split.
    + intros Hacc. apply Hnd. apply NoDup_add. exact Hacc.
    + intros e. rewrite Hin, In_add. split.
      * intros [[H | [H1 H2]] | [[k' [dep' [H1 H2]]] H3]]; auto.
        -- right. split; auto. exists k, dep. auto.
        -- right. split; auto. exists k', dep'. auto.
      * intros [H | [[k' [dep' [[Heq | H1] H2]]] H3]]; auto.
        -- inversion Heq; subst. auto.
        -- right. split; auto. exists k', dep'. auto.
Qed.

Lemma collect_spec :
  forall (s : state) (dm : KeyToDepMap) (target : value) (k : option key)
         (nv : value),
    let own e := exists k', k = Some k' /\ depMember dm k' e in
    let arr := isArray s target in
    let map := isMap s target in
    ((opt_key_eqb k LENGTH && arr) = false ->
     (exists effs,
         collect s dm target SET k nv = Normal effs /\ NoDup effs
         /\ forall e, In e effs <->
              schedulable s e
              /\ (own e \/ (map = true /\ depMember dm ITERATE_KEY e)))
     /\ ((arr = true -> forall k', k = Some k' -> isIntegerKey k' <> None) ->
         exists effs,
            collect s dm target ADD k nv = Normal effs /\ NoDup effs
            /\ forall e, In e effs <->
                 schedulable s e
                 /\ (own e
                     \/ (arr = false /\ depMember dm ITERATE_KEY e)
                     \/ (arr = false /\ map = true
                         /\ depMember dm MAP_KEY_ITERATE_KEY e)
                     \/ (arr = true
                         /\ (exists k',
                                k = Some k' /\ isIntegerKey k' = Some true)
                         /\ depMember dm LENGTH e)))
     /\ (exists effs,
            collect s dm target DELETE k nv = Normal effs /\ NoDup effs
            /\ forall e, In e effs <->
                 schedulable s e
                 /\ (own e
                     \/ (arr = false /\ depMember dm ITERATE_KEY e)
                     \/ (arr = false /\ map = true
                         /\ depMember dm MAP_KEY_ITERATE_KEY e))))
    /\ (exists effs,
           collect s dm target CLEAR k nv = Normal effs /\ NoDup effs
           /\ forall e, In e effs <->
                schedulable s e
                /\ exists k' dep, In (k', dep) dm /\ In e dep).
Proof.
  intros s dm target k nv own arr map.
  assert (Hnil : NoDup (@nil eid)) by constructor.
  assert (He0 : forall e,
             In e (match k with
                   | Some k' => addOpt s [] (alookup key_eqb k' dm)
                   | None => []
                   end) <-> schedulable s e /\ own e).
  { intros e. unfold own. destruct k as [k' | ].
    - rewrite In_addOpt_member. simpl. split.
      + intros [[] | [H1 H2]]. split; auto. exists k'. auto.
      + intros [H1 [k0 [Heq H2]]]. inversion Heq; subst. auto.
    - simpl. split; [ intros [] | intros [_ [k0 [Heq _]]]; discriminate ]. }
  assert (Hd0 : NoDup (match k with
                       | Some k' => addOpt s [] (alookup key_eqb k' dm)
                       | None => []
                       end)).
  { destruct k; auto. apply NoDup_addOpt. exact Hnil. }
  split.
  - intros Hlen. unfold collect. fold arr. fold map. rewrite Hlen.
    split; [ | split ].
    + eexists. split; [ reflexivity | ]. destruct map.
      * split; [ apply NoDup_addOpt; exact Hd0 | ].
        intros e. rewrite In_addOpt_member, He0. intuition.
      * split; [ exact Hd0 | ].
        intros e. rewrite He0. intuition congruence.
    + intros Hint. destruct arr; simpl.
      * destruct (match k with
                  | Some k' => isIntegerKey k'
                  | None => Some false
                  end) as [[ | ] | ] eqn:Ei.
        -- eexists. split; [ reflexivity | ].
           split; [ apply NoDup_addOpt; exact Hd0 | ].
           intros e. rewrite In_addOpt_member, He0.
           assert (Hk : exists k',
                      k = Some k' /\ isIntegerKey k' = Some true).
           { destruct k as [k' | ]; [ | discriminate ]. exists k'. auto. }
           intuition congruence.
        -- eexists. split; [ reflexivity | ].
           split; [ exact Hd0 | ].
           intros e. rewrite He0.
           assert (Hk : ~ exists k',
                        k = Some k' /\ isIntegerKey k' = Some true).
           { intros [k' [-> Hk']]. congruence. }
           intuition congruence.
        -- exfalso. destruct k as [k' | ]; [ | discriminate ].
           exact (Hint eq_refl k' eq_refl Ei).
      * eexists. split; [ reflexivity | ]. destruct map.
        -- split; [ apply NoDup_addOpt, NoDup_addOpt; exact Hd0 | ].
           intros e. rewrite !In_addOpt_member, He0. intuition congruence.
        -- split; [ apply NoDup_addOpt; exact Hd0 | ].
           intros e. rewrite In_addOpt_member, He0. intuition congruence.
    + eexists. split; [ reflexivity | ]. destruct arr; simpl.
      * split; [ exact Hd0 | ].
        intros e. rewrite He0. intuition congruence.
      * destruct map.
        -- split; [ apply NoDup_addOpt, NoDup_addOpt; exact Hd0 | ].
           intros e. rewrite !In_addOpt_member, He0. intuition congruence.
        -- split; [ apply NoDup_addOpt; exact Hd0 | ].
           intros e. rewrite In_addOpt_member, He0. intuition congruence.
  - eexists. split; [ reflexivity | ].
    destruct (collect_clear s dm []) as [Hnd Hin].
    split; [ apply Hnd; exact Hnil | ].
    intros e. rewrite Hin. simpl. tauto.
Qed.

Lemma collect_determined (s : state) (dm : KeyToDepMap) (target : value)
  (k : option key) (nv : value) (effs : list eid) :
  collect s dm target ADD k nv = Normal effs ->
  (opt_key_eqb k LENGTH && isArray s target) = false ->
  isArray s target = true ->
  forall k', k = Some k' -> isIntegerKey k' <> None.
Proof.
  intros Hc Hl Ha k' -> Hi. unfold collect in Hc.
  rewrite Hl, Ha in Hc. simpl in Hc. rewrite Hi in Hc. discriminate.
Qed.

(** The effects a trigger collects, operation by operation, when the
    write is not a write of [length] to an array.  The list has no
    duplicates and holds only effects that may be scheduled (not the
    running effect, unless it allows recursion).  SET: the Dep of the key,
    and for a Map the Dep of [ITERATE_KEY].  ADD: the Dep of the key; for a
    target that is not an array the Dep of [ITERATE_KEY], and for a Map
    also that of [MAP_KEY_ITERATE_KEY]; for an array and an integer key
    the Dep of [length] (stated where [isIntegerKey] is determined on an
    array's key).  DELETE: as ADD for a target that is not an array; for
    an array the Dep of the key only.  CLEAR: every Dep of the target. *)
Theorem trigger_run_set :
  forall (s : state) (dm : KeyToDepMap) (target : value) (k : option key)
         (nv : value),
    let own e := exists k', k = Some k' /\ depMember dm k' e in
    let arr := isArray s target in
    let map := isMap s target in
    ((opt_key_eqb k LENGTH && arr) = false ->
     (exists effs,
         collect s dm target SET k nv = Normal effs /\ NoDup effs
         /\ forall e, In e effs <->
              schedulable s e
              /\ (own e \/ (map = true /\ depMember dm ITERATE_KEY e)))
     /\ ((arr = true -> forall k', k = Some k' -> isIntegerKey k' <> None) ->
         exists effs,
            collect s dm target ADD k nv = Normal effs /\ NoDup effs
            /\ forall e, In e effs <->
                 schedulable s e
                 /\ (own e
                     \/ (arr = false /\ depMember dm ITERATE_KEY e)
                     \/ (arr = false /\ map = true
                         /\ depMember dm MAP_KEY_ITERATE_KEY e)
                     \/ (arr = true
                         /\ (exists k',
                                k = Some k' /\ isIntegerKey k' = Some true)
                         /\ depMember dm LENGTH e)))
     /\ (exists effs,
            collect s dm target DELETE k nv = Normal effs /\ NoDup effs
            /\ forall e, In e effs <->
                 schedulable s e
                 /\ (own e
                     \/ (arr = false /\ depMember dm ITERATE_KEY e)
                     \/ (arr = false /\ map = true
                         /\ depMember dm MAP_KEY_ITERATE_KEY e))))
    /\ (exists effs,
           collect s dm target CLEAR k nv = Normal effs /\ NoDup effs
           /\ forall e, In e effs <->
                schedulable s e
                /\ exists k' dep, In (k', dep) dm /\ In e dep).
Proof. exact collect_spec. Qed.
Lemma trigger_run_set_witness :
  exists effs,
    collect S2_state S2_depsMap (VRef 0) ADD (Some (KStr "4")) (VNum 50)
    = Normal effs
    /\ NoDup effs
    /\ forall e, In e effs <->
         schedulable S2_state e
         /\ ((exists k', Some (KStr "4") = Some k' /\ depMember S2_depsMap k' e)
             \/ (isArray S2_state (VRef 0) = false
                 /\ depMember S2_depsMap ITERATE_KEY e)
             \/ (isArray S2_state (VRef 0) = false
                 /\ isMap S2_state (VRef 0) = true
                 /\ depMember S2_depsMap MAP_KEY_ITERATE_KEY e)
             \/ (isArray S2_state (VRef 0) = true
                 /\ (exists k', Some (KStr "4") = Some k'
                                /\ isIntegerKey k' = Some true)
                 /\ depMember S2_depsMap LENGTH e)).
Proof.
  destruct (trigger_run_set S2_state S2_depsMap (VRef 0) (Some (KStr "4"))
              (VNum 50)) as [H _].
  assert (Hk : (opt_key_eqb (Some (KStr "4")) LENGTH
                && isArray S2_state (VRef 0)) = false).
  { vm_compute. reflexivity. }
  destruct (H Hk) as [_ [Hadd _]]. apply Hadd.
  intros _ k' Hk'. inversion Hk'; subst. vm_compute. discriminate.
Defined.

(** ** The effect stack across a program *)

(** Whatever a program does and however it ends, normally or by an
    exception, it leaves the effect stack and the active effect as it
    found them, provided the active effect was the top of the stack at the
    start (as it is initially and at every call of an effect body). *)
Theorem program_restores_effect_stack :
  forall (n : nat) (p : prog) (s : state) (o : outcome value) (s' : state),
    activeIsTop s -> exec n p s = Some (o, s') ->
    effectStack s' = effectStack s /\ activeEffect s' = activeEffect s.
Proof.
  intros n p s o s' Ht H.
  pose proof (exec_sameStack n p s o s' H) as Hs.
  pose proof (exec_activeIsTop n p s o s' Ht H) as Ht'.
  split; [ exact Hs | ].
  unfold activeIsTop in *. congruence.
Qed.

Lemma program_restores_effect_stack_witness :
  effectStack throwing_body_end = [0]
  /\ activeEffect throwing_body_end = Some 0.
Proof.
  apply (program_restores_effect_stack 10 (raw throwing_effect)
           (enter 0 (cleanup 0 throwing_state)) (Thrown (VStr "boom"))
           throwing_body_end).
  - reflexivity.
  - vm_compute. reflexivity.
Defined.

(** ** The tracking switches *)

(** The flag that a sequence of switch calls of depth [d] restores: the
    current flag at depth 0, else the flag saved [d] calls ago. *)
Definition savedFlag (s : state) (d : nat) : bool :=
  match d with
  | O => shouldTrack s
  | S d' => nth d' (trackStack s) true
  end.

Lemma paired_restores (cs : list switch) :
  forall (d : nat) (s : state),
    paired d cs = true -> d <= List.length (trackStack s) ->
    shouldTrack (flips cs s) = savedFlag s d
    /\ trackStack (flips cs s) = skipn d (trackStack s).
Proof.
  induction cs as [ | c r IH]; intros d s Hp Hd; simpl in Hp.
  - apply Nat.eqb_eq in Hp. subst d. split; reflexivity.
  - assert (Hpush : forall b : bool,
               let s1 := set_tracking b (shouldTrack s :: trackStack s) s in
               paired (S d) r = true ->
               shouldTrack (flips r s1) = savedFlag s d
               /\ trackStack (flips r s1) = skipn d (trackStack s)).
    { intros b s1 Hp1.
      destruct (IH (S d) s1 Hp1) as [H1 H2].
      - simpl. lia.
      - split; [ | exact H2 ].
        rewrite H1. destruct d; reflexivity. }
    destruct c; simpl.
    + apply (Hpush false Hp).
    + apply (Hpush true Hp).
    + destruct d as [ | d']; [ discriminate | ].
      unfold resetTracking.
      destruct (trackStack s) as [ | last rest] eqn:Es;
        [ simpl in Hd; lia | ].
      destruct (IH d' (set_tracking last rest s) Hp) as [H1 H2].
      * simpl in *. lia.
      * split; [ | exact H2 ].
        rewrite H1. simpl. rewrite Es. destruct d'; reflexivity.
Qed.

(** Strict nesting of the switches: a sequence of [pauseTracking],
    [enableTracking] and [resetTracking] calls in which every reset answers
    an earlier pause or enable, and none is left unanswered, restores both
    the tracking flag and the stack of saved flags, whatever they were. *)
Theorem paired_switches_restore :
  forall (cs : list switch) (s : state),
    paired 0 cs = true ->
    shouldTrack (flips cs s) = shouldTrack s
    /\ trackStack (flips cs s) = trackStack s.
Proof.
  intros cs s Hp. apply (paired_restores cs 0 s Hp). apply Nat.le_0_l.
Qed.

Lemma paired_switches_restore_witness :
  shouldTrack (flips [Pause; Enable; Reset; Pause; Reset; Reset]
                 (pauseTracking init))
  = false
  /\ trackStack (flips [Pause; Enable; Reset; Pause; Reset; Reset]
                   (pauseTracking init))
     = [true].
Proof.
  apply (paired_switches_restore [Pause; Enable; Reset; Pause; Reset; Reset]
           (pauseTracking init)).
  reflexivity.
Defined.

(** ** The dependency list of an effect *)

(** In every state a program reaches from a state in which every
    [effect.deps] is the list of the pairs tracked since the effect's last
    cleanup (the initial state is one), no [effect.deps] names the same Dep
    twice: [track] appends a Dep only when the effect is not yet a member
    of it. *)
Theorem deps_never_repeat :
  forall (n : nat) (p : prog) (s : state) (o : outcome value) (s' : state)
         (e : eid) (f : ReactiveEffect),
    Inv3 s -> exec n p s = Some (o, s') ->
    effectOf s' e = Some f -> NoDup (deps f).
Proof.
  intros n p s o s' e f HI H Ef.
  destruct (exec_Inv3 n p s o s' HI H) as [_ Hfollow].
  specialize (Hfollow e). rewrite Ef in Hfollow. rewrite Hfollow.
  apply NoDup_tracked.
Qed.

Lemma deps_never_repeat_witness : NoDup (deps S4_effect).
Proof.
  apply (deps_never_repeat 20 S4_flip init (Normal VUndef) S4_state 0
           S4_effect Inv3_init).
  - vm_compute. reflexivity.
  - vm_compute. reflexivity.
Defined.

(** ** The keys of a KeyToDepMap are distinct *)

Definition keysUnique (s : state) : Prop :=
  forall t dm, depsMapOf s t = Some dm -> NoDup (map fst dm).

Lemma keys_aset (k : key) (d : Dep) (dm : KeyToDepMap) :
  NoDup (map fst dm) -> NoDup (map fst (aset key_eqb k d dm)).
Proof.
  assert (Hin : forall m x, In x (map fst (aset key_eqb k d m)) ->
                            x = k \/ In x (map fst m)).
  { induction m as [ | [k0 d0] r IH]; intros x; simpl.
    - intros [H | []]; auto.
    - destruct (key_eqb k k0) eqn:E; simpl.
      + apply key_eqb_eq in E. subst k0. intros [H | H]; auto.
      + intros [H | H]; auto. destruct (IH x H); auto. }
  induction dm as [ | [k0 d0] r IH]; intros Hnd; simpl.
  - constructor; [ intros [] | constructor ].
  - inversion Hnd as [ | x l Hx Hr]; subst.
    destruct (key_eqb k k0) eqn:E; simpl.
    + apply key_eqb_eq in E. subst k0. constructor; assumption.
    + constructor; [ | apply IH; exact Hr ].
      intros H. destruct (Hin r k0 H) as [Heq | Hold]; [ | contradiction ].
      subst k0. assert (key_eqb k k = true) by (apply key_eqb_eq; reflexivity).
      congruence.
Qed.

Lemma depsMapOf_set_dep (t : addr) (k : key) (d : Dep) (s : state)
  (t' : addr) :
  depsMapOf (set_dep t k d s) t' =
  if Nat.eqb t t'
  then Some (aset key_eqb k d
               (match depsMapOf s t with Some dm => dm | None => [] end))
  else depsMapOf s t'.
Proof.
  unfold set_dep, depsMapOf. simpl.
  destruct (Nat.eqb t t') eqn:E.
  - apply Nat.eqb_eq in E. subst t'.
    apply (alookup_aset_same _ _ Nat.eqb Nat.eqb_eq).
  - apply Nat.eqb_neq in E.
    apply (alookup_aset_other _ _ Nat.eqb Nat.eqb_eq). exact E.
Qed.

Lemma keysUnique_set_dep (t : addr) (k : key) (d : Dep) (s : state) :
  keysUnique s -> keysUnique (set_dep t k d s).
Proof.
  intros H t' dm. rewrite depsMapOf_set_dep.
  destruct (Nat.eqb t t'); [ | apply H ].
  intros Heq. inversion Heq; subst dm. apply keys_aset.
  destruct (depsMapOf s t) as [dm0 | ] eqn:E; [ apply (H t dm0 E) | constructor ].
Qed.

Lemma keysUnique_ext (s s' : state) :
  targetMap s' = targetMap s -> keysUnique s -> keysUnique s'.
Proof. intros Ht H t dm. unfold depsMapOf. rewrite Ht. apply H. Qed.

Lemma keysUnique_track (t : addr) (ty : TrackOpTypes) (k : key) (s : state) :
  keysUnique s -> keysUnique (track t ty k s).
Proof.
  intros H. unfold track. destruct (shouldTrack s); simpl; auto.
  destruct (activeEffect s) as [a | ]; auto.
  change (depOf (emit (EvTrack a t k) s) t k) with (depOf s t k).
  destruct (mem a (depOf s t k)).
  - revert H. apply keysUnique_ext. reflexivity.
  - apply keysUnique_ext
      with (s := set_dep t k (depOf s t k ++ [a]) (emit (EvTrack a t k) s)).
    + reflexivity.
    + apply keysUnique_set_dep. revert H. apply keysUnique_ext. reflexivity.
Qed.

Lemma keysUnique_cleanup (e : eid) (s : state) :
  keysUnique s -> keysUnique (cleanup e s).
Proof.
  intros H. unfold cleanup.
  change (effectOf (emit (EvCleanup e) s) e) with (effectOf s e).
  assert (H0 : keysUnique (emit (EvCleanup e) s))
    by (revert H; apply keysUnique_ext; reflexivity).
  destruct (effectOf s e) as [f | ]; auto.
  destruct (deps f) as [ | d0 ds0]; auto.
  apply keysUnique_ext
    with (s := fold_left (dep_delete e) (d0 :: ds0) (emit (EvCleanup e) s)).
  - reflexivity.
  - generalize (d0 :: ds0) as ds. generalize (emit (EvCleanup e) s) as s0 , H0.
    intros s0 Hs0 ds. revert s0 Hs0.
    induction ds as [ | tk r IH]; intros s0 Hs0; simpl; auto.
    apply IH. unfold dep_delete. apply keysUnique_set_dep. exact Hs0.
Qed.

Lemma keysUnique_closed : closed (fun s s' => keysUnique s -> keysUnique s').
Proof.
  apply closed_invariant.
  - intros p s H. destruct p; simpl;
      try (revert H; apply keysUnique_ext; reflexivity).
    + apply keysUnique_track. exact H.
    + apply keysUnique_cleanup. exact H.
    + revert H. apply keysUnique_ext. rewrite resetTracking_shape. reflexivity.
    + revert H. apply keysUnique_ext. rewrite writeProp_shape. reflexivity.
  - intros e s. apply keysUnique_ext. reflexivity.
  - intros e s _. apply keysUnique_ext. reflexivity.
  - intros s. apply keysUnique_ext.
    rewrite leave_shape, resetTracking_shape. reflexivity.
Qed.

Lemma exec_keysUnique (n : nat) (p : prog) (s : state) (o : outcome value)
  (s' : state) :
  keysUnique s -> exec n p s = Some (o, s') -> keysUnique s'.
Proof. intros HI H. exact (@exec_rel _ keysUnique_closed n p s o s' H HI). Qed.

Lemma keysUnique_init : keysUnique init.
Proof. intros t dm H. discriminate. Qed.

Lemma keysUnique_finalState (n : nat) (p : prog) : keysUnique (finalState n p).
Proof.
  unfold finalState. destruct (exec n p init) as [[o s] | ] eqn:E.
  - exact (exec_keysUnique n p init o s keysUnique_init E).
  - exact keysUnique_init.
Qed.

Lemma alookup_unique (k : key) (d : Dep) (dm : KeyToDepMap) :
  NoDup (map fst dm) -> In (k, d) dm -> alookup key_eqb k dm = Some d.
Proof.
  induction dm as [ | [k0 d0] r IH]; intros Hnd Hin; simpl in *.
  - destruct Hin.
  - inversion Hnd as [ | x l Hx Hr]; subst.
    destruct Hin as [Heq | Hin].
    + inversion Heq; subst.
      assert (E : key_eqb k k = true) by (apply key_eqb_eq; reflexivity).
      rewrite E. reflexivity.
    + destruct (key_eqb k k0) eqn:E.
      * apply key_eqb_eq in E. subst k0. exfalso. apply Hx.
        apply (in_map fst) in Hin. exact Hin.
      * apply IH; assumption.
Qed.

Lemma alookup_In (k : key) (d : Dep) (dm : KeyToDepMap) :
  alookup key_eqb k dm = Some d -> In (k, d) dm.
Proof.
  induction dm as [ | [k0 d0] r IH]; simpl; intros H; [ discriminate | ].
  destruct (key_eqb k k0) eqn:E.
  - apply key_eqb_eq in E. inversion H; subst. left. reflexivity.
  - right. apply IH. exact H.
Qed.

(** Whatever [trigger] collects is a member of a Dep of the target. *)
Lemma collect_from_entries (s : state) (dm : KeyToDepMap) (target : value)
  (ty : TriggerOpTypes) (k : option key) (nv : value) (effs : list eid)
  (e : eid) :
  collect s dm target ty k nv = Normal effs -> In e effs ->
  exists k' dep, In (k', dep) dm /\ In e dep.
Proof.
  assert (Hlen : forall l acc r,
             (forall x, In x acc -> exists k' dep, In (k', dep) dm /\ In x dep) ->
             (forall kd, In kd l -> In kd dm) ->
             collectLength s l nv acc = Normal r ->
             forall x, In x r -> exists k' dep, In (k', dep) dm /\ In x dep).
  { induction l as [ | [k0 d0] r0 IH]; intros acc r Hacc Hsub Hc x; simpl in Hc.
    - inversion Hc; subst. auto.
    - assert (Hadd : forall y, In y (add s acc d0) ->
                               exists k' dep, In (k', dep) dm /\ In y dep).
      { intros y Hy. apply In_add in Hy. destruct Hy as [Hy | [Hy _]]; auto.
        exists k0, d0. split; auto. apply Hsub. left. reflexivity. }
      assert (Hsub' : forall kd, In kd r0 -> In kd dm).
      { intros kd Hkd. apply Hsub. right. exact Hkd. }
      destruct (key_eqb k0 LENGTH).
      + apply (IH _ _ Hadd Hsub' Hc).
      + destruct (keyGe k0 nv) as [[ | ] | ]; try discriminate.
        * apply (IH _ _ Hadd Hsub' Hc).
        * apply (IH _ _ Hacc Hsub' Hc). }
  intros Hc Hin.
  destruct (Bool.bool_dec (opt_key_eqb k LENGTH && isArray s target) true)
    as [Hl | Hl].
  - destruct ty.
    + unfold collect in Hc. rewrite Hl in Hc.
      refine (Hlen dm [] effs _ _ Hc e Hin); [ intros x [] | auto ].
    + unfold collect in Hc. rewrite Hl in Hc.
      refine (Hlen dm [] effs _ _ Hc e Hin); [ intros x [] | auto ].
    + unfold collect in Hc. rewrite Hl in Hc.
      refine (Hlen dm [] effs _ _ Hc e Hin); [ intros x [] | auto ].
    + destruct (collect_spec s dm target k nv) as [_ [effs' [Hc' [_ Hin']]]].
      rewrite Hc in Hc'. inversion Hc'; subst effs'.
      apply Hin' in Hin. tauto.
  - apply not_true_is_false in Hl.
    destruct (collect_spec s dm target k nv) as [H1 H2].
    destruct (H1 Hl) as [[e1 [Hc1 [_ Hi1]]] [Hadd [e3 [Hc3 [_ Hi3]]]]].
    assert (Hm : forall k0, depMember dm k0 e ->
                            exists k' dep, In (k', dep) dm /\ In e dep).
    { intros k0 [dep [Hd He]]. exists k0, dep. split; auto.
      apply alookup_In. exact Hd. }
    destruct ty.
    + rewrite Hc in Hc1. inversion Hc1; subst. apply Hi1 in Hin.
      destruct Hin as [_ [[k' [_ H]] | [_ H]]]; eapply Hm; exact H.
    + destruct (Hadd (collect_determined _ _ _ _ _ _ Hc Hl))
        as [e2 [Hc2 [_ Hi2]]].
      rewrite Hc in Hc2. inversion Hc2; subst. apply Hi2 in Hin.
      destruct Hin as [_ [[k' [_ H]] | [[_ H] | [[_ [_ H]] | [_ [_ H]]]]]];
        eapply Hm; exact H.
    + rewrite Hc in Hc3. inversion Hc3; subst. apply Hi3 in Hin.
      destruct Hin as [_ [[k' [_ H]] | [[_ H] | [_ [_ H]]]]];
        eapply Hm; exact H.
    + destruct H2 as [effs' [Hc' [_ Hin']]].
      rewrite Hc in Hc'. inversion Hc'; subst effs'.
      apply Hin' in Hin. tauto.
Qed.

(** ** A stopped effect *)

(** [e] is stopped and detached: inactive, with an empty [deps], not
    running, and a member of no Dep. *)
Definition retired (e : eid) (s : state) : Prop :=
  (exists f, effectOf s e = Some f /\ active f = false /\ deps f = [])
  /\ ~ In e (effectStack s)
  /\ activeEffect s <> Some e
  /\ forall t k, ~ In e (depOf s t k).

Lemma retired_ext (e : eid) (s s' : state) :
  targetMap s' = targetMap s -> effects s' = effects s ->
  effectStack s' = effectStack s -> activeEffect s' = activeEffect s ->
  retired e s -> retired e s'.
Proof.
  intros Ht He Hs Ha [Hf [Hst [Hac Hd]]].
  unfold retired, effectOf, depOf, depsMapOf.
  rewrite Ht, He, Hs, Ha. auto.
Qed.

Lemma track_other (t : addr) (ty : TrackOpTypes) (k : key) (s : state)
  (e : eid) :
  activeEffect s <> Some e ->
  effectOf (track t ty k s) e = effectOf s e
  /\ forall t' k', In e (depOf (track t ty k s) t' k') -> In e (depOf s t' k').
Proof.
  intros Hne. unfold track. destruct (shouldTrack s); simpl; auto.
  destruct (activeEffect s) as [a | ] eqn:Ea; auto.
  change (depOf (emit (EvTrack a t k) s) t k) with (depOf s t k).
  destruct (mem a (depOf s t k)); auto.
  assert (Hae : a <> e) by congruence.
  split.
  - unfold effectOf. simpl. rewrite nth_error_update_nth.
    destruct (Nat.eqb a e) eqn:E; auto. apply Nat.eqb_eq in E. contradiction.
  - intros t' k'.
    match goal with
    | |- In e (depOf ?st t' k') -> _ =>
        change (depOf st t' k') with
          (depOf (set_dep t k (depOf s t k ++ [a]) (emit (EvTrack a t k) s))
             t' k')
    end.
    rewrite depOf_set_dep.
    destruct (pair_eqb (t, k) (t', k')) eqn:E; auto.
    apply pair_eqb_eq in E. inversion E; subst.
    rewrite in_app_iff. simpl. intros [H | [H | []]]; auto. contradiction.
Qed.

Lemma depOf_cleanup_sub (e0 : eid) (s : state) (x : eid) (t : addr) (k : key) :
  In x (depOf (cleanup e0 s) t k) -> In x (depOf s t k).
Proof.
  unfold cleanup.
  change (effectOf (emit (EvCleanup e0) s) e0) with (effectOf s e0).
  destruct (effectOf s e0) as [f | ]; auto.
  destruct (deps f) as [ | d0 ds0]; auto.
  match goal with
  | |- In x (depOf ?st t k) -> _ =>
      change (depOf st t k) with
        (depOf (fold_left (dep_delete e0) (d0 :: ds0) (emit (EvCleanup e0) s))
           t k)
  end.
  rewrite depOf_fold_delete.
  change (depOf (emit (EvCleanup e0) s) t k) with (depOf s t k).
  destruct (existsb (pair_eqb (t, k)) (d0 :: ds0)); auto.
  rewrite In_sdelete. tauto.
Qed.

Lemma retired_prim (e : eid) (p : prim) (s : state) :
  retired e s -> retired e (applyPrim p s).
Proof.
  intros Hr. destruct p; simpl;
    try (revert Hr; apply retired_ext; reflexivity).
  - destruct Hr as [Hf [Hst [Hac Hd]]].
    destruct (track_other t ty k s e Hac) as [He Hin].
    split; [ rewrite He; exact Hf | ].
    rewrite track_shape. simpl. split; [ exact Hst | ].
    split; [ exact Hac | ].
    intros t' k' H. apply (Hd t' k'). apply Hin.
    rewrite track_shape. exact H.
  - destruct Hr as [[f [Ef [Ha Hdp]]] [Hst [Hac Hd]]].
    split; [ | rewrite cleanup_shape; simpl;
               split; [ exact Hst | split; [ exact Hac | ] ] ].
    + rewrite effectOf_cleanup, Ef.
      destruct (Nat.eqb e0 e); simpl; eexists; split;
        try reflexivity; simpl; auto.
    + intros t k H. apply (Hd t k). apply (depOf_cleanup_sub e0 s e t k).
      rewrite cleanup_shape. exact H.
  - destruct Hr as [[f [Ef [Ha Hdp]]] [Hst [Hac Hd]]].
    split; [ | split; [ exact Hst | split; [ exact Hac | exact Hd ] ] ].
    unfold effectOf. simpl. rewrite nth_error_update_nth.
    fold (effectOf s e). rewrite Ef.
    destruct (Nat.eqb e0 e); simpl; eexists; split;
      try reflexivity; simpl; auto.
  - revert Hr. apply retired_ext; rewrite resetTracking_shape; reflexivity.
  - revert Hr. apply retired_ext; rewrite writeProp_shape; reflexivity.
  - destruct Hr as [[f [Ef [Ha Hdp]]] [Hst [Hac Hd]]].
    split; [ | split; [ exact Hst | split; [ exact Hac | exact Hd ] ] ].
    exists f. split; [ | auto ].
    unfold effectOf. simpl. rewrite nth_error_app1; [ exact Ef | ].
    apply (effectOf_lt s e f Ef).
Qed.

Lemma retired_closed (e : eid) :
  closed (fun s s' => retired e s -> retired e s').
Proof.
  constructor.
  - auto.
  - auto.
  - intros p s. apply retired_prim.
  - intros e0 f s _ _. apply retired_ext; reflexivity.
  - intros e0 f s s2 Ef Ha Hm Hbody Hr.
    assert (Hne : e0 <> e).
    { intros ->. destruct Hr as [[f' [Ef' [Ha' _]]] _]. congruence. }
    assert (Hc : retired e (cleanup e0 s))
      by (apply (retired_prim e (PCleanup e0)); exact Hr).
    assert (He : retired e (enter e0 (cleanup e0 s))).
    { destruct Hc as [Hf [Hst [Hac Hd]]].
      split; [ exact Hf | ]. split; [ | split; [ | exact Hd ] ].
      - simpl. intros [H | H]; [ contradiction | exact (Hst H) ].
      - simpl. congruence. }
    destruct (Hbody He) as [Hf [Hst [Hac Hd]]].
    split; [ rewrite leave_shape, resetTracking_shape; exact Hf | ].
    assert (Htl : ~ In e (tl (effectStack s2))).
    { intros H. apply Hst. destruct (effectStack s2); [ exact H | right; exact H ]. }
    rewrite leave_shape. simpl.
    split; [ exact Htl | ]. split.
    + destruct (tl (effectStack s2)) as [ | x r]; simpl; [ discriminate | ].
      intros H. inversion H; subst. apply Htl. left. reflexivity.
    + rewrite resetTracking_shape. exact Hd.
Qed.

Lemma exec_retired (e : eid) (n : nat) (p : prog) (s : state)
  (o : outcome value) (s' : state) :
  retired e s -> exec n p s = Some (o, s') -> retired e s'.
Proof.
  intros HI H. exact (@exec_rel _ (retired_closed e) n p s o s' H HI).
Qed.

Lemma stop_retires (call : prog -> M value) (e : eid) (f : ReactiveEffect)
  (s : state) :
  Inv s -> effectOf s e = Some f -> active f = true ->
  onStop (options f) = None ->
  ~ In e (effectStack s) -> activeEffect s <> Some e ->
  stop call e s = Some (Normal tt, deactivate e (cleanup e s))
  /\ retired e (deactivate e (cleanup e s)).
Proof.
  intros HI Ef Ha Ho Hst Hac. split.
  - unfold stop, bind, gets. rewrite Ef, Ha. unfold perform. simpl.
    rewrite Ho. reflexivity.
  - pose proof (Inv_cleanup e s HI) as [Hsym _].
    assert (Ec : effectOf (cleanup e s) e = Some (with_deps [] f)).
    { rewrite effectOf_cleanup, Nat.eqb_refl, Ef. reflexivity. }
    split; [ | split; [ | split ] ].
    + unfold effectOf. simpl. rewrite nth_error_update_nth, Nat.eqb_refl.
      fold (effectOf (cleanup e s) e). rewrite Ec. simpl.
      eexists. split; [ reflexivity | ]. simpl. auto.
    + simpl. rewrite cleanup_shape. exact Hst.
    + simpl. rewrite cleanup_shape. exact Hac.
    + intros t k H.
      change (depOf (deactivate e (cleanup e s)) t k)
        with (depOf (cleanup e s) t k) in H.
      apply (Hsym e t k) in H. destruct H as [f0 [E0 Hin]].
      rewrite Ec in E0. inversion E0; subst f0. destruct Hin.
Qed.

Lemma retired_not_collected (e : eid) (s : state) (t : addr)
  (dm : KeyToDepMap) (target : value) (ty : TriggerOpTypes)
  (k : option key) (nv : value) (effs : list eid) :
  retired e s -> keysUnique s -> depsMapOf s t = Some dm ->
  collect s dm target ty k nv = Normal effs -> ~ In e effs.
Proof.
  intros [_ [_ [_ Hd]]] Hu Hdm Hc Hin.
  destruct (collect_from_entries s dm target ty k nv effs e Hc Hin)
    as [k' [dep [Hkd He]]].
  apply (Hd t k'). unfold depOf. rewrite Hdm.
  rewrite (alookup_unique k' dep dm (Hu t dm Hdm) Hkd). exact He.
Qed.

Definition S4_stopped : state := deactivate 0 (cleanup 0 S4_state).

Definition S4_stopped_write_y : state :=
  match exec 20 (setP (VRef 2) "value" (VNum 99) (Ret VUndef)) S4_stopped with
  | Some (_, s) => s
  | None => init
  end.

(** [stop] is final.  (1) Stopping an active effect that is not running
    and has no [onStop] hook detaches it: afterwards it is inactive, its
    [deps] is empty and it is a member of no Dep.  (2) No program undoes
    this: whatever runs later, calls of the stopped effect included, the
    effect stays inactive, with empty [deps], off the stack and in no Dep.
    (3) So no later [trigger] collects it.  (4) Stopping an inactive
    effect does nothing. *)
Theorem stop_is_final :
  (forall (call : prog -> M value) (e : eid) (f : ReactiveEffect)
          (s : state),
      Inv s -> effectOf s e = Some f -> active f = true ->
      onStop (options f) = None ->
      ~ In e (effectStack s) -> activeEffect s <> Some e ->
      stop call e s = Some (Normal tt, deactivate e (cleanup e s))
      /\ retired e (deactivate e (cleanup e s)))
  /\ (forall (e : eid) (n : nat) (p : prog) (s : state) (o : outcome value)
             (s' : state),
         retired e s -> exec n p s = Some (o, s') -> retired e s')
  /\ (forall (e : eid) (s : state) (t : addr) (dm : KeyToDepMap)
             (target : value) (ty : TriggerOpTypes) (k : option key)
             (nv : value) (effs : list eid),
         retired e s -> keysUnique s -> depsMapOf s t = Some dm ->
         collect s dm target ty k nv = Normal effs -> ~ In e effs)
  /\ (forall (call : prog -> M value) (e : eid) (f : ReactiveEffect)
             (s : state),
         effectOf s e = Some f -> active f = false ->
         stop call e s = Some (Normal tt, s)).
Proof.
  split; [ exact stop_retires | ].
  split; [ exact exec_retired | ].
  split; [ exact retired_not_collected | ].
  intros call e f s Ef Ha. unfold stop, bind, gets. rewrite Ef, Ha.
  reflexivity.
Qed.

Lemma stop_is_final_witness :
  stop (exec 5) 0 S4_state = Some (Normal tt, S4_stopped)
  /\ retired 0 S4_stopped_write_y
  /\ runsOf 0 (log S4_stopped_write_y) = runsOf 0 (log S4_state).
Proof.
  destruct stop_is_final as [HA [HB _]].
  destruct (HA (exec 5) 0 S4_effect S4_state) as [Hs Hr].
  - apply Inv3_finalState.
  - vm_compute. reflexivity.
  - vm_compute. reflexivity.
  - vm_compute. reflexivity.
  - vm_compute. intros [].
  - vm_compute. discriminate.
  - split; [ exact Hs | ]. split; [ | vm_compute; reflexivity ].
    apply (HB 0 20 (setP (VRef 2) "value" (VNum 99) (Ret VUndef)) S4_stopped
             (Normal VUndef) S4_stopped_write_y Hr).
    vm_compute. reflexivity.
Defined.

(** ** Wrapping *)

(** The raw type of an ordinary object and whether it is extensible. *)
Definition rawTypeOf (o : obj) : rawType :=
  match o with
  | OPlain rt _ _ => rt
  | OArray _ _ _ => RTArray
  | _ => RTObject
  end.

Definition extensibleObj (o : obj) : bool :=
  match o with
  | OPlain _ _ ext | OArray _ _ ext => ext
  | _ => true
  end.

(** An ordinary object that [createReactiveObject] does not take for a
    proxy: it defines neither [RAW] nor [IS_READONLY]. *)
Definition unflagged (t : addr) (o : obj) : Prop :=
  ordinaryObj o /\ getOwn t o RAW = None /\ getOwn t o IS_READONLY = None.

Lemma ordinaryObj_notProxy (o : obj) : ordinaryObj o -> notProxy o.
Proof. destruct o; simpl; auto. Qed.

Lemma ordinary_type (s : state) (t : addr) (o : obj) :
  nth_error (heap s) t = Some o -> ordinaryObj o ->
  isExtensible s (VRef t) = extensibleObj o
  /\ toRawType s (VRef t) = rawTypeOf o.
Proof.
  intros Ht Ho. unfold isExtensible, toRawType.
  rewrite (underlying_raw s t o Ht (ordinaryObj_notProxy o Ho)).
  destruct o; simpl in Ho; try contradiction; split; reflexivity.
Qed.

(** The part of [wrap] before [createReactiveObject] looks at the proxy
    map, on an object that is not taken for a proxy. *)
Lemma wrap_unflagged (call : prog -> M value) (s : state) (t : addr)
  (o : obj) (ro sh : bool) :
  nth_error (heap s) t = Some o -> unflagged t o ->
  wrap call ro sh (VRef t) s =
  match alookup Nat.eqb t (proxyMapOf ro sh s) with
  | Some p => Some (Normal (VRef p), s)
  | None =>
      bind (getTargetType call (VRef t))
        (fun targetType =>
           match targetType with
           | INVALID => ret (VRef t)
           | _ =>
               bind (gets (fun s => List.length (heap s)))
                 (fun p => bind (perform (PNewProxy t ro sh))
                             (fun _ => ret (VRef p)))
           end) s
  end.
Proof.
  intros Ht [Ho [Hraw Hro]].
  pose proof (ordinaryObj_notProxy o Ho) as Hn.
  assert (Hc : createReactiveObject call (VRef t) ro sh s =
               match alookup Nat.eqb t (proxyMapOf ro sh s) with
               | Some p => Some (Normal (VRef p), s)
               | None =>
                   bind (getTargetType call (VRef t))
                     (fun targetType =>
                        match targetType with
                        | INVALID => ret (VRef t)
                        | _ =>
                            bind (gets (fun s => List.length (heap s)))
                              (fun p => bind (perform (PNewProxy t ro sh))
                                          (fun _ => ret (VRef p)))
                        end) s
               end).
  { unfold createReactiveObject. cbn [isObject negb].
    unfold bind at 1, gets at 1.
    rewrite (peek_raw_object s t o RAW Ht Hn), Hraw. cbn [truthy andb].
    unfold bind at 1, gets at 1. unfold existingProxy.
    destruct (alookup Nat.eqb t (proxyMapOf ro sh s)); [ reflexivity | ].
    unfold bind. destruct (getTargetType call (VRef t) s) as [[[tt | x] s1] | ];
      reflexivity. }
  unfold wrap, reactive, shallowReactive, readonly, shallowReadonly.
  destruct ro, sh; try exact Hc.
  unfold bind at 1, gets at 1.
  rewrite (peek_raw_object s t o IS_READONLY Ht Hn), Hro.
  cbn [truthy andb]. exact Hc.
Qed.

Lemma getTargetType_ordinary (n : nat) (s : state) (t : addr) (o : obj) :
  nth_error (heap s) t = Some o -> ordinaryObj o ->
  getTargetType (exec (S (S n))) (VRef t) s =
  Some (Normal (if truthy (ordinaryGet t o SKIP) || negb (extensibleObj o)
                then INVALID else targetTypeMap (rawTypeOf o)), s).
Proof.
  intros Ht Ho. destruct (ordinary_type s t o Ht Ho) as [Hext Hty].
  unfold getTargetType, bind, gets.
  rewrite (exec_get_ordinary n t o SKIP (VRef t) s Ht Ho), Hext.
  destruct (truthy (ordinaryGet t o SKIP) || negb (extensibleObj o));
    [ reflexivity | ].
  unfold ret. rewrite Hty. reflexivity.
Qed.


Lemma wrap_rejected (n : nat) (s : state) (t : addr) (o : obj)
  (ro sh : bool) :
  nth_error (heap s) t = Some o -> unflagged t o ->
  alookup Nat.eqb t (proxyMapOf ro sh s) = None ->
  truthy (ordinaryGet t o SKIP) = true
  \/ extensibleObj o = false
  \/ targetTypeMap (rawTypeOf o) = INVALID ->
  wrap (exec (S (S n))) ro sh (VRef t) s = Some (Normal (VRef t), s).
Proof.
  intros Ht Hu Hm Hbad.
  rewrite (wrap_unflagged _ s t o ro sh Ht Hu), Hm.
  unfold bind. rewrite (getTargetType_ordinary n s t o Ht (proj1 Hu)).
  destruct Hbad as [-> | [-> | Hty]]; try reflexivity.
  - rewrite orb_true_r. reflexivity.
  - rewrite Hty.
    destruct (truthy (ordinaryGet t o SKIP) || negb (extensibleObj o));
      reflexivity.
Qed.




Lemma aset_other_key (k k' : key) (v : value) (ps : props) :
  k <> k' -> alookup key_eqb k' (aset key_eqb k v ps) = alookup key_eqb k' ps.
Proof. apply (alookup_aset_other _ _ key_eqb key_eqb_eq). Qed.

Lemma aset_same_key (k : key) (v : value) (ps : props) :
  alookup key_eqb k (aset key_eqb k v ps) = Some v.
Proof. apply (alookup_aset_same _ _ key_eqb key_eqb_eq). Qed.

(** Marking an extensible ordinary object defines [SKIP] on it and leaves
    it unflagged. *)
Lemma markRaw_ordinary (s : state) (t : addr) (o : obj) :
  nth_error (heap s) t = Some o -> unflagged t o -> extensibleObj o = true ->
  exists o',
    markRaw (VRef t) s = Some (Normal tt, writeProp t SKIP (VBool true) s)
    /\ nth_error (heap (writeProp t SKIP (VBool true) s)) t = Some o'
    /\ unflagged t o'
    /\ ordinaryGet t o' SKIP = VBool true.
Proof.
  intros Ht [Ho [Hraw Hro]] Hext.
  pose proof (ordinaryObj_notProxy o Ho) as Hn.
  assert (Hw : exists o', ordinaryWrite o SKIP (VBool true) = SetOk o'
                          /\ unflagged t o'
                          /\ ordinaryGet t o' SKIP = VBool true).
  { destruct o as [rt ps ext | el ps ext | | | ]; simpl in Ho;
      try contradiction; simpl in Hext; subst ext.
    - exists (OPlain rt (aset key_eqb SKIP (VBool true) ps) true).
      simpl. unfold writeProps. rewrite orb_true_r.
      split; [ reflexivity | ]. split.
      + split; [ exact I | ]. simpl in *.
        rewrite !aset_other_key by discriminate. auto.
      + unfold ordinaryGet. simpl. rewrite aset_same_key. reflexivity.
    - exists (OArray el (aset key_eqb SKIP (VBool true) ps) true).
      simpl. unfold writeProps. rewrite orb_true_r.
      split; [ reflexivity | ]. split.
      + split; [ exact I | ].
        change (getOwn t (OArray el ps true) RAW)
          with (alookup key_eqb RAW ps) in Hraw.
        change (getOwn t (OArray el ps true) IS_READONLY)
          with (alookup key_eqb IS_READONLY ps) in Hro.
        change (getOwn t (OArray el (aset key_eqb SKIP (VBool true) ps) true)
                  RAW)
          with (alookup key_eqb RAW (aset key_eqb SKIP (VBool true) ps)).
        change (getOwn t (OArray el (aset key_eqb SKIP (VBool true) ps) true)
                  IS_READONLY)
          with (alookup key_eqb IS_READONLY
                  (aset key_eqb SKIP (VBool true) ps)).
        rewrite !aset_other_key by discriminate. auto.
      + unfold ordinaryGet.
        change (getOwn t (OArray el (aset key_eqb SKIP (VBool true) ps) true)
                  SKIP)
          with (alookup key_eqb SKIP (aset key_eqb SKIP (VBool true) ps)).
        rewrite aset_same_key. reflexivity. }
  destruct Hw as [o' [Hw [Hu Hs]]]. exists o'.
  split; [ | split; [ | split; [ exact Hu | exact Hs ] ] ].
  - unfold markRaw, bind, gets. rewrite (underlying_raw s t o Ht Hn), Hw.
    reflexivity.
  - unfold writeProp. rewrite Ht, Hw. simpl.
    rewrite nth_error_update_nth, Nat.eqb_refl, Ht. reflexivity.
Qed.

Lemma proxyMapOf_writeProp (a : addr) (k : key) (v : value) (s : state)
  (ro sh : bool) :
  proxyMapOf ro sh (writeProp a k v s) = proxyMapOf ro sh s.
Proof. rewrite writeProp_shape. reflexivity. Qed.

(** [markRaw] opts an object out of wrapping -- from then on.  After
    [markRaw(x)] on an extensible ordinary object, a wrap of [x] in a
    flavor that has no proxy of [x] yet returns [x] itself and creates
    nothing; a flavor in which [x] was wrapped before still returns the
    proxy it made then. *)
Theorem markRaw_opts_out :
  forall (n : nat) (s : state) (t : addr) (o : obj) (ro sh : bool),
    nth_error (heap s) t = Some o -> unflagged t o ->
    extensibleObj o = true ->
    let s1 := writeProp t SKIP (VBool true) s in
    markRaw (VRef t) s = Some (Normal tt, s1)
    /\ wrap (exec (S (S n))) ro sh (VRef t) s1
       = Some (Normal (match alookup Nat.eqb t (proxyMapOf ro sh s) with
                       | Some p => VRef p
                       | None => VRef t
                       end), s1).
Proof.
  intros n s t o ro sh Ht Hu Hext s1.
  destruct (markRaw_ordinary s t o Ht Hu Hext) as [o' [Hm [Ht' [Hu' Hs]]]].
  split; [ exact Hm | ].
  destruct (alookup Nat.eqb t (proxyMapOf ro sh s)) as [p | ] eqn:Ex.
  - rewrite (wrap_unflagged _ s1 t o' ro sh Ht' Hu').
    unfold s1. rewrite proxyMapOf_writeProp, Ex. reflexivity.
  - apply (wrap_rejected n s1 t o' ro sh Ht' Hu').
    + unfold s1. rewrite proxyMapOf_writeProp. exact Ex.
    + left. rewrite Hs. reflexivity.
Qed.

Definition wrapped_record : state :=
  finalState 5
    (NewObject RTObject [(KStr "a", VNum 1)] true (fun x =>
     Wrap false false x Ret)).

Lemma markRaw_opts_out_witness :
  markRaw (VRef 0) wrapped_record
  = Some (Normal tt, writeProp 0 SKIP (VBool true) wrapped_record)
  /\ wrap (exec 2) true false (VRef 0)
       (writeProp 0 SKIP (VBool true) wrapped_record)
     = Some (Normal (VRef 0), writeProp 0 SKIP (VBool true) wrapped_record).
Proof.
  apply (markRaw_opts_out 0 wrapped_record 0 record_a1 true false).
  - vm_compute. reflexivity.
  - repeat split.
  - reflexivity.
Defined.

(** ** Proxies are never altered *)

Definition proxiesPersist (s s' : state) : Prop :=
  forall a t ro sh,
    nth_error (heap s) a = Some (OProxy t ro sh) ->
    nth_error (heap s') a = Some (OProxy t ro sh).

Lemma proxiesPersist_heap (s s' : state) :
  heap s' = heap s -> proxiesPersist s s'.
Proof. intros H a t ro sh Ha. rewrite H. exact Ha. Qed.

Lemma proxiesPersist_closed : closed proxiesPersist.
Proof.
  constructor.
  - intros s a t ro sh H. exact H.
  - intros a b c H1 H2 x t ro sh H. apply H2, H1, H.
  - intros p s.
    assert (Happ : forall o, proxiesPersist s (heapAlloc o s)).
    { intros o a t ro sh H. simpl.
      rewrite nth_error_app1; [ exact H | ].
      apply nth_error_Some. congruence. }
    destruct p as [ | | | | | | | a k v | t isRo isSh | | | ]; simpl;
      try (apply proxiesPersist_heap; reflexivity).
    + apply proxiesPersist_heap. rewrite track_shape. reflexivity.
    + apply proxiesPersist_heap. rewrite cleanup_shape. reflexivity.
    + apply proxiesPersist_heap. rewrite resetTracking_shape. reflexivity.
    + apply Happ.
    + intros x t ro sh H. unfold writeProp.
      destruct (nth_error (heap s) a) as [oa | ] eqn:Ea; auto.
      destruct (ordinaryWrite oa k v) as [o' | | ] eqn:Ew; auto.
      simpl. rewrite nth_error_update_nth.
      destruct (Nat.eqb a x) eqn:E; auto.
      apply Nat.eqb_eq in E. subst x. rewrite H in Ea.
      inversion Ea; subst oa. discriminate.
    + intros x t0 ro sh H. apply (Happ (OProxy t isRo isSh)) in H.
      exact H.
  - intros e f s _ _. apply proxiesPersist_heap. reflexivity.
  - intros e f s s2 _ _ _ H a t ro sh Ha.
    rewrite leave_shape, resetTracking_shape. simpl. apply H.
    simpl. rewrite cleanup_shape. exact Ha.
Qed.

(** With an eligible target, a proxy of the flavor already in the map is
    what a wrap returns. *)
Lemma eligible_unflagged (t : addr) (o : obj) : eligible o -> unflagged t o.
Proof.
  intros He. destruct (eligible_facts t o He) as [Ho [_ [Hg _]]].
  split; [ exact Ho | ]. split; apply Hg; simpl; auto.
Qed.

Lemma wrap_again (call : prog -> M value) (s : state) (t p : addr) (o : obj)
  (ro sh : bool) :
  nth_error (heap s) t = Some o -> eligible o ->
  alookup Nat.eqb t (proxyMapOf ro sh s) = Some p ->
  wrap call ro sh (VRef t) s = Some (Normal (VRef p), s).
Proof.
  intros Ht He Hm.
  rewrite (wrap_unflagged call s t o ro sh Ht (eligible_unflagged t o He)), Hm.
  reflexivity.
Qed.

(** One proxy per target and flavor.  The wrap of an eligible target
    returns the same proxy each time, the second time without changing
    anything; and the proxies of the four flavors of one target are four
    different objects. *)
Theorem one_proxy_per_flavor :
  forall (n : nat) (s : state) (t : addr) (o : obj) (ro sh : bool),
    wfMaps s -> nth_error (heap s) t = Some o -> eligible o ->
    exists p s1,
      wrap (exec (S (S n))) ro sh (VRef t) s = Some (Normal (VRef p), s1)
      /\ wrap (exec (S (S n))) ro sh (VRef t) s1 = Some (Normal (VRef p), s1)
      /\ forall (ro' sh' : bool),
           exists q s2,
             wrap (exec (S (S n))) ro' sh' (VRef t) s1
             = Some (Normal (VRef q), s2)
             /\ (q = p <-> ro' = ro /\ sh' = sh).
Proof.
  intros n s t o ro sh Hw Ht He.
  destruct (wrap_eligible n s t o ro sh Hw Ht He)
    as [p [s1 [Hwrap [Hp [Hm Ht1]]]]].
  exists p, s1. split; [ exact Hwrap | ].
  pose proof (wrap_again (exec (S (S n))) s1 t p o ro sh Ht1 He Hm) as Hagain.
  split; [ exact Hagain | ].
  intros ro' sh'.
  assert (Hw1 : wfMaps s1).
  { exact (rel_wrap wfMaps_closed (exec (S (S n)))
             (exec_rel wfMaps_closed (S (S n))) ro sh (VRef t) s Hwrap Hw). }
  destruct (wrap_eligible n s1 t o ro' sh' Hw1 Ht1 He)
    as [q [s2 [Hwrap2 [Hq _]]]].
  exists q, s2. split; [ exact Hwrap2 | ].
  pose proof (rel_wrap proxiesPersist_closed (exec (S (S n)))
                (exec_rel proxiesPersist_closed (S (S n))) ro' sh' (VRef t)
                s1 Hwrap2 p t ro sh Hp) as Hp2.
  split.
  - intros ->. rewrite Hq in Hp2. inversion Hp2. auto.
  - intros [-> ->]. rewrite Hagain in Hwrap2. inversion Hwrap2. reflexivity.
Qed.

Lemma one_proxy_per_flavor_witness :
  exists p s1,
    wrap (exec 2) false false (VRef 0) one_record = Some (Normal (VRef p), s1)
    /\ wrap (exec 2) false false (VRef 0) s1 = Some (Normal (VRef p), s1)
    /\ forall (ro' sh' : bool),
         exists q s2,
           wrap (exec 2) ro' sh' (VRef 0) s1 = Some (Normal (VRef q), s2)
           /\ (q = p <-> ro' = false /\ sh' = false).
Proof.
  apply (one_proxy_per_flavor 0 one_record 0 record_a1 false false).
  - apply wfMaps_finalState.
  - vm_compute. reflexivity.
  - simpl. split; [ discriminate | ].
    intros k [<- | [<- | [<- | [<- | []]]]]; reflexivity.
Defined.

(** ** Wrapping a proxy; the flags of a proxy *)

Lemma peek_flags (s : state) (p t : addr) (ro sh : bool) :
  nth_error (heap s) p = Some (OProxy t ro sh) ->
  peek s (VRef p) IS_REACTIVE = VBool (negb ro)
  /\ peek s (VRef p) IS_READONLY = VBool ro.
Proof. intros Hp. unfold peek. rewrite Hp. split; reflexivity. Qed.

Lemma wrap_keeps_proxy (call : prog -> M value) (s : state) (p t : addr)
  (ro sh ro' sh' : bool) :
  nth_error (heap s) p = Some (OProxy t ro sh) ->
  alookup Nat.eqb t (proxyMapOf ro sh s) = Some p ->
  ro' = false \/ ro = true ->
  wrap call ro' sh' (VRef p) s = Some (Normal (VRef p), s).
Proof.
  intros Hp Hm Hfl.
  pose proof (peek_proxy_raw s p t ro sh Hp Hm) as Hraw.
  destruct (peek_flags s p t ro sh Hp) as [Hrx Hro].
  assert (Hc : forall sh0,
             createReactiveObject call (VRef p) ro' sh0 s
             = Some (Normal (VRef p), s)).
  { intros sh0. unfold createReactiveObject, bind, gets. cbn [isObject negb].
    rewrite Hraw, Hrx.
    destruct Hfl as [-> | ->]; [ reflexivity | ].
    destruct ro'; reflexivity. }
  unfold wrap, reactive, shallowReactive, readonly, shallowReadonly.
  destruct ro', sh'; try apply Hc.
  unfold bind at 1, gets at 1. rewrite Hro.
  destruct ro; [ reflexivity | apply (Hc false) ].
Qed.

(** Wraps do not nest, with one exception.  Given the proxy that the map
    holds for a target, [reactive] and [shallowReactive] return it as it
    is, whatever its flavor; [readonly] and [shallowReadonly] return it as
    it is when it is read-only.  (The exception, a read-only wrap of a
    mutable proxy, makes a read-only proxy of the proxy.) *)
Theorem wrap_of_proxy :
  forall (call : prog -> M value) (s : state) (p t : addr)
         (ro sh ro' sh' : bool),
    nth_error (heap s) p = Some (OProxy t ro sh) ->
    alookup Nat.eqb t (proxyMapOf ro sh s) = Some p ->
    ro' = false \/ ro = true ->
    wrap call ro' sh' (VRef p) s = Some (Normal (VRef p), s).
Proof. exact wrap_keeps_proxy. Qed.

Definition readonly_record : state :=
  finalState 5
    (NewObject RTObject [(KStr "a", VNum 1)] true (fun x =>
     Wrap true false x Ret)).

Lemma wrap_of_proxy_witness :
  wrap (exec 2) false true (VRef 1) readonly_record
  = Some (Normal (VRef 1), readonly_record).
Proof.
  apply (wrap_of_proxy (exec 2) readonly_record 1 0 true false false true).
  - vm_compute. reflexivity.
  - vm_compute. reflexivity.
  - left. reflexivity.
Defined.

Lemma isReactive_fuel_base (d : nat) (s : state) (v : value) :
  isReadonly s v = false ->
  isReactive_fuel d s v = truthy v && truthy (peek s v IS_REACTIVE).
Proof. intros H. destruct d; simpl; rewrite H; reflexivity. Qed.

Lemma isReadonly_proxy (s : state) (p t : addr) (ro sh : bool) :
  nth_error (heap s) p = Some (OProxy t ro sh) ->
  isReadonly s (VRef p) = ro.
Proof.
  intros Hp. unfold isReadonly.
  rewrite (proj2 (peek_flags s p t ro sh Hp)). destruct ro; reflexivity.
Qed.

Lemma isReactive_mutable (s : state) (p t : addr) (sh : bool) :
  nth_error (heap s) p = Some (OProxy t false sh) ->
  isReactive s (VRef p) = true.
Proof.
  intros Hp. unfold isReactive.
  rewrite isReactive_fuel_base by apply (isReadonly_proxy s p t false sh Hp).
  rewrite (proj1 (peek_flags s p t false sh Hp)). reflexivity.
Qed.

Lemma isReactive_readonly (s : state) (p t : addr) (sh : bool) :
  nth_error (heap s) p = Some (OProxy t true sh) ->
  alookup Nat.eqb t (proxyMapOf true sh s) = Some p ->
  isReactive s (VRef p) = isReactive_fuel (List.length (heap s)) s (VRef t).
Proof.
  intros Hp Hm. unfold isReactive. cbn [isReactive_fuel].
  rewrite (isReadonly_proxy s p t true sh Hp).
  rewrite (peek_proxy_raw s p t true sh Hp Hm). reflexivity.
Qed.

(** An ordinary object that defines none of the flags. *)
Definition flagless (t : addr) (o : obj) : Prop :=
  ordinaryObj o /\ getOwn t o IS_REACTIVE = None
  /\ getOwn t o IS_READONLY = None.

Lemma flagless_plain (s : state) (t : addr) (o : obj) (d : nat) :
  nth_error (heap s) t = Some o -> flagless t o ->
  isReadonly s (VRef t) = false /\ isReactive_fuel d s (VRef t) = false.
Proof.
  intros Ht [Ho [Hrx Hro]]. pose proof (ordinaryObj_notProxy o Ho) as Hn.
  assert (H1 : isReadonly s (VRef t) = false).
  { unfold isReadonly.
    rewrite (peek_raw_object s t o IS_READONLY Ht Hn), Hro. reflexivity. }
  split; [ exact H1 | ].
  rewrite (isReactive_fuel_base d s (VRef t) H1).
  rewrite (peek_raw_object s t o IS_REACTIVE Ht Hn), Hrx. reflexivity.
Qed.

(** What [isReadonly], [isReactive] and [isProxy] answer.  A proxy is
    read-only according to its flavor and is always a proxy.  A mutable
    proxy is reactive.  A read-only proxy of an ordinary object is not
    reactive; a read-only proxy of a mutable proxy is.  An ordinary object
    without the flag properties, and a value that is not an object, are
    neither reactive, read-only nor proxies. *)
Theorem proxy_flags :
  (forall (s : state) (p t : addr) (ro sh : bool),
      nth_error (heap s) p = Some (OProxy t ro sh) ->
      isReadonly s (VRef p) = ro
      /\ (ro = false -> isReactive s (VRef p) = true)
      /\ isProxy s (VRef p) = true)
  /\ (forall (s : state) (p t : addr) (sh : bool) (o : obj),
         nth_error (heap s) p = Some (OProxy t true sh) ->
         alookup Nat.eqb t (proxyMapOf true sh s) = Some p ->
         nth_error (heap s) t = Some o ->
         (flagless t o -> isReactive s (VRef p) = false)
         /\ (forall t' sh', o = OProxy t' false sh' ->
                            isReactive s (VRef p) = true))
  /\ (forall (s : state) (t : addr) (o : obj),
         nth_error (heap s) t = Some o -> flagless t o ->
         isReadonly s (VRef t) = false /\ isReactive s (VRef t) = false
         /\ isProxy s (VRef t) = false)
  /\ (forall (s : state) (v : value),
         isObject v = false ->
         isReadonly s v = false /\ isReactive s v = false
         /\ isProxy s v = false).
Proof.
  split; [ | split; [ | split ] ].
  - intros s p t ro sh Hp.
    pose proof (isReadonly_proxy s p t ro sh Hp) as H1.
    split; [ exact H1 | ]. split.
    + intros ->. apply (isReactive_mutable s p t sh Hp).
    + unfold isProxy. destruct ro.
      * rewrite H1. apply orb_true_r.
      * rewrite (isReactive_mutable s p t sh Hp). reflexivity.
  - intros s p t sh o Hp Hm Ht.
    rewrite (isReactive_readonly s p t sh Hp Hm). split.
    + intros Hf. apply (flagless_plain s t o _ Ht Hf).
    + intros t' sh' ->.
      rewrite isReactive_fuel_base
        by apply (isReadonly_proxy s t t' false sh' Ht).
      rewrite (proj1 (peek_flags s t t' false sh' Ht)). reflexivity.
  - intros s t o Ht Hf.
    destruct (flagless_plain s t o (S (List.length (heap s))) Ht Hf)
      as [H1 H2].
    unfold isProxy, isReactive. rewrite H1, H2. auto.
  - intros s v Hv.
    assert (Hp : forall k, peek s v k = VUndef).
    { intros k. destruct v; try reflexivity. simpl in Hv. discriminate. }
    assert (H1 : isReadonly s v = false).
    { unfold isReadonly. rewrite Hp. apply andb_false_r. }
    assert (H2 : isReactive s v = false).
    { unfold isReactive. rewrite isReactive_fuel_base by exact H1.
      rewrite Hp. apply andb_false_r. }
    unfold isProxy. rewrite H1, H2. auto.
Qed.

Definition layered_state : state := finalState 20 layered_read.

Lemma proxy_flags_witness :
  isReadonly layered_state (VRef 2) = true
  /\ isReactive layered_state (VRef 2) = true
  /\ isReactive layered_state (VRef 0) = false.
Proof.
  destruct proxy_flags as [H1 [H2 [H3 _]]].
  split; [ | split ].
  - apply (H1 layered_state 2 1 true false). vm_compute. reflexivity.
  - apply (proj2 (H2 layered_state 2 1 false (OProxy 0 false false)
                    ltac:(vm_compute; reflexivity)
                    ltac:(vm_compute; reflexivity)
                    ltac:(vm_compute; reflexivity)) 0 false).
    reflexivity.
  - apply (H3 layered_state 0 record_a1).
    + vm_compute. reflexivity.
    + repeat split.
Defined.

(** ** Reading through a proxy *)

(** The get handler of a proxy of a record or array. *)
Lemma exec_get_proxy (n : nat) (s : state) (p t : addr) (o : obj)
  (ro sh : bool) (k : key) (receiver : value) :
  nth_error (heap s) p = Some (OProxy t ro sh) ->
  nth_error (heap s) t = Some o -> plainObj o ->
  exec (S (S (S n))) (ReflectGet (VRef p) k receiver Ret) s
  = bind (createGetter (exec (S (S n))) ro sh (VRef t) k receiver)
      (fun v => exec (S (S n)) (Ret v)) s.
Proof.
  intros Hp Ht Hpl.
  change (exec (S (S (S n))) (ReflectGet (VRef p) k receiver Ret))
    with (bind (reflectGet (exec (S (S n))) (VRef p) k receiver)
            (fun v => exec (S (S n)) (Ret v))).
  unfold bind at 1. unfold reflectGet, bind at 1, gets at 1. rewrite Hp.
  unfold bind at 1, gets at 1. rewrite (toRawType_plain s t o Ht Hpl).
  reflexivity.
Qed.

Lemma isArray_plain (s : state) (t : addr) (o : obj) :
  nth_error (heap s) t = Some o -> plainObj o ->
  isArray s (VRef t) = match o with OArray _ _ _ => true | _ => false end.
Proof.
  intros Ht Hpl. unfold isArray.
  rewrite (underlying_raw s t o Ht (plainObj_notProxy o Hpl)).
  destruct o; reflexivity.
Qed.

Lemma untracked_flags (n : nat) (s : state) (p t : addr) (o : obj)
  (ro sh : bool) (receiver : value) :
  nth_error (heap s) p = Some (OProxy t ro sh) ->
  nth_error (heap s) t = Some o -> plainObj o ->
  exec (S (S (S n))) (ReflectGet (VRef p) IS_REACTIVE receiver Ret) s
  = Some (Normal (VBool (negb ro)), s)
  /\ exec (S (S (S n))) (ReflectGet (VRef p) IS_READONLY receiver Ret) s
     = Some (Normal (VBool ro), s)
  /\ (alookup Nat.eqb t (proxyMapOf ro sh s) = Some p ->
      exec (S (S (S n))) (ReflectGet (VRef p) RAW (VRef p) Ret) s
      = Some (Normal (VRef t), s)).
Proof.
  intros Hp Ht Hpl. split; [ | split ].
  - rewrite (exec_get_proxy n s p t o ro sh _ _ Hp Ht Hpl). reflexivity.
  - rewrite (exec_get_proxy n s p t o ro sh _ _ Hp Ht Hpl). reflexivity.
  - intros Hm. rewrite (exec_get_proxy n s p t o ro sh _ _ Hp Ht Hpl).
    unfold createGetter.
    change (key_eqb RAW IS_REACTIVE) with false.
    change (key_eqb RAW IS_READONLY) with false. cbv iota.
    unfold bind at 1. unfold bind at 1, gets at 1.
    unfold registeredProxy, existingProxy. rewrite Hm.
    change (key_eqb RAW RAW) with true. simpl. rewrite Nat.eqb_refl.
    reflexivity.
Qed.

Lemma untracked_keys (n : nat) (s : state) (p t : addr) (o : obj)
  (ro sh : bool) (k : key) (receiver : value) :
  nth_error (heap s) p = Some (OProxy t ro sh) ->
  nth_error (heap s) t = Some o -> plainObj o ->
  (if isSymbol k then builtInSymbols_has k else isNonTrackableKeys k) = true ->
  exists v,
    exec (S (S (S n))) (ReflectGet (VRef p) k receiver Ret) s
    = Some (Normal v, s).
Proof.
  intros Hp Ht Hpl Hk.
  rewrite (exec_get_proxy n s p t o ro sh _ _ Hp Ht Hpl).
  assert (Hne : key_eqb k IS_REACTIVE = false /\ key_eqb k IS_READONLY = false
                /\ key_eqb k RAW = false /\ isArrayMethod k = false).
  { destruct k as [str | sy]; simpl in Hk.
    - apply orb_true_iff in Hk. destruct Hk as [Hk | Hk];
        [ apply orb_true_iff in Hk; destruct Hk as [Hk | Hk] | ];
        apply String.eqb_eq in Hk; subst str; repeat split; reflexivity.
    - repeat split; reflexivity. }
  destruct Hne as [H1 [H2 [H3 H4]]].
  unfold createGetter. rewrite H1, H2.
  unfold bind at 1. unfold bind at 1, gets at 1. rewrite H3. cbn [andb].
  unfold bind at 1, gets at 1. rewrite H4, andb_false_r.
  unfold bind at 1.
  rewrite (exec_get_plain n t o k receiver s Ht Hpl). rewrite Hk.
  eexists. reflexivity.
Qed.

Lemma untracked_methods (n : nat) (s : state) (p t : addr)
  (el : list value) (ps : props) (ext : bool) (sh : bool) (k : key)
  (receiver : value) :
  nth_error (heap s) p = Some (OProxy t false sh) ->
  nth_error (heap s) t = Some (OArray el ps ext) ->
  isArrayMethod k = true ->
  exec (S (S (S n))) (ReflectGet (VRef p) k receiver Ret) s
  = Some (Normal (instrumented k), s).
Proof.
  intros Hp Ht Hk.
  rewrite (exec_get_proxy n s p t _ false sh _ _ Hp Ht I).
  assert (Hne : key_eqb k IS_REACTIVE = false /\ key_eqb k IS_READONLY = false
                /\ key_eqb k RAW = false).
  { destruct k as [str | sy]; [ | discriminate ].
    simpl in Hk. unfold arrayMethods in Hk. simpl in Hk.
    repeat (apply orb_true_iff in Hk; destruct Hk as [Hk | Hk];
            [ apply String.eqb_eq in Hk; subst str; repeat split; reflexivity
            | ]).
    discriminate. }
  destruct Hne as [H1 [H2 H3]].
  unfold createGetter. rewrite H1, H2.
  unfold bind at 1. unfold bind at 1, gets at 1. rewrite H3. cbn [andb].
  unfold bind at 1, gets at 1.
  rewrite (isArray_plain s t _ Ht I), Hk. reflexivity.
Qed.

(** Reads that never track.  Through a proxy of a record or array, of any
    flavor and whatever effect is running: the flags [IS_REACTIVE] and
    [IS_READONLY] are answered from the flavor and [RAW], read on the
    proxy itself, with the target; a read of [__proto__], [__v_isRef],
    [__isVue] or of a built-in symbol returns without tracking; and on a
    mutable proxy of an array the names [includes], [indexOf],
    [lastIndexOf], [push], [pop], [shift], [unshift] and [splice] yield
    the instrumented method.  None of these reads changes the state. *)
Theorem reads_that_never_track :
  (forall (n : nat) (s : state) (p t : addr) (o : obj) (ro sh : bool)
          (receiver : value),
      nth_error (heap s) p = Some (OProxy t ro sh) ->
      nth_error (heap s) t = Some o -> plainObj o ->
      exec (S (S (S n))) (ReflectGet (VRef p) IS_REACTIVE receiver Ret) s
      = Some (Normal (VBool (negb ro)), s)
      /\ exec (S (S (S n))) (ReflectGet (VRef p) IS_READONLY receiver Ret) s
         = Some (Normal (VBool ro), s)
      /\ (alookup Nat.eqb t (proxyMapOf ro sh s) = Some p ->
          exec (S (S (S n))) (ReflectGet (VRef p) RAW (VRef p) Ret) s
          = Some (Normal (VRef t), s)))
  /\ (forall (n : nat) (s : state) (p t : addr) (o : obj) (ro sh : bool)
             (k : key) (receiver : value),
         nth_error (heap s) p = Some (OProxy t ro sh) ->
         nth_error (heap s) t = Some o -> plainObj o ->
         (if isSymbol k then builtInSymbols_has k
          else isNonTrackableKeys k) = true ->
         exists v,
           exec (S (S (S n))) (ReflectGet (VRef p) k receiver Ret) s
           = Some (Normal v, s))
  /\ (forall (n : nat) (s : state) (p t : addr) (el : list value)
             (ps : props) (ext : bool) (sh : bool) (k : key)
             (receiver : value),
         nth_error (heap s) p = Some (OProxy t false sh) ->
         nth_error (heap s) t = Some (OArray el ps ext) ->
         isArrayMethod k = true ->
         exec (S (S (S n))) (ReflectGet (VRef p) k receiver Ret) s
         = Some (Normal (instrumented k), s)).
Proof.
  split; [ exact untracked_flags | ].
  split; [ exact untracked_keys | exact untracked_methods ].
Qed.

Definition S2_running : state := enter 0 (cleanup 0 S2_state).

Lemma reads_that_never_track_witness :
  exec 3 (ReflectGet (VRef 1) (KStr "push") (VRef 1) Ret) S2_running
  = Some (Normal (instrumented (KStr "push")), S2_running)
  /\ exec 3 (ReflectGet (VRef 1) IS_REACTIVE (VRef 1) Ret) S2_running
     = Some (Normal (VBool true), S2_running)
  /\ exists v,
       exec 3 (ReflectGet (VRef 1) (KSym (SymBuiltIn 0)) (VRef 1) Ret)
         S2_running
       = Some (Normal v, S2_running).
Proof.
  destruct reads_that_never_track as [H1 [H2 H3]].
  split; [ | split ].
  - apply (H3 0 S2_running 1 0 [VNum 10; VNum 20; VNum 30; VNum 40] [] true
             false (KStr "push") (VRef 1)).
    + vm_compute. reflexivity.
    + vm_compute. reflexivity.
    + reflexivity.
  - apply (H1 0 S2_running 1 0
             (OArray [VNum 10; VNum 20; VNum 30; VNum 40] [] true)
             false false (VRef 1)).
    + vm_compute. reflexivity.
    + vm_compute. reflexivity.
    + exact I.
  - apply (H2 0 S2_running 1 0
             (OArray [VNum 10; VNum 20; VNum 30; VNum 40] [] true)
             false false (KSym (SymBuiltIn 0)) (VRef 1)).
    + vm_compute. reflexivity.
    + vm_compute. reflexivity.
    + exact I.
    + reflexivity.
Defined.

(** A key whose read through a proxy takes the ordinary path: not one of
    the flags, trackable, and not the name of an instrumented method. *)
Definition ordinaryKey (k : key) : Prop :=
  key_eqb k IS_REACTIVE = false /\ key_eqb k IS_READONLY = false
  /\ key_eqb k RAW = false
  /\ (if isSymbol k then builtInSymbols_has k else isNonTrackableKeys k)
     = false
  /\ isArrayMethod k = false.

(** The state after the tracking step of a read through a proxy. *)
Definition afterTrack (ro : bool) (t : addr) (k : key) (s : state) : state :=
  if ro then s else track t GET k s.

Lemma heap_afterTrack (ro : bool) (t : addr) (k : key) (s : state) :
  heap (afterTrack ro t k s) = heap s.
Proof. unfold afterTrack. destruct ro; auto. rewrite track_shape. reflexivity. Qed.

Lemma maps_afterTrack (ro : bool) (t : addr) (k : key) (s : state)
  (ro' sh' : bool) :
  proxyMapOf ro' sh' (afterTrack ro t k s) = proxyMapOf ro' sh' s.
Proof. unfold afterTrack. destruct ro; auto. rewrite track_shape. reflexivity. Qed.

(** The get handler on an ordinary key, up to the point where it looks at
    the value read. *)
Lemma createGetter_ordinaryKey (n : nat) (s : state) (t : addr) (o : obj)
  (ro sh : bool) (k : key) (receiver : value) :
  nth_error (heap s) t = Some o -> plainObj o -> ordinaryKey k ->
  createGetter (exec (S (S n))) ro sh (VRef t) k receiver s =
  let res := ordinaryGet t o k in
  let s1 := afterTrack ro t k s in
  if sh then Some (Normal res, s1)
  else if isRef s1 res then
         (if negb (isArray s (VRef t))
          then exec (S (S n)) (ReflectGet res VALUE res Ret) s1
          else
            match isIntegerKey k with
            | Some true => Some (Normal res, s1)
            | Some false => exec (S (S n)) (ReflectGet res VALUE res Ret) s1
            | None => Some (Thrown NotModelled, s1)
            end)
       else if isObject res
            then (if ro then readonly (exec (S (S n))) res s1
                  else reactive (exec (S (S n))) res s1)
            else Some (Normal res, s1).
Proof.
  intros Ht Hpl [H1 [H2 [H3 [H4 H5]]]].
  unfold createGetter. rewrite H1, H2.
  unfold bind at 1. unfold bind at 1, gets at 1. rewrite H3. cbn [andb].
  unfold bind at 1, gets at 1. rewrite H5, andb_false_r.
  unfold bind at 1.
  rewrite (exec_get_plain n t o k receiver s Ht Hpl). rewrite H4.
  unfold bind at 1.
  assert (Htr : (if negb ro then trackV (VRef t) GET k else ret tt) s
                = Some (Normal tt, afterTrack ro t k s)).
  { unfold afterTrack. destruct ro; reflexivity. }
  rewrite Htr. cbv zeta.
  destruct sh; [ reflexivity | ].
  unfold gets.
  destruct (isRef (afterTrack ro t k s) (ordinaryGet t o k)).
  - destruct (negb (isArray s (VRef t))); [ reflexivity | ].
    destruct (isIntegerKey k) as [[ | ] | ]; reflexivity.
  - destruct (isObject (ordinaryGet t o k)); [ | reflexivity ].
    destruct ro; reflexivity.
Qed.

Lemma wrap_eligible_result (n : nat) (s : state) (t : addr) (o : obj)
  (ro sh : bool) :
  nth_error (heap s) t = Some o -> eligible o ->
  wrap (exec (S (S n))) ro sh (VRef t) s =
  match alookup Nat.eqb t (proxyMapOf ro sh s) with
  | Some p => Some (Normal (VRef p), s)
  | None => Some (Normal (VRef (List.length (heap s))), newProxy t ro sh s)
  end.
Proof.
  intros Ht He.
  rewrite (wrap_unflagged _ s t o ro sh Ht (eligible_unflagged t o He)).
  destruct (alookup Nat.eqb t (proxyMapOf ro sh s)); [ reflexivity | ].
  destruct (eligible_facts t o He) as [Ho [_ [_ Hskip]]].
  unfold bind at 1. rewrite (getTargetType_ordinary n s t o Ht Ho), Hskip.
  assert (Hx : extensibleObj o = true /\ targetTypeMap (rawTypeOf o) <> INVALID).
  { destruct o as [rt ps [ | ] | el ps [ | ] | | | ]; simpl in He;
      try contradiction; split; try reflexivity; try discriminate.
    exact (proj1 He). }
  destruct Hx as [-> Hty]. cbn [truthy orb negb].
  destruct (targetTypeMap (rawTypeOf o)); try reflexivity. contradiction.
Qed.

(** An ordinary object without the ref brand is not a ref. *)
Lemma isRef_unbranded (s : state) (c : addr) (oc : obj) :
  nth_error (heap s) c = Some oc -> notProxy oc ->
  getOwn c oc (KStr "__v_isRef") = None ->
  isRef s (VRef c) = false.
Proof.
  intros Hc Hn Hb. unfold isRef.
  rewrite (peek_raw_object s c oc _ Hc Hn), Hb. reflexivity.
Qed.

Lemma nested_read (n : nat) (s : state) (p t c : addr) (o oc : obj)
  (ro sh : bool) (k : key) :
  nth_error (heap s) p = Some (OProxy t ro sh) ->
  nth_error (heap s) t = Some o -> plainObj o -> ordinaryKey k ->
  ordinaryGet t o k = VRef c ->
  nth_error (heap s) c = Some oc -> eligible oc ->
  getOwn c oc (KStr "__v_isRef") = None ->
  exec (S (S (S n))) (ReflectGet (VRef p) k (VRef p) Ret) s =
  let s1 := afterTrack ro t k s in
  if sh then Some (Normal (VRef c), s1)
  else
    match alookup Nat.eqb c (proxyMapOf ro false s) with
    | Some q => Some (Normal (VRef q), s1)
    | None =>
        Some (Normal (VRef (List.length (heap s))), newProxy c ro false s1)
    end.
Proof.
  intros Hp Ht Hpl Hk Hres Hc He Hb.
  rewrite (exec_get_proxy n s p t o ro sh _ _ Hp Ht Hpl).
  unfold bind. rewrite (createGetter_ordinaryKey n s t o ro sh k _ Ht Hpl Hk).
  cbv zeta. rewrite Hres.
  destruct sh; [ reflexivity | ].
  assert (Hc1 : nth_error (heap (afterTrack ro t k s)) c = Some oc)
    by (rewrite heap_afterTrack; exact Hc).
  destruct (eligible_facts c oc He) as [_ [Hn _]].
  rewrite (isRef_unbranded _ c oc Hc1 Hn Hb). cbn [isObject].
  assert (Hw : (if ro then readonly (exec (S (S n))) (VRef c)
                         (afterTrack ro t k s)
                else reactive (exec (S (S n))) (VRef c)
                       (afterTrack ro t k s))
               = wrap (exec (S (S n))) ro false (VRef c)
                   (afterTrack ro t k s)).
  { destruct ro; reflexivity. }
  rewrite Hw, (wrap_eligible_result n _ c oc ro false Hc1 He).
  rewrite maps_afterTrack, heap_afterTrack.
  destruct (alookup Nat.eqb c (proxyMapOf ro false s)); reflexivity.
Qed.

(** A read of a property that holds an eligible object [c], through a
    proxy of a record or array.  A shallow proxy returns [c] itself.  A
    deep proxy returns the proxy of [c] in its own flavor (a read-only
    proxy gives read-only proxies, a mutable one mutable proxies): the one
    the map holds, or a new one, made at this first read.  A second read
    returns the same proxy.  A mutable proxy tracks the key at each read; a
    read-only one tracks nothing. *)
Theorem nested_reads_wrap_lazily :
  forall (n : nat) (s : state) (p t c : addr) (o oc : obj) (ro sh : bool)
         (k : key),
    wfMaps s ->
    nth_error (heap s) p = Some (OProxy t ro sh) ->
    nth_error (heap s) t = Some o -> plainObj o -> ordinaryKey k ->
    ordinaryGet t o k = VRef c ->
    nth_error (heap s) c = Some oc -> eligible oc ->
    getOwn c oc (KStr "__v_isRef") = None ->
    exists v s1,
      exec (S (S (S n))) (ReflectGet (VRef p) k (VRef p) Ret) s
      = Some (Normal v, s1)
      /\ exec (S (S (S n))) (ReflectGet (VRef p) k (VRef p) Ret) s1
         = Some (Normal v, afterTrack ro t k s1)
      /\ (sh = true -> v = VRef c /\ s1 = afterTrack ro t k s)
      /\ (sh = false ->
          exists q, v = VRef q
                    /\ nth_error (heap s1) q = Some (OProxy c ro false)
                    /\ alookup Nat.eqb c (proxyMapOf ro false s1) = Some q
                    /\ (s1 = afterTrack ro t k s
                        \/ s1 = newProxy c ro false (afterTrack ro t k s))).
Proof.
  intros n s p t c o oc ro sh k Hw Hp Ht Hpl Hk Hres Hc He Hb.
  pose proof (nested_read n s p t c o oc ro sh k Hp Ht Hpl Hk Hres Hc He Hb)
    as H1.
  cbv zeta in H1.
  set (s0 := afterTrack ro t k s) in *.
  assert (Hh : heap s0 = heap s) by apply heap_afterTrack.
  destruct sh.
  - exists (VRef c), s0. split; [ exact H1 | ]. split.
    + assert (Hp0 : nth_error (heap s0) p = Some (OProxy t ro true))
        by (rewrite Hh; exact Hp).
      assert (Ht0 : nth_error (heap s0) t = Some o) by (rewrite Hh; exact Ht).
      assert (Hc0 : nth_error (heap s0) c = Some oc) by (rewrite Hh; exact Hc).
      apply (nested_read n s0 p t c o oc ro true k Hp0 Ht0 Hpl Hk Hres Hc0
               He Hb).
    + split; [ auto | discriminate ].
  - destruct (alookup Nat.eqb c (proxyMapOf ro false s)) as [q | ] eqn:Ex.
    + exists (VRef q), s0. split; [ exact H1 | ].
      assert (Hm0 : alookup Nat.eqb c (proxyMapOf ro false s0) = Some q)
        by (unfold s0; rewrite maps_afterTrack; exact Ex).
      assert (Hq : nth_error (heap s0) q = Some (OProxy c ro false))
        by (rewrite Hh; apply (Hw ro false c q Ex)).
      split; [ | split; [ discriminate | ] ].
      * assert (Hp0 : nth_error (heap s0) p = Some (OProxy t ro false))
          by (rewrite Hh; exact Hp).
        assert (Ht0 : nth_error (heap s0) t = Some o)
          by (rewrite Hh; exact Ht).
        assert (Hc0 : nth_error (heap s0) c = Some oc)
          by (rewrite Hh; exact Hc).
        rewrite (nested_read n s0 p t c o oc ro false k Hp0 Ht0 Hpl Hk Hres
                   Hc0 He Hb).
        cbv zeta. rewrite Hm0. reflexivity.
      * intros _. exists q. auto.
    + set (s1 := newProxy c ro false s0) in *.
      exists (VRef (List.length (heap s))), s1. split; [ exact H1 | ].
      assert (Hold : forall a x, nth_error (heap s) a = Some x ->
                                 nth_error (heap s1) a = Some x).
      { intros a x Ha. unfold s1. rewrite heap_newProxy, Hh.
        rewrite nth_error_app1; [ exact Ha | ].
        apply nth_error_Some. congruence. }
      assert (Hm1 : alookup Nat.eqb c (proxyMapOf ro false s1)
                    = Some (List.length (heap s))).
      { unfold s1. rewrite registered_newProxy, Hh. reflexivity. }
      assert (Hq : nth_error (heap s1) (List.length (heap s))
                   = Some (OProxy c ro false)).
      { unfold s1. rewrite heap_newProxy, Hh.
        rewrite nth_error_app2 by apply Nat.le_refl.
        rewrite Nat.sub_diag. reflexivity. }
      split; [ | split; [ discriminate | ] ].
      * rewrite (nested_read n s1 p t c o oc ro false k (Hold _ _ Hp)
                   (Hold _ _ Ht) Hpl Hk Hres (Hold _ _ Hc) He Hb).
        cbv zeta. rewrite Hm1. reflexivity.
      * intros _. exists (List.length (heap s)). auto.
Qed.

Definition nested_record : state :=
  finalState 5
    (NewObject RTObject [(KStr "b", VNum 1)] true (fun y =>
     NewObject RTObject [(KStr "a", y)] true (fun x =>
     Wrap true false x Ret))).

Lemma nested_reads_wrap_lazily_witness :
  exists v s1,
    exec 3 (ReflectGet (VRef 2) (KStr "a") (VRef 2) Ret) nested_record
    = Some (Normal v, s1)
    /\ exec 3 (ReflectGet (VRef 2) (KStr "a") (VRef 2) Ret) s1
       = Some (Normal v, afterTrack true 1 (KStr "a") s1)
    /\ (false = true ->
        v = VRef 0 /\ s1 = afterTrack true 1 (KStr "a") nested_record)
    /\ (false = false ->
        exists q, v = VRef q
                  /\ nth_error (heap s1) q = Some (OProxy 0 true false)
                  /\ alookup Nat.eqb 0 (proxyMapOf true false s1) = Some q
                  /\ (s1 = afterTrack true 1 (KStr "a") nested_record
                      \/ s1 = newProxy 0 true false
                                (afterTrack true 1 (KStr "a") nested_record))).
Proof.
  apply (nested_reads_wrap_lazily 0 nested_record 2 1 0
           (OPlain RTObject [(KStr "a", VRef 0)] true)
           (OPlain RTObject [(KStr "b", VNum 1)] true) true false (KStr "a")).
  - apply wfMaps_finalState.
  - vm_compute. reflexivity.
  - vm_compute. reflexivity.
  - exact I.
  - repeat split.
  - reflexivity.
  - vm_compute. reflexivity.
  - simpl. split; [ discriminate | ].
    intros k [<- | [<- | [<- | [<- | []]]]]; reflexivity.
  - reflexivity.
Defined.

(** ** Writing through a proxy *)

Lemma readonly_set (n : nat) (s : state) (r t : addr) (o : obj) (sh : bool)
  (k : key) (v receiver : value) :
  nth_error (heap s) r = Some (OProxy t true sh) ->
  nth_error (heap s) t = Some o -> plainObj o ->
  exec (S (S n)) (ReflectSet (VRef r) k v receiver Ret) s
  = Some (Normal (VBool true), s).
Proof.
  intros Hr Ht Hpl.
  change (exec (S (S n)) (ReflectSet (VRef r) k v receiver Ret))
    with (bind (reflectSet (exec (S n)) (VRef r) k v receiver)
            (fun b => exec (S n) (Ret b))).
  unfold bind at 1. unfold reflectSet, bind at 1, gets at 1. rewrite Hr.
  unfold bind at 1, gets at 1. rewrite (toRawType_plain s t o Ht Hpl).
  reflexivity.
Qed.

(** [readonly] is deep.  A write through a read-only proxy of a record or
    array returns true and changes nothing, whatever the key, the value and
    the receiver.  A read, through a deep read-only proxy, of a property
    that holds a record or array returns a read-only proxy of it, so a
    write one level down changes nothing either; the objects themselves
    are as before. *)
Theorem readonly_is_deep :
  (forall (n : nat) (s : state) (r t : addr) (o : obj) (sh : bool) (k : key)
          (v receiver : value),
      nth_error (heap s) r = Some (OProxy t true sh) ->
      nth_error (heap s) t = Some o -> plainObj o ->
      exec (S (S n)) (ReflectSet (VRef r) k v receiver Ret) s
      = Some (Normal (VBool true), s))
  /\ (forall (n : nat) (s : state) (r t c : addr) (o oc : obj) (k : key),
         wfMaps s ->
         nth_error (heap s) r = Some (OProxy t true false) ->
         nth_error (heap s) t = Some o -> plainObj o -> ordinaryKey k ->
         ordinaryGet t o k = VRef c ->
         nth_error (heap s) c = Some oc -> eligible oc -> plainObj oc ->
         getOwn c oc (KStr "__v_isRef") = None ->
         exists q s1,
           exec (S (S (S n))) (ReflectGet (VRef r) k (VRef r) Ret) s
           = Some (Normal (VRef q), s1)
           /\ nth_error (heap s1) t = Some o
           /\ nth_error (heap s1) c = Some oc
           /\ forall (m : nat) (k' : key) (v receiver : value),
                exec (S (S m)) (ReflectSet (VRef q) k' v receiver Ret) s1
                = Some (Normal (VBool true), s1)).
Proof.
  split; [ exact readonly_set | ].
  intros n s r t c o oc k Hw Hr Ht Hpl Hk Hres Hc He Hplc Hb.
  pose proof (nested_read n s r t c o oc true false k Hr Ht Hpl Hk Hres Hc
                He Hb) as H1.
  cbv zeta in H1. unfold afterTrack in H1.
  destruct (alookup Nat.eqb c (proxyMapOf true false s)) as [q | ] eqn:Ex.
  - exists q, s. split; [ exact H1 | ]. split; [ exact Ht | ].
    split; [ exact Hc | ].
    intros m k' v receiver.
    apply (readonly_set m s q c oc false k' v receiver
             (Hw true false c q Ex) Hc Hplc).
  - exists (List.length (heap s)), (newProxy c true false s).
    split; [ exact H1 | ].
    assert (Hold : forall a x, nth_error (heap s) a = Some x ->
                               nth_error (heap (newProxy c true false s)) a
                               = Some x).
    { intros a x Ha. rewrite heap_newProxy.
      rewrite nth_error_app1; [ exact Ha | ].
      apply nth_error_Some. congruence. }
    split; [ apply Hold; exact Ht | ]. split; [ apply Hold; exact Hc | ].
    intros m k' v receiver.
    apply (readonly_set m _ _ c oc false k' v receiver).
    + rewrite heap_newProxy, nth_error_app2 by apply Nat.le_refl.
      rewrite Nat.sub_diag. reflexivity.
    + apply Hold. exact Hc.
    + exact Hplc.
Qed.

Lemma readonly_is_deep_witness :
  exists q s1,
    exec 3 (ReflectGet (VRef 2) (KStr "a") (VRef 2) Ret) nested_record
    = Some (Normal (VRef q), s1)
    /\ nth_error (heap s1) 1 = Some (OPlain RTObject [(KStr "a", VRef 0)] true)
    /\ nth_error (heap s1) 0 = Some (OPlain RTObject [(KStr "b", VNum 1)] true)
    /\ forall (m : nat) (k' : key) (v receiver : value),
         exec (S (S m)) (ReflectSet (VRef q) k' v receiver Ret) s1
         = Some (Normal (VBool true), s1).
Proof.
  apply (proj2 readonly_is_deep 0 nested_record 2 1 0
           (OPlain RTObject [(KStr "a", VRef 0)] true)
           (OPlain RTObject [(KStr "b", VNum 1)] true) (KStr "a")).
  - apply wfMaps_finalState.
  - vm_compute. reflexivity.
  - vm_compute. reflexivity.
  - exact I.
  - repeat split.
  - reflexivity.
  - vm_compute. reflexivity.
  - simpl. split; [ discriminate | ].
    intros k [<- | [<- | [<- | [<- | []]]]]; reflexivity.
  - exact I.
  - reflexivity.
Defined.

(** [trigger] on a target nothing was tracked on only returns. *)
Lemma trigger_untracked (call : prog -> M value) (t : addr)
  (ty : TriggerOpTypes) (k : option key) (nv : value) (s : state) :
  depsMapOf s t = None ->
  trigger call (VRef t) ty k nv s
  = Some (Normal tt, emit (EvTrigger (VRef t) ty k) s).
Proof.
  intros H. unfold trigger. unfold bind at 1. unfold perform at 1.
  cbn [applyPrim]. unfold bind at 1, gets at 1.
  change (depsMapOf (emit (EvTrigger (VRef t) ty k) s) t)
    with (depsMapOf s t). rewrite H. reflexivity.
Qed.


(** What the set handler adds to the native assignment. *)
Definition setNotice (s : state) (t : addr) (o : obj) (sh : bool) (k : key)
  (v : value) : option (TriggerOpTypes) :=
  match hadKeyOf s t k with
  | Some false => Some ADD
  | Some true =>
      if hasChanged (setterValue sh s v)
           (setterValue sh s (ordinaryGet t o k))
      then Some SET
      else None
  | None => None
  end.






(** ** baseHandlers.ts: the handlers [deleteProperty], [has], [ownKeys]

    The handlers of a mutable proxy are called with the target of the
    proxy.  [Reflect.has] and [Reflect.ownKeys] are built-ins of the
    language: what they answer for an object is a parameter here.
    [Reflect.deleteProperty] is modelled on records, whose properties are
    all configurable, and on the named properties of arrays; [length] of
    an array cannot be deleted; deleting an element of an array would
    leave a hole, which the arrays of this model do not have. *)

Definition removeKey (k : key) (ps : props) : props :=
  filter (fun kv => negb (key_eqb k (fst kv))) ps.

(** [Reflect.deleteProperty] on an ordinary object: the object without the
    property, or [None] when the property cannot be deleted. *)
Definition ordinaryDelete (o : obj) (k : key) : outcome (option obj) :=
  match o with
  | OPlain rt ps ext => Normal (Some (OPlain rt (removeKey k ps) ext))
  | OArray elems ps ext =>
      if key_eqb k LENGTH then Normal None
      else
        match arrayIndex k with
        | Some i =>
            if i <? List.length elems then Thrown NotModelled
            else Normal (Some o)
        | None => Normal (Some (OArray elems (removeKey k ps) ext))
        end
  | _ => Thrown NotModelled
  end.

Definition putObj (a : addr) (o : obj) (s : state) : state :=
  set_heap (update_nth a (fun _ => o) (heap s)) s.

Section Handlers.
Variable call : prog -> M value.
Variable reflectHas : addr -> obj -> key -> bool.
Variable reflectOwnKeys : addr -> obj -> list key.

Definition reflectDelete (target : value) (k : key) : M bool :=
  match target with
  | VRef t =>
      o <- gets (fun s => nth_error (heap s) t) ;;
      match o with
      | Some o' =>
          match ordinaryDelete o' k with
          | Normal (Some o2) =>
              (fun s => Some (Normal true, putObj t o2 s))
          | Normal None => ret false
          | Thrown x => throw x
          end
      | None => throw TypeError
      end
  | _ => throw TypeError
  end.

(** [deleteProperty]:
    [const hadKey = hasOwn(target, key); const oldValue = target[key];
     const result = Reflect.deleteProperty(target, key);
     if (result && hadKey) trigger(target, DELETE, key, undefined, oldValue);
     return result] *)
Definition deleteProperty (target : value) (k : key) : M bool :=
  hadKey <- gets (fun s => hasOwn s target k) ;;
  oldValue <- call (ReflectGet target k target Ret) ;;
  result <- reflectDelete target k ;;
  (if result && hadKey then trigger call target DELETE (Some k) VUndef
   else ret tt) ;;
  ret result.

(** [has]:
    [const result = Reflect.has(target, key);
     if (!isSymbol(key) || !builtInSymbols.has(key))
       track(target, HAS, key);
     return result] *)
Definition has (target : value) (k : key) : M bool :=
  match target with
  | VRef t =>
      o <- gets (fun s => nth_error (heap s) t) ;;
      match o with
      | Some o' =>
          let result := reflectHas t o' k in
          (if negb (isSymbol k) || negb (builtInSymbols_has k)
           then trackV target HAS k else ret tt) ;;
          ret result
      | None => throw TypeError
      end
  | _ => throw TypeError
  end.

(** [ownKeys]:
    [track(target, ITERATE, isArray(target) ? 'length' : ITERATE_KEY);
     return Reflect.ownKeys(target)] *)
Definition ownKeys (target : value) : M (list key) :=
  targetIsArray <- gets (fun s => isArray s target) ;;
  trackV target ITERATE (if targetIsArray then LENGTH else ITERATE_KEY) ;;
  match target with
  | VRef t =>
      o <- gets (fun s => nth_error (heap s) t) ;;
      match o with
      | Some o' => ret (reflectOwnKeys t o')
      | None => throw TypeError
      end
  | _ => throw TypeError
  end.

(** readonlyHandlers: [deleteProperty(target, key) { return true }] *)
Definition readonlyDeleteProperty (target : value) (k : key) : M bool :=
  ret true.
End Handlers.

Lemma update_nth_same (A : Type) (l : list A) (n : nat) (x : A) :
  nth_error l n = Some x -> update_nth n (fun _ => x) l = l.
Proof.
  revert n. induction l as [ | y r IH]; intros [ | n] H; simpl in *;
    try discriminate.
  - inversion H. reflexivity.
  - rewrite (IH n H). reflexivity.
Qed.

Lemma putObj_same (a : addr) (o : obj) (s : state) :
  nth_error (heap s) a = Some o -> putObj a o s = s.
Proof.
  intros H. unfold putObj. rewrite (update_nth_same _ _ _ _ H).
  destruct s; reflexivity.
Qed.

Lemma removeKey_absent (k : key) (ps : props) :
  hasKey k ps = false -> removeKey k ps = ps.
Proof.
  unfold hasKey, removeKey. induction ps as [ | [k0 v0] r IH]; simpl; auto.
  destruct (key_eqb k k0) eqn:E; [ discriminate | ].
  intros H. simpl. rewrite (IH H). reflexivity.
Qed.

Lemma alookup_removeKey (k k' : key) (ps : props) :
  alookup key_eqb k' (removeKey k ps) =
  if key_eqb k k' then None else alookup key_eqb k' ps.
Proof.
  unfold removeKey. induction ps as [ | [k0 v0] r IH]; simpl.
  - destruct (key_eqb k k'); reflexivity.
  - destruct (key_eqb k k0) eqn:E0; simpl.
    + apply key_eqb_eq in E0. subst k0. rewrite IH.
      destruct (key_eqb k k') eqn:E; [ reflexivity | ].
      assert (E' : key_eqb k' k = false).
      { destruct (key_eqb k' k) eqn:E2; auto. apply key_eqb_eq in E2.
        subst k'. assert (key_eqb k k = true)
          by (apply key_eqb_eq; reflexivity). congruence. }
      rewrite E'. reflexivity.
    + rewrite IH. destruct (key_eqb k k') eqn:E.
      * apply key_eqb_eq in E. subst k'.
        assert (E' : key_eqb k k0 = false) by exact E0.
        rewrite E'. reflexivity.
      * reflexivity.
Qed.

Lemma hasOwn_record (s : state) (t : addr) (rt : rawType) (ps : props)
  (ext : bool) (k : key) :
  nth_error (heap s) t = Some (OPlain rt ps ext) ->
  hasOwn s (VRef t) k = hasKey k ps.
Proof.
  intros Ht. unfold hasOwn.
  rewrite (underlying_raw s t _ Ht I). reflexivity.
Qed.

Section HandlerFacts.
Variable reflectHas : addr -> obj -> key -> bool.
Variable reflectOwnKeys : addr -> obj -> list key.

Lemma delete_record (n : nat) (s : state) (t : addr) (ps : props)
  (ext : bool) (k : key) :
  nth_error (heap s) t = Some (OPlain RTObject ps ext) ->
  deleteProperty (exec (S (S n))) (VRef t) k s =
  if hasKey k ps
  then bind (trigger (exec (S (S n))) (VRef t) DELETE (Some k) VUndef)
         (fun _ => ret true)
         (putObj t (OPlain RTObject (removeKey k ps) ext) s)
  else Some (Normal true, s).
Proof.
  intros Ht. unfold deleteProperty.
  unfold bind at 1, gets at 1. rewrite (hasOwn_record s t _ ps ext k Ht).
  unfold bind at 1. rewrite (exec_get_plain n t _ k (VRef t) s Ht I).
  unfold bind at 1. unfold reflectDelete, bind at 1, gets at 1. rewrite Ht.
  cbn [ordinaryDelete].
  destruct (hasKey k ps) eqn:Hk.
  - reflexivity.
  - rewrite (removeKey_absent k ps Hk), (putObj_same t _ s Ht). reflexivity.
Qed.

Lemma delete_length (n : nat) (s : state) (t : addr) (el : list value)
  (ps : props) (ext : bool) :
  nth_error (heap s) t = Some (OArray el ps ext) ->
  deleteProperty (exec (S (S n))) (VRef t) LENGTH s = Some (Normal false, s).
Proof.
  intros Ht. unfold deleteProperty.
  unfold bind at 1, gets at 1.
  unfold bind at 1. rewrite (exec_get_plain n t _ LENGTH (VRef t) s Ht I).
  unfold bind at 1. unfold reflectDelete, bind at 1, gets at 1. rewrite Ht.
  reflexivity.
Qed.

(** [deleteProperty], the handler of a mutable proxy, on a record.  A key
    the record does not have: the result is true and nothing happens, no
    trigger included.  A key it has: the property is removed first and
    [trigger(target, DELETE, key)] runs on the record without it; the other
    properties are untouched.  [length] of an array is not deleted: the
    result is false and no trigger is called. *)
Theorem delete_property :
  (forall (n : nat) (s : state) (t : addr) (ps : props) (ext : bool)
          (k : key),
      nth_error (heap s) t = Some (OPlain RTObject ps ext) ->
      hasKey k ps = false ->
      deleteProperty (exec (S (S n))) (VRef t) k s = Some (Normal true, s))
  /\ (forall (n : nat) (s : state) (t : addr) (ps : props) (ext : bool)
             (k : key),
         nth_error (heap s) t = Some (OPlain RTObject ps ext) ->
         hasKey k ps = true ->
         let s1 := putObj t (OPlain RTObject (removeKey k ps) ext) s in
         deleteProperty (exec (S (S n))) (VRef t) k s
         = bind (trigger (exec (S (S n))) (VRef t) DELETE (Some k) VUndef)
             (fun _ => ret true) s1
         /\ hasOwn s1 (VRef t) k = false
         /\ (forall k', k' <> k ->
                        peek s1 (VRef t) k' = peek s (VRef t) k')
         /\ targetMap s1 = targetMap s /\ effects s1 = effects s
         /\ log s1 = log s)
  /\ (forall (n : nat) (s : state) (t : addr) (el : list value)
             (ps : props) (ext : bool),
         nth_error (heap s) t = Some (OArray el ps ext) ->
         deleteProperty (exec (S (S n))) (VRef t) LENGTH s
         = Some (Normal false, s)).
Proof.
  split; [ | split ].
  - intros n s t ps ext k Ht Hk.
    rewrite (delete_record n s t ps ext k Ht), Hk. reflexivity.
  - intros n s t ps ext k Ht Hk s1.
    assert (Ht1 : nth_error (heap s1) t
                  = Some (OPlain RTObject (removeKey k ps) ext)).
    { unfold s1, putObj. simpl.
      rewrite nth_error_update_nth, Nat.eqb_refl, Ht. reflexivity. }
    split; [ | split; [ | split; [ | repeat split ] ] ].
    + rewrite (delete_record n s t ps ext k Ht), Hk. reflexivity.
    + rewrite (hasOwn_record s1 t _ _ ext k Ht1). unfold hasKey.
      rewrite alookup_removeKey.
      assert (E : key_eqb k k = true) by (apply key_eqb_eq; reflexivity).
      rewrite E. reflexivity.
    + intros k' Hne.
      rewrite (peek_raw_object s1 t _ k' Ht1 I).
      rewrite (peek_raw_object s t _ k' Ht I). simpl.
      rewrite alookup_removeKey.
      destruct (key_eqb k k') eqn:E; [ | reflexivity ].
      apply key_eqb_eq in E. congruence.
  - exact delete_length.
Qed.


Lemma has_handler (s : state) (t : addr) (o : obj) (k : key) :
  nth_error (heap s) t = Some o ->
  has reflectHas (VRef t) k s =
  Some (Normal (reflectHas t o k),
        if isSymbol k && builtInSymbols_has k then s else track t HAS k s).
Proof.
  intros Ht. unfold has, bind at 1, gets at 1. rewrite Ht.
  destruct (isSymbol k); [ | reflexivity ].
  destruct (builtInSymbols_has k); reflexivity.
Qed.

Lemma ownKeys_handler (s : state) (t : addr) (o : obj) :
  nth_error (heap s) t = Some o ->
  ownKeys reflectOwnKeys (VRef t) s =
  Some (Normal (reflectOwnKeys t o),
        track t ITERATE (if isArray s (VRef t) then LENGTH else ITERATE_KEY)
          s).
Proof.
  intros Ht. unfold ownKeys, bind at 1, gets at 1.
  unfold bind at 1. unfold trackV, perform at 1. cbn [applyPrim].
  unfold bind at 1, gets at 1. rewrite track_shape. simpl. rewrite Ht.
  rewrite <- track_shape. reflexivity.
Qed.
End HandlerFacts.

Lemma delete_property_witness :
  deleteProperty (exec 2) (VRef 0) (KStr "b") child_state
  = Some (Normal true, child_state)
  /\ hasOwn
       (putObj 0
          (OPlain RTObject (removeKey (KStr "a") [(KStr "a", VNum 1)]) true)
          child_state) (VRef 0) (KStr "a") = false
  /\ deleteProperty (exec 2) (VRef 0) LENGTH S2_state
     = Some (Normal false, S2_state).
Proof.
  destruct delete_property as [H1 [H2 H3]].
  split; [ | split ].
  - apply (H1 0 child_state 0 [(KStr "a", VNum 1)] true (KStr "b")).
    + vm_compute. reflexivity.
    + reflexivity.
  - refine (proj1 (proj2
              (H2 0 child_state 0 [(KStr "a", VNum 1)] true (KStr "a") _ _))).
    + vm_compute. reflexivity.
    + reflexivity.
  - apply (H3 0 S2_state 0 [VNum 10; VNum 20; VNum 30; VNum 40] [] true).
    vm_compute. reflexivity.
Defined.

(** ** [track] *)

Lemma track_off (t : addr) (ty : TrackOpTypes) (k : key) (s : state) :
  shouldTrack s = false \/ activeEffect s = None -> track t ty k s = s.
Proof.
  intros [H | H]; unfold track; rewrite H; simpl; auto.
  destruct (shouldTrack s); reflexivity.
Qed.

Lemma track_on (t : addr) (ty : TrackOpTypes) (k : key) (s : state) (e : eid) :
  Inv s -> shouldTrack s = true -> activeEffect s = Some e ->
  log (track t ty k s) = EvTrack e t k :: log s
  /\ In e (depOf (track t ty k s) t k)
  /\ exists f, effectOf (track t ty k s) e = Some f /\ In (t, k) (deps f).
Proof.
  intros HI Hs Ha.
  assert (Hl : log (track t ty k s) = EvTrack e t k :: log s).
  { rewrite log_track, Hs, Ha. reflexivity. }
  split; [ exact Hl | ].
  assert (Hin : In e (depOf (track t ty k s) t k)).
  { unfold track. rewrite Hs, Ha. simpl.
    change (depOf (emit (EvTrack e t k) s) t k) with (depOf s t k).
    destruct (mem e (depOf s t k)) eqn:Em.
    - apply mem_In in Em. exact Em.
    - match goal with
      | |- In e (depOf ?st t k) =>
          change (depOf st t k) with
            (depOf (set_dep t k (depOf s t k ++ [e]) (emit (EvTrack e t k) s))
               t k)
      end.
      rewrite depOf_set_dep.
      assert (E : pair_eqb (t, k) (t, k) = true)
        by (apply pair_eqb_eq; reflexivity).
      rewrite E. apply in_or_app. right. left. reflexivity. }
  split; [ exact Hin | ].
  destruct (Inv_track t ty k s HI) as [Hsym _].
  apply (Hsym e t k). exact Hin.
Qed.

Lemma track_twice (t : addr) (ty ty' : TrackOpTypes) (k : key) (s : state) :
  targetMap (track t ty' k (track t ty k s)) = targetMap (track t ty k s)
  /\ effects (track t ty' k (track t ty k s)) = effects (track t ty k s).
Proof.
  destruct (shouldTrack s) eqn:Hs;
    [ | rewrite (track_off t ty k s), (track_off t ty' k s) by auto; auto ].
  destruct (activeEffect s) as [e | ] eqn:Ha;
    [ | rewrite (track_off t ty k s), (track_off t ty' k s) by auto; auto ].
  set (s1 := track t ty k s).
  assert (Hs1 : shouldTrack s1 = true /\ activeEffect s1 = Some e).
  { unfold s1. rewrite track_shape. simpl. auto. }
  destruct Hs1 as [Hs1 Ha1].
  assert (Hin : mem e (depOf s1 t k) = true).
  { apply mem_In. unfold s1, track. rewrite Hs, Ha. simpl.
    change (depOf (emit (EvTrack e t k) s) t k) with (depOf s t k).
    destruct (mem e (depOf s t k)) eqn:Em.
    - apply mem_In in Em. exact Em.
    - match goal with
      | |- In e (depOf ?st t k) =>
          change (depOf st t k) with
            (depOf (set_dep t k (depOf s t k ++ [e]) (emit (EvTrack e t k) s))
               t k)
      end.
      rewrite depOf_set_dep.
      assert (E : pair_eqb (t, k) (t, k) = true)
        by (apply pair_eqb_eq; reflexivity).
      rewrite E. apply in_or_app. right. left. reflexivity. }
  unfold track. rewrite Hs1, Ha1. simpl.
  change (depOf (emit (EvTrack e t k) s1) t k) with (depOf s1 t k).
  rewrite Hin. split; reflexivity.
Qed.

(** [track].  With tracking paused or no effect running it does nothing.
    Otherwise it subscribes the running effect [e] to the key: afterwards
    [e] is a member of the Dep of (target, key) and that Dep is in
    [e.deps].  Tracking the same key again, under any operation type,
    changes no Dep and no effect; the operation type never matters. *)
Theorem track_subscribes_once :
  (forall (t : addr) (ty : TrackOpTypes) (k : key) (s : state),
      shouldTrack s = false \/ activeEffect s = None -> track t ty k s = s)
  /\ (forall (t : addr) (ty : TrackOpTypes) (k : key) (s : state) (e : eid),
         Inv s -> shouldTrack s = true -> activeEffect s = Some e ->
         log (track t ty k s) = EvTrack e t k :: log s
         /\ In e (depOf (track t ty k s) t k)
         /\ exists f, effectOf (track t ty k s) e = Some f
                      /\ In (t, k) (deps f))
  /\ (forall (t : addr) (ty ty' : TrackOpTypes) (k : key) (s : state),
         targetMap (track t ty' k (track t ty k s))
         = targetMap (track t ty k s)
         /\ effects (track t ty' k (track t ty k s))
            = effects (track t ty k s))
  /\ (forall (t : addr) (ty ty' : TrackOpTypes) (k : key) (s : state),
         track t ty k s = track t ty' k s).
Proof.
  split; [ exact track_off | ]. split; [ exact track_on | ].
  split; [ exact track_twice | ]. reflexivity.
Qed.

Lemma track_subscribes_once_witness :
  track 0 GET (KStr "a") (pauseTracking S2_running) = pauseTracking S2_running
  /\ In 0 (depOf (track 0 HAS (KStr "1") S2_running) 0 (KStr "1")).
Proof.
  destruct track_subscribes_once as [H1 [H2 _]].
  split.
  - apply H1. left. reflexivity.
  - apply (H2 0 HAS (KStr "1") S2_running 0).
    + unfold S2_running.
      destruct (Inv3_finalState 20 (S2_setup Ret)) as [HI _].
      apply (Inv_enter 0 (mkEffect 0 true (getP (VRef 1) "3" Ret) []
                            noOptions false)).
      * vm_compute. reflexivity.
      * apply Inv_cleanup. exact HI.
    + reflexivity.
    + reflexivity.
Defined.

(** * The claims on reads, writes and runs *)

(** ** One step of a program *)

Lemma exec_ReflectGet (n : nat) (t : value) (k : key) (r : value)
  (cont : value -> prog) (s : state) :
  exec (S n) (ReflectGet t k r cont) s
  = bind (reflectGet (exec n) t k r) (fun v => exec n (cont v)) s.
Proof. reflexivity. Qed.

Lemma exec_ReflectSet (n : nat) (t : value) (k : key) (v r : value)
  (cont : value -> prog) (s : state) :
  exec (S n) (ReflectSet t k v r cont) s
  = bind (reflectSet (exec n) t k v r) (fun b => exec n (cont b)) s.
Proof. reflexivity. Qed.

(** The get handler is the one of the base handlers when the proxy wraps
    a record or an array, directly or through another proxy. *)
Lemma reflectGet_proxy (call : prog -> M value) (s : state) (p t : addr)
  (ro sh : bool) (k : key) (receiver : value) :
  nth_error (heap s) p = Some (OProxy t ro sh) ->
  targetTypeMap (toRawType s (VRef t)) = COMMON ->
  reflectGet call (VRef p) k receiver s
  = createGetter call ro sh (VRef t) k receiver s.
Proof.
  intros Hp Hty. unfold reflectGet, bind at 1, gets at 1. rewrite Hp.
  unfold bind at 1, gets at 1. rewrite Hty. reflexivity.
Qed.

Lemma toRawType_proxy (s : state) (p t : addr) (ro sh : bool) (o : obj) :
  nth_error (heap s) p = Some (OProxy t ro sh) ->
  nth_error (heap s) t = Some o -> plainObj o ->
  targetTypeMap (toRawType s (VRef p)) = COMMON.
Proof.
  intros Hp Ht Hpl. unfold toRawType.
  rewrite (underlying_proxy s p t ro sh o Hp Ht (plainObj_notProxy o Hpl)).
  destruct o as [rt | | | | ]; simpl in Hpl; try contradiction; auto.
  destruct rt; try contradiction; reflexivity.
Qed.

(** A read, through a mutable proxy of a record or array, of an ordinary
    key that does not hold an object calls [track] for the key and returns
    the value. *)
Lemma reflectGet_tracked (n : nat) (s : state) (p t : addr) (o : obj)
  (sh : bool) (k : key) (receiver : value) :
  nth_error (heap s) p = Some (OProxy t false sh) ->
  nth_error (heap s) t = Some o -> plainObj o -> ordinaryKey k ->
  isObject (ordinaryGet t o k) = false ->
  reflectGet (exec (S (S n))) (VRef p) k receiver s
  = Some (Normal (ordinaryGet t o k), track t GET k s).
Proof.
  intros Hp Ht Hpl Hk Hobj.
  rewrite (reflectGet_proxy _ s p t false sh k receiver Hp
             (toRawType_plain s t o Ht Hpl)).
  rewrite (createGetter_ordinaryKey n s t o false sh k receiver Ht Hpl Hk).
  cbv zeta. unfold afterTrack.
  destruct sh; [ reflexivity | ].
  rewrite (isRef_nonobject _ _ Hobj), Hobj. reflexivity.
Qed.

(** ** Reads through a read-only proxy *)

(** Plain data: a value that is not an object, or an ordinary object -- a
    record, an array or a container; not a proxy, a ref or a computed. *)
Definition plainData (s : state) (v : value) : Prop :=
  forall c, v = VRef c ->
    exists oc, nth_error (heap s) c = Some oc /\ ordinaryObj oc.

(** [readonly] of an ordinary object returns the object or a read-only
    proxy of it; it changes the state only by making that proxy. *)
Lemma readonly_ordinary (n : nat) (s : state) (c : addr) (oc : obj) :
  nth_error (heap s) c = Some oc -> ordinaryObj oc ->
  exists v s',
    readonly (exec (S (S n))) (VRef c) s = Some (Normal v, s')
    /\ (s' = s \/ s' = newProxy c true false s).
Proof.
  intros Hc Ho. unfold readonly, createReactiveObject. cbn [isObject negb].
  unfold bind at 1, gets at 1.
  destruct (truthy (peek s (VRef c) RAW)
            && negb (true && truthy (peek s (VRef c) IS_REACTIVE)));
    [ exists (VRef c), s; auto | ].
  unfold bind at 1, gets at 1. unfold existingProxy.
  destruct (alookup Nat.eqb c (proxyMapOf true false s)) as [q | ];
    [ exists (VRef q), s; auto | ].
  unfold bind at 1. rewrite (getTargetType_ordinary n s c oc Hc Ho).
  destruct (truthy (ordinaryGet c oc SKIP) || negb (extensibleObj oc));
    [ exists (VRef c), s; auto | ].
  destruct (targetTypeMap (rawTypeOf oc));
    [ exists (VRef c), s; auto | | ];
    exists (VRef (List.length (heap s))), (newProxy c true false s);
    auto.
Qed.

(** A read through a read-only proxy of a record or array, of a property
    that holds plain data: [track] is not called; the state is unchanged,
    but for the read-only proxy made for an object read.  The read
    returns a value wherever the integer test of an array's key is
    determined. *)
Lemma readonly_read_untracked (n : nat) (s : state) (r x : addr) (o : obj)
  (sh : bool) (k : key) :
  nth_error (heap s) r = Some (OProxy x true sh) ->
  nth_error (heap s) x = Some o -> plainObj o ->
  plainData s (ordinaryGet x o k) ->
  exists res s',
    exec (S (S (S n))) (ReflectGet (VRef r) k (VRef r) Ret) s
    = Some (res, s')
    /\ (s' = s \/ exists c, s' = newProxy c true false s)
    /\ ((isArray s (VRef x) = true -> isIntegerKey k <> None) ->
        exists v, res = Normal v).
Proof.
  intros Hr Hx Hp Hd.
  rewrite exec_ReflectGet.
  assert (Hg : exists res s',
             reflectGet (exec (S (S n))) (VRef r) k (VRef r) s
             = Some (res, s')
             /\ (s' = s \/ exists c, s' = newProxy c true false s)
             /\ ((isArray s (VRef x) = true -> isIntegerKey k <> None) ->
                 exists v, res = Normal v)).
  { assert (Hdone : forall v,
               exists (res : outcome value) (s' : state),
                 Some (Normal v, s) = Some (res, s')
                 /\ (s' = s \/ exists c, s' = newProxy c true false s)
                 /\ ((isArray s (VRef x) = true -> isIntegerKey k <> None) ->
                     exists v, res = Normal v)).
    { intros v. exists (Normal v), s.
      split; [ reflexivity | split; [ auto | intros _; exists v; reflexivity ] ]. }
    rewrite (reflectGet_proxy _ s r x true sh k (VRef r) Hr
               (toRawType_plain s x o Hx Hp)).
    unfold createGetter.
    destruct (key_eqb k IS_REACTIVE); [ apply Hdone | ].
    destruct (key_eqb k IS_READONLY); [ apply Hdone | ].
    unfold bind at 1, gets at 1.
    destruct (key_eqb k RAW
              && strictEq (VRef r) (registeredProxy true sh s (VRef x)));
      [ apply Hdone | ].
    unfold bind at 1, gets at 1. cbn [negb andb].
    unfold bind at 1.
    rewrite (exec_get_plain n x o k (VRef r) s Hx Hp).
    destruct (if isSymbol k then builtInSymbols_has k
              else isNonTrackableKeys k);
      [ apply Hdone | ].
    unfold bind at 1. cbn [ret].
    destruct sh; [ apply Hdone | ].
    unfold bind at 1, gets at 1.
    destruct (ordinaryGet x o k) as [ | | b | z | | str | c | e0 | nm | c0 ]
      eqn:Ev;
      try (rewrite isRef_nonobject by reflexivity; cbn [isObject];
           apply Hdone).
    destruct (Hd c eq_refl) as [oc [Hc Ho]].
    destruct (isRef s (VRef c)).
    - destruct (isArray s (VRef x)); cbn [negb].
      + destruct (isIntegerKey k) as [[ | ] | ].
        * apply Hdone.
        * rewrite (exec_get_ordinary n c oc VALUE (VRef c) s Hc Ho).
          apply Hdone.
        * exists (Thrown NotModelled), s.
          split; [ reflexivity | split; [ auto | ] ].
          intros H. destruct (H eq_refl eq_refl).
      + rewrite (exec_get_ordinary n c oc VALUE (VRef c) s Hc Ho).
        apply Hdone.
    - cbn [isObject].
      destruct (readonly_ordinary n s c oc Hc Ho) as [v [s' [Hw Hs]]].
      exists (Normal v), s'. split; [ exact Hw | ].
      split; [ | intros _; exists v; reflexivity ].
      destruct Hs as [-> | ->];
        [ left; reflexivity | right; exists c; reflexivity ]. }
  destruct Hg as [res [s' [Hv [Hs Hn]]]]. exists res, s'.
  unfold bind. rewrite Hv.
  split; [ destruct res; reflexivity | split; [ exact Hs | exact Hn ] ].
Qed.

Lemma newProxy_shape (c : addr) (ro sh : bool) (s : state) :
  targetMap (newProxy c ro sh s) = targetMap s
  /\ effects (newProxy c ro sh s) = effects s
  /\ log (newProxy c ro sh s) = log s.
Proof. repeat split. Qed.

(** The read through a read-only proxy layered over a mutable proxy: the
    read-only handler passes the read to the mutable proxy, whose handler
    calls [track]. *)
Lemma layered_read_tracks (n : nat) (s : state) (r p x : addr) (o : obj)
  (sh shp : bool) (k : key) :
  nth_error (heap s) r = Some (OProxy p true sh) ->
  nth_error (heap s) p = Some (OProxy x false shp) ->
  nth_error (heap s) x = Some o -> plainObj o -> ordinaryKey k ->
  isObject (ordinaryGet x o k) = false ->
  exec (S (S (S (S n)))) (ReflectGet (VRef r) k (VRef r) Ret) s
  = Some (Normal (ordinaryGet x o k), track x GET k s).
Proof.
  intros Hr Hp Hx Hpl Hk Hobj.
  rewrite exec_ReflectGet. unfold bind at 1.
  rewrite (reflectGet_proxy _ s r p true sh k (VRef r) Hr
             (toRawType_proxy s p x false shp o Hp Hx Hpl)).
  destruct Hk as [H1 [H2 [H3 [H4 H5]]]].
  unfold createGetter. rewrite H1, H2.
  unfold bind at 1, gets at 1. rewrite H3. cbn [andb].
  unfold bind at 1, gets at 1. cbn [negb andb].
  unfold bind at 1.
  rewrite exec_ReflectGet. unfold bind at 1.
  rewrite (reflectGet_tracked n s p x o shp k (VRef r) Hp Hx Hpl
             (conj H1 (conj H2 (conj H3 (conj H4 H5)))) Hobj).
  rewrite exec_Ret. rewrite H4.
  unfold bind at 1. cbn [ret].
  destruct sh; [ reflexivity | ].
  unfold bind at 1, gets at 1.
  rewrite (isRef_nonobject _ _ Hobj), Hobj. reflexivity.
Qed.
(** [x = {a: {b: 1}}; r = readonly(x); E = effect(() => r.a)] *)
Definition readonly_nested : prog :=
  NewObject RTObject [(KStr "b", VNum 1)] true (fun y =>
  NewObject RTObject [(KStr "a", y)] true (fun x =>
  Wrap true false x (fun r =>
  EffectP (getP r "a" Ret) noOptions (fun _ => Ret r)))).

(** [q = reactive({b: 1}); r = readonly({a: q}); E = effect(() => r.a)] *)
Definition readonly_over_proxy : prog :=
  NewObject RTObject [(KStr "b", VNum 1)] true (fun y =>
  Wrap false false y (fun q =>
  NewObject RTObject [(KStr "a", q)] true (fun x =>
  Wrap true false x (fun r =>
  EffectP (getP r "a" Ret) noOptions (fun _ => Ret r))))).

(** [q = ref(1); r = readonly({a: q}); E = effect(() => r.a)] *)
Definition readonly_over_ref : prog :=
  RefP (VNum 1) false (fun q =>
  NewObject RTObject [(KStr "a", q)] true (fun x =>
  Wrap true false x (fun r =>
  EffectP (getP r "a" Ret) noOptions (fun _ => Ret r)))).

(** A subscriber of (x, k) that may be scheduled is collected by a SET
    trigger on the key. *)
Lemma subscriber_collected (s : state) (x : addr) (k : key) (e : eid)
  (dm : KeyToDepMap) (nv : value) :
  depsMapOf s x = Some dm -> In e (depOf s x k) -> schedulable s e ->
  isArray s (VRef x) = false ->
  exists effs,
    collect s dm (VRef x) SET (Some k) nv = Normal effs /\ In e effs.
Proof.
  intros Hd Hin Hs Ha.
  destruct (collect_spec s dm (VRef x) (Some k) nv) as [H1 _].
  rewrite Ha, andb_false_r in H1.
  destruct (H1 eq_refl) as [[effs [Hc [_ Hi]]] _].
  exists effs. split; [ exact Hc | ]. apply Hi. split; [ exact Hs | ].
  left. exists k. split; [ reflexivity | ].
  unfold depOf in Hin. rewrite Hd in Hin. unfold depMember.
  destruct (alookup key_eqb k dm) as [dep | ]; [ | destruct Hin ].
  exists dep. auto.
Qed.

(** C1, as stated, fails: with [r = readonly(reactive(x))], reading [r.a]
    in an effect records the dependency (x, a), and the write [p.a = 2]
    through the reactive proxy runs the effect a second time.  A
    dependency is recorded as well when the property read holds a
    reactive proxy: [readonly({a: reactive({b: 1})})]. *)
Lemma C1_counterexample :
  depsOf (finalState 20 layered_read) 0 = [(0, KStr "a")]
  /\ In 0 (depOf (finalState 20 layered_read) 0 (KStr "a"))
  /\ runsOf 0 (log (finalState 20 layered_write)) = 2
  /\ depsOf (finalState 20 readonly_over_proxy) 0 = [(0, SKIP)].
Proof. vm_compute. repeat split; auto. Qed.

(** C1, amended.  (1) The read-only handler does not call [track]: a read
    through a read-only proxy of a record or array [x] that is not itself
    a proxy, of a property that holds plain data (a value that is not an
    object, or an object that is not a proxy, a ref or a computed),
    changes no Dep, no effect and not the log, whatever effect is running;
    at most it makes the read-only proxy of the object read (and it
    returns a value wherever the integer test of an array's key is
    determined).  (2) Layered
    over a mutable proxy, [r = readonly(reactive(x))], the read-only
    handler passes the read to the mutable proxy, whose handler tracks: a
    read of a key that holds no object ends in the state [track x GET k],
    so with an effect [e] running and tracking enabled [e] is subscribed
    to (x, k).  (3) A later SET trigger on (x, k) -- the write through the
    reactive proxy -- collects every subscriber that is not the running
    effect.  (4) [readonly({a: 1})] and [readonly({a: {b: 1}})] read in an
    effect leave it without dependencies; with [readonly(reactive({a:
    1}))] the effect depends on (x, a) and [p.a = 2] runs it again.
    (5) The restriction of (1) to plain data is needed: a property that
    holds a reactive proxy or a ref is read through that proxy or ref,
    which tracks. *)
Theorem C1_readonly_tracking :
  (forall (n : nat) (s : state) (r x : addr) (o : obj) (sh : bool) (k : key),
      nth_error (heap s) r = Some (OProxy x true sh) ->
      nth_error (heap s) x = Some o -> plainObj o ->
      plainData s (ordinaryGet x o k) ->
      exists res s',
        exec (S (S (S n))) (ReflectGet (VRef r) k (VRef r) Ret) s
        = Some (res, s')
        /\ (s' = s \/ exists c, s' = newProxy c true false s)
        /\ targetMap s' = targetMap s /\ effects s' = effects s
        /\ log s' = log s
        /\ ((isArray s (VRef x) = true -> isIntegerKey k <> None) ->
            exists v, res = Normal v))
  /\ (forall (n : nat) (s : state) (r p x : addr) (o : obj) (sh shp : bool)
             (k : key) (e : eid),
         nth_error (heap s) r = Some (OProxy p true sh) ->
         nth_error (heap s) p = Some (OProxy x false shp) ->
         nth_error (heap s) x = Some o -> plainObj o -> ordinaryKey k ->
         isObject (ordinaryGet x o k) = false ->
         Inv s -> shouldTrack s = true -> activeEffect s = Some e ->
         let s' := track x GET k s in
         exec (S (S (S (S n)))) (ReflectGet (VRef r) k (VRef r) Ret) s
         = Some (Normal (ordinaryGet x o k), s')
         /\ log s' = EvTrack e x k :: log s
         /\ In e (depOf s' x k)
         /\ In (x, k) (depsOf s' e))
  /\ (forall (s : state) (x : addr) (k : key) (e : eid) (dm : KeyToDepMap)
             (nv : value),
         depsMapOf s x = Some dm -> In e (depOf s x k) -> schedulable s e ->
         isArray s (VRef x) = false ->
         exists effs,
           collect s dm (VRef x) SET (Some k) nv = Normal effs /\ In e effs)
  /\ (depsOf (finalState 20 readonly_read) 0 = []
      /\ targetMap (finalState 20 readonly_read) = []
      /\ chronicle 20 readonly_nested
         = Some (Normal (VRef 2), [EvCleanup 0; EvRun 0])
      /\ chronicle 20 layered_write
         = Some (Normal VUndef,
                 [EvCleanup 0; EvRun 0; EvTrack 0 0 (KStr "a");
                  EvTrigger (VRef 0) SET (Some (KStr "a"));
                  EvCleanup 0; EvRun 0; EvTrack 0 0 (KStr "a")]))
  /\ chronicle 20 readonly_over_proxy
     = Some (Normal (VRef 3), [EvCleanup 0; EvRun 0; EvTrack 0 0 SKIP])
  /\ chronicle 20 readonly_over_ref
     = Some (Normal (VRef 2), [EvCleanup 0; EvRun 0; EvTrack 0 0 VALUE]).
Proof.
  split; [ | split; [ | split; [ exact subscriber_collected | ] ] ].
  - intros n s r x o sh k Hr Hx Hp Hd.
    destruct (readonly_read_untracked n s r x o sh k Hr Hx Hp Hd)
      as [res [s' [He [Hs Hn]]]].
    exists res, s'. split; [ exact He | ]. split; [ exact Hs | ].
    destruct Hs as [-> | [c ->]]; repeat split; exact Hn.
  - intros n s r p x o sh shp k e Hr Hp Hx Hpl Hk Hobj HI Hs Ha s'.
    split; [ apply (layered_read_tracks n s r p x o sh shp k Hr Hp Hx Hpl Hk Hobj) | ].
    destruct (track_on x GET k s e HI Hs Ha) as [Hl [Hin [f [Ef Hf]]]].
    split; [ exact Hl | ]. split; [ exact Hin | ].
    unfold depsOf, s'. rewrite Ef. exact Hf.
  - vm_compute. repeat split; reflexivity.
Qed.

(** The state of [layered_read] with its effect entered: effect 0 is
    running. *)
Definition layered_running : state :=
  enter 0 (cleanup 0 (finalState 20 layered_read)).

Definition layered_effect : ReactiveEffect :=
  match effectOf layered_running 0 with
  | Some f => f
  | None => noEffect
  end.

Lemma C1_witness :
  (exists v s',
      exec 3 (ReflectGet (VRef 1) (KStr "a") (VRef 1) Ret)
        (finalState 20 readonly_read)
      = Some (Normal v, s')
      /\ log s' = log (finalState 20 readonly_read))
  /\ In 0 (depOf (track 0 GET (KStr "a") layered_running) 0 (KStr "a"))
  /\ exists effs,
       collect (finalState 20 layered_read) [(KStr "a", [0])] (VRef 0) SET
         (Some (KStr "a")) (VNum 2) = Normal effs
       /\ In 0 effs.
Proof.
  destruct C1_readonly_tracking as [H1 [H2 [H3 _]]].
  split; [ | split ].
  - destruct (H1 0 (finalState 20 readonly_read) 1 0
                (OPlain RTObject [(KStr "a", VNum 1)] true) false (KStr "a"))
      as [res [s' [He [_ [_ [_ [Hl Hn]]]]]]].
    + vm_compute. reflexivity.
    + vm_compute. reflexivity.
    + exact I.
    + intros c Hc. vm_compute in Hc. discriminate.
    + destruct Hn as [v ->].
      * intros Ha. vm_compute in Ha. discriminate.
      * exists v, s'. split; [ exact He | exact Hl ].
  - refine (proj1 (proj2 (proj2
              (H2 0 layered_running 2 1 0
                 (OPlain RTObject [(KStr "a", VNum 1)] true) false false
                 (KStr "a") 0 _ _ _ I _ _ _ _ _)))).
    + vm_compute. reflexivity.
    + vm_compute. reflexivity.
    + vm_compute. reflexivity.
    + vm_compute. repeat split; reflexivity.
    + vm_compute. reflexivity.
    + unfold layered_running.
      destruct (Inv3_finalState 20 layered_read) as [HI _].
      apply (Inv_enter 0 layered_effect).
      * vm_compute. reflexivity.
      * apply Inv_cleanup. exact HI.
    + reflexivity.
    + reflexivity.
  - apply (H3 (finalState 20 layered_read) 0 (KStr "a") 0).
    + vm_compute. reflexivity.
    + vm_compute. left. reflexivity.
    + left. vm_compute. reflexivity.
    + vm_compute. reflexivity.
Defined.
(** ** Runs and their subscriptions *)

Lemma sinceCleanup_none (e : eid) (evs : list event) :
  ~ In (EvCleanup e) evs -> sinceCleanup e evs = evs.
Proof.
  induction evs as [ | ev r IH]; intros H; simpl; [ reflexivity | ].
  assert (Hr : ~ In (EvCleanup e) r) by (intros Hin; apply H; right; exact Hin).
  destruct ev; try (rewrite (IH Hr); reflexivity).
  destruct (Nat.eqb e e0) eqn:E.
  - apply Nat.eqb_eq in E. subst e0. exfalso. apply H. left. reflexivity.
  - rewrite (IH Hr). reflexivity.
Qed.

(** A read through a mutable proxy, of an ordinary key that holds no
    object, while the effect [e] runs: it is logged as tracked for [e]
    exactly when tracking is enabled. *)
Lemma read_is_tracked (n : nat) (s : state) (p t : addr) (o : obj)
  (sh : bool) (k : key) (e : eid) :
  nth_error (heap s) p = Some (OProxy t false sh) ->
  nth_error (heap s) t = Some o -> plainObj o -> ordinaryKey k ->
  isObject (ordinaryGet t o k) = false ->
  activeEffect s = Some e ->
  exec (S (S (S n))) (ReflectGet (VRef p) k (VRef p) Ret) s
  = Some (Normal (ordinaryGet t o k), track t GET k s)
  /\ log (track t GET k s)
     = if shouldTrack s then EvTrack e t k :: log s else log s.
Proof.
  intros Hp Ht Hpl Hk Hobj Ha. split.
  - rewrite exec_ReflectGet. unfold bind.
    rewrite (reflectGet_tracked n s p t o sh k (VRef p) Hp Ht Hpl Hk Hobj).
    reflexivity.
  - rewrite log_track, Ha. reflexivity.
Qed.

(** [o = reactive({a: 1, b: 2}); E = effect(() => { o.b; stop(E); o.a })] *)
Definition stop_midway : prog :=
  NewObject RTObject [(KStr "a", VNum 1); (KStr "b", VNum 2)] true (fun x =>
  Wrap false false x (fun o =>
  EffectP (getP o "b" (fun _ => StopP 0 (getP o "a" Ret))) noOptions Ret)).

(** [E = effect(() => { pauseTracking(); const a = o.a; resetTracking();
    o.b; return a }, {lazy: true}); E()] *)
Definition paused_read : prog :=
  NewObject RTObject [(KStr "a", VNum 1); (KStr "b", VNum 2)] true (fun x =>
  Wrap false false x (fun o =>
  EffectP
    (PauseTracking (getP o "a" (fun a =>
     ResetTracking (getP o "b" (fun _ => Ret a)))))
    lazyOptions
    (fun e => CallFn e VUndef Ret))).

(** S4 on a reactive record:
    [o = reactive({flag: true, x: 1, y: 2});
     E = effect(() => o.flag ? o.x : o.y); o.flag = false] *)
Definition S4_record (cont : value -> prog) : prog :=
  NewObject RTObject
    [(KStr "flag", VBool true); (KStr "x", VNum 1); (KStr "y", VNum 2)] true
    (fun r =>
  Wrap false false r (fun o =>
  EffectP
    (getP o "flag" (fun b =>
       if truthy b then getP o "x" Ret else getP o "y" Ret))
    noOptions
    (fun _ => setP o "flag" (VBool false) (cont o)))).

(** C3, as stated, fails.  In [stop_midway] the run of E reads [o.b],
    stops E and reads [o.a]: the run returns, (x, b) was read and tracked
    during the run, and [E.deps] holds (x, a) only.  In [paused_read] the
    run reads [o.a] while tracking is paused (it returns the value read)
    and [E.deps] holds (x, b) only. *)
Lemma C3_counterexample :
  (chronicle 20 stop_midway
   = Some (Normal (VEff 0),
           [EvCleanup 0; EvRun 0; EvTrack 0 0 (KStr "b"); EvCleanup 0;
            EvTrack 0 0 (KStr "a")])
   /\ depsOf (finalState 20 stop_midway) 0 = [(0, KStr "a")]
   /\ ~ In (0, KStr "b") (depsOf (finalState 20 stop_midway) 0))
  /\ chronicle 20 paused_read
     = Some (Normal (VNum 1), [EvCleanup 0; EvRun 0; EvTrack 0 0 (KStr "b")])
  /\ depsOf (finalState 20 paused_read) 0 = [(0, KStr "b")].
Proof.
  split; [ split; [ vm_compute; reflexivity | split;
                    [ vm_compute; reflexivity | ] ] | ].
  - vm_compute. intros [H | []]. discriminate.
  - split; vm_compute; reflexivity.
Qed.

(** C3, amended.  (1) A run of an active effect first detaches the effect
    from every Dep.  When the run returns, [e.deps] is duplicate-free, [e]
    is a member of exactly the Deps in [e.deps], and [e.deps] holds
    exactly the pairs (target, key) tracked for [e] since the effect was
    last detached; if the body did not detach the effect again (it did not
    stop it), these are exactly the pairs tracked for [e] during the run.
    (2) The pairs tracked are the reads: a read through a mutable proxy
    while [e] is the running effect is tracked for [e] when tracking is
    enabled, and not when it is paused.  (3) In S4, on refs and on a
    reactive record, after the re-run with [flag = false] the effect
    depends on [flag] and [y] only: writing [x] does not run it, writing
    [y] does. *)
Theorem C3_cleanup_freshness :
  (forall (n : nat) (e : eid) (f : ReactiveEffect) (s : state) (v : value)
          (s' : state),
      Inv3 s -> effectOf s e = Some f -> active f = true ->
      mem e (effectStack s) = false ->
      reactiveEffect (exec n) e s = Some (Normal v, s') ->
      depsOf (cleanup e s) e = []
      /\ (forall t k, ~ In e (depOf (cleanup e s) t k))
      /\ exists evs,
           log s' = evs ++ EvCleanup e :: log s
           /\ NoDup (depsOf s' e)
           /\ (forall t k, In e (depOf s' t k) <-> In (t, k) (depsOf s' e))
           /\ (forall t k, In (t, k) (depsOf s' e) <->
                           In (EvTrack e t k) (sinceCleanup e evs))
           /\ (~ In (EvCleanup e) evs ->
               forall t k, In (t, k) (depsOf s' e) <->
                           In (EvTrack e t k) evs))
  /\ (forall (n : nat) (s : state) (p t : addr) (o : obj) (sh : bool)
             (k : key) (e : eid),
         nth_error (heap s) p = Some (OProxy t false sh) ->
         nth_error (heap s) t = Some o -> plainObj o -> ordinaryKey k ->
         isObject (ordinaryGet t o k) = false ->
         activeEffect s = Some e ->
         exec (S (S (S n))) (ReflectGet (VRef p) k (VRef p) Ret) s
         = Some (Normal (ordinaryGet t o k), track t GET k s)
         /\ log (track t GET k s)
            = if shouldTrack s then EvTrack e t k :: log s else log s)
  /\ (depsOf (finalState 20 S4_flip) 0 = [(0, VALUE); (2, VALUE)]
      /\ runsOf 0 (log (finalState 20 S4_flip)) = 2
      /\ runsOf 0 (log (finalState 20 S4_write_x)) = 2
      /\ runsOf 0 (log (finalState 20 S4_write_y)) = 3)
  /\ depsOf (finalState 20 (S4_record (fun _ => Ret VUndef))) 0
     = [(0, KStr "flag"); (0, KStr "y")]
  /\ chronicle 20 (S4_record (fun o => setP o "x" (VNum 99) (Ret VUndef)))
     = Some (Normal VUndef,
             [EvCleanup 0; EvRun 0; EvTrack 0 0 (KStr "flag");
              EvTrack 0 0 (KStr "x");
              EvTrigger (VRef 0) SET (Some (KStr "flag"));
              EvCleanup 0; EvRun 0; EvTrack 0 0 (KStr "flag");
              EvTrack 0 0 (KStr "y");
              EvTrigger (VRef 0) SET (Some (KStr "x"))])
  /\ chronicle 20 (S4_record (fun o => setP o "y" (VNum 99) (Ret VUndef)))
     = Some (Normal VUndef,
             [EvCleanup 0; EvRun 0; EvTrack 0 0 (KStr "flag");
              EvTrack 0 0 (KStr "x");
              EvTrigger (VRef 0) SET (Some (KStr "flag"));
              EvCleanup 0; EvRun 0; EvTrack 0 0 (KStr "flag");
              EvTrack 0 0 (KStr "y");
              EvTrigger (VRef 0) SET (Some (KStr "y"));
              EvCleanup 0; EvRun 0; EvTrack 0 0 (KStr "flag");
              EvTrack 0 0 (KStr "y")]).
Proof.
  split; [ | split; [ exact read_is_tracked
                    | vm_compute; repeat split; reflexivity ] ].
  intros n e f s v s' HI Ef Ha Hm Hrun.
  pose proof (Inv3_cleanup e s HI) as [[Hsym0 _] _].
  assert (Hd0 : depsOf (cleanup e s) e = []).
  { unfold depsOf. rewrite effectOf_cleanup, Nat.eqb_refl, Ef. reflexivity. }
  split; [ exact Hd0 | ]. split.
  { intros t k Hin. apply (Hsym0 e t k) in Hin.
    apply listed_depsOf in Hin. rewrite Hd0 in Hin. exact Hin. }
  assert (HI' : Inv3 s').
  { exact (@rel_reactiveEffect _ Inv3_closed (exec n)
             (@exec_rel _ Inv3_closed n) e s (Normal v) s' Hrun HI). }
  rewrite (reactiveEffect_active (exec n) e f s Ef Ha Hm) in Hrun.
  destruct (exec n (raw f) (enter e (cleanup e s))) as [[o2 s2] | ] eqn:Eb;
    [ | discriminate ].
  inversion Hrun; subst o2 s'. clear Hrun.
  destruct (exec_logGrows n _ _ _ _ Eb) as [evs Hlog].
  simpl in Hlog. rewrite log_cleanup in Hlog.
  exists (evs ++ [EvRun e]).
  assert (Hl : log (leave s2) = (evs ++ [EvRun e]) ++ EvCleanup e :: log s).
  { rewrite log_leave, Hlog, <- app_assoc. reflexivity. }
  destruct HI' as [[Hsym' _] HF'].
  assert (Hd : depsOf (leave s2) e
               = tracked e ((evs ++ [EvRun e]) ++ [EvCleanup e])).
  { rewrite (depsOf_follow _ e HF'), Hl. apply tracked_app_cleanup. }
  assert (Hsince : forall t k,
             In (t, k) (depsOf (leave s2) e) <->
             In (EvTrack e t k) (sinceCleanup e (evs ++ [EvRun e]))).
  { intros t k. rewrite (depsOf_follow _ e HF'), In_tracked, Hl.
    rewrite sinceCleanup_app. tauto. }
  split; [ exact Hl | ]. split.
  { rewrite Hd. apply NoDup_tracked. }
  split; [ | split; [ exact Hsince | ] ].
  - intros t k. rewrite <- listed_depsOf. apply Hsym'.
  - intros Hno t k. rewrite Hsince, (sinceCleanup_none e _ Hno). tauto.
Qed.

(** S4 on the record after the write [o.flag = false], and the state
    after one more run of its effect. *)
Definition S4_record_state : state :=
  finalState 20 (S4_record (fun _ => Ret VUndef)).

Definition S4_record_effect : ReactiveEffect :=
  match effectOf S4_record_state 0 with Some f => f | None => noEffect end.

Definition S4_record_rerun : state :=
  match reactiveEffect (exec 10) 0 S4_record_state with
  | Some (_, s) => s
  | None => init
  end.

Lemma C3_witness :
  (depsOf (cleanup 0 S4_record_state) 0 = []
   /\ NoDup (depsOf S4_record_rerun 0)
   /\ (forall t k, In 0 (depOf S4_record_rerun t k) <->
                   In (t, k) (depsOf S4_record_rerun 0))
   /\ (forall t k, In (t, k) (depsOf S4_record_rerun 0) <->
                   In (EvTrack 0 t k)
                     [EvTrack 0 0 (KStr "y"); EvTrack 0 0 (KStr "flag");
                      EvRun 0]))
  /\ exec 3 (ReflectGet (VRef 1) (KStr "0") (VRef 1) Ret) S2_running
     = Some (Normal (VNum 10), track 0 GET (KStr "0") S2_running).
Proof.
  destruct C3_cleanup_freshness as [H1 [H2 _]].
  split.
  - destruct (H1 10 0 S4_record_effect S4_record_state (VNum 2)
                S4_record_rerun)
      as [Ha [_ [evs [Hb [Hc [Hd [_ He]]]]]]].
    + apply Inv3_finalState.
    + vm_compute. reflexivity.
    + vm_compute. reflexivity.
    + vm_compute. reflexivity.
    + vm_compute. reflexivity.
    + assert (Hevs : evs = [EvTrack 0 0 (KStr "y");
                            EvTrack 0 0 (KStr "flag"); EvRun 0]).
      { apply (app_inv_tail (EvCleanup 0 :: log S4_record_state)).
        rewrite <- Hb. vm_compute. reflexivity. }
      subst evs.
      split; [ exact Ha | ]. split; [ exact Hc | ]. split; [ exact Hd | ].
      apply He. intros [H | [H | [H | []]]]; discriminate.
  - refine (proj1 (H2 0 S2_running 1 0
                     (OArray [VNum 10; VNum 20; VNum 30; VNum 40] [] true)
                     false (KStr "0") 0 _ _ I _ _ _)).
    + vm_compute. reflexivity.
    + vm_compute. reflexivity.
    + vm_compute. repeat split; reflexivity.
    + vm_compute. reflexivity.
    + vm_compute. reflexivity.
Defined.
(** ** Writes through the canonical proxy *)

(** The object a successful write leaves is no proxy. *)
Lemma ordinaryWrite_notProxy (o o' : obj) (k : key) (v : value) :
  plainObj o -> ordinaryWrite o k v = SetOk o' -> notProxy o'.
Proof.
  intros Hpl Hw. destruct o; simpl in Hpl; try contradiction; simpl in Hw.
  - destruct (writeProps k v ps extensible); inversion Hw; exact I.
  - destruct (key_eqb k LENGTH).
    + destruct (validLength v); inversion Hw; exact I.
    + destruct (arrayIndex k) as [i | ].
      * destruct (i <? List.length elems); [ inversion Hw; exact I | ].
        destruct extensible; inversion Hw; exact I.
      * destruct (writeProps k v ps extensible); inversion Hw; exact I.
Qed.

(** The set handler of a mutable proxy, called on the proxy registered for
    its target, when the write is not handed to a ref and the native
    assignment succeeds: after the assignment it calls [trigger] with ADD
    for a new key, with SET for a changed value, and not at all for an
    unchanged one. *)
Lemma reflectSet_canonical (n : nat) (s : state) (p t : addr) (o o' : obj)
  (sh : bool) (k : key) (v : value) :
  nth_error (heap s) p = Some (OProxy t false sh) ->
  alookup Nat.eqb t (proxyMapOf false sh s) = Some p ->
  nth_error (heap s) t = Some o -> plainObj o ->
  getOwn t o RAW = None ->
  (negb sh && negb (isArray s (VRef t))
   && isRef s (setterValue sh s (ordinaryGet t o k))
   && negb (isRef s (setterValue sh s v))) = false ->
  hadKeyOf s t k <> None ->
  ordinaryWrite o k (setterValue sh s v) = SetOk o' ->
  getOwn t o' RAW = None ->
  reflectSet (exec (S (S n))) (VRef p) k v (VRef p) s
  = match setNotice s t o sh k v with
    | Some ty =>
        bind (trigger (exec (S (S n))) (VRef t) ty (Some k)
                (setterValue sh s v))
          (fun _ => ret (VBool true))
          (writeProp t k (setterValue sh s v) s)
    | None => Some (Normal (VBool true), writeProp t k (setterValue sh s v) s)
    end.
Proof.
  intros Hp Hm Ht Hpl Hraw Hdel Hhk Hw Hraw'.
  pose proof (plainObj_notProxy o Hpl) as Hn.
  pose proof (underlying_proxy s p t false sh o Hp Ht Hn) as Hu.
  set (v' := setterValue sh s v) in *.
  set (s1 := writeProp t k v' s) in *.
  assert (Hh1 : heap s1 = update_nth t (fun _ => o') (heap s)).
  { unfold s1, writeProp. rewrite Ht, Hw. reflexivity. }
  assert (Ht1 : nth_error (heap s1) t = Some o').
  { rewrite Hh1, nth_error_update_nth, Nat.eqb_refl, Ht. reflexivity. }
  assert (Hp1 : nth_error (heap s1) p = Some (OProxy t false sh)).
  { rewrite Hh1, nth_error_update_nth.
    destruct (Nat.eqb t p) eqn:E; [ | exact Hp ].
    apply Nat.eqb_eq in E. subst p. rewrite Hp in Ht. inversion Ht; subst o.
    contradiction. }
  pose proof (ordinaryWrite_notProxy o o' k v' Hpl Hw) as Hn'.
  assert (Hcanon : toRaw s1 (VRef p) = VRef t).
  { apply (toRaw_proxy s1 p t false sh Hp1).
    - unfold s1. rewrite proxyMapOf_writeProp. exact Hm.
    - intros a Ha. inversion Ha; subst a. exists o'. auto. }
  unfold reflectSet at 1. unfold bind at 1. unfold gets at 1. rewrite Hp.
  unfold bind at 1. unfold gets at 1.
  rewrite (toRawType_plain s t o Ht Hpl).
  unfold createSetter. unfold bind at 1.
  rewrite (exec_get_plain n t o k (VRef t) s Ht Hpl).
  unfold bind at 1. unfold gets at 1.
  unfold bind at 1. unfold gets at 1.
  unfold bind at 1. unfold gets at 1.
  fold (setterValue sh s v). fold v'.
  fold (setterValue sh s (ordinaryGet t o k)).
  rewrite Hdel.
  unfold bind at 1. unfold gets at 1.
  unfold bind at 1. rewrite hadKey_eval.
  unfold setNotice. fold v'.
  destruct (hadKeyOf s t k) as [hk | ]; [ | contradiction ].
  unfold bind at 1.
  rewrite exec_ReflectSet. unfold bind at 1.
  rewrite (reflectSet_plain _ t o k _ (VRef p) s Ht Hpl).
  rewrite (ordinarySet_eval k _ (VRef p) s t o Hu).
  unfold writeResult. rewrite Hw. fold s1.
  rewrite exec_Ret. unfold bind at 1. unfold gets at 1.
  rewrite Hcanon. cbn [strictEq]. rewrite Nat.eqb_refl.
  destruct hk; cbn [negb].
  - destruct (hasChanged v' (setterValue sh s (ordinaryGet t o k))).
    + unfold bind.
      destruct (trigger (exec (S (S n))) (VRef t) SET (Some k) v' s1)
        as [[[u | x] s2] | ]; reflexivity.
    + reflexivity.
  - unfold bind.
    destruct (trigger (exec (S (S n))) (VRef t) ADD (Some k) v' s1)
      as [[[u | x] s2] | ]; reflexivity.
Qed.

(** Where the integer test of an array's key is not determined, the
    embedding of the set handler stops before the assignment. *)
Lemma createSetter_undetermined (n : nat) (s : state) (p t : addr) (o : obj)
  (sh : bool) (k : key) (v receiver : value) :
  nth_error (heap s) p = Some (OProxy t false sh) ->
  nth_error (heap s) t = Some o -> plainObj o ->
  (negb sh && negb (isArray s (VRef t))
   && isRef s (setterValue sh s (ordinaryGet t o k))
   && negb (isRef s (setterValue sh s v))) = false ->
  hadKeyOf s t k = None ->
  exec (S (S (S n))) (ReflectSet (VRef p) k v receiver Ret) s
  = Some (Thrown NotModelled, s).
Proof.
  intros Hp Ht Hpl Hdel Hhk.
  rewrite exec_ReflectSet. unfold bind at 1.
  unfold reflectSet at 1. unfold bind at 1. unfold gets at 1. rewrite Hp.
  unfold bind at 1. unfold gets at 1.
  rewrite (toRawType_plain s t o Ht Hpl).
  unfold createSetter. unfold bind at 1.
  rewrite (exec_get_plain n t o k (VRef t) s Ht Hpl).
  unfold bind at 1. unfold gets at 1.
  unfold bind at 1. unfold gets at 1.
  unfold bind at 1. unfold gets at 1.
  fold (setterValue sh s v).
  fold (setterValue sh s (ordinaryGet t o k)).
  rewrite Hdel.
  unfold bind at 1. unfold gets at 1.
  unfold bind at 1. rewrite hadKey_eval, Hhk. reflexivity.
Qed.

(** The write is handed to the ref the property holds:
    [!shallow && !isArray(target) && isRef(oldValue) && !isRef(value)]. *)
Definition delegated (s : state) (t : addr) (o : obj) (sh : bool) (k : key)
  (v : value) : bool :=
  negb sh && negb (isArray s (VRef t))
  && isRef s (setterValue sh s (ordinaryGet t o k))
  && negb (isRef s (setterValue sh s v)).

(** [r0 = ref(1); x = {a: r0}; p = reactive(x); child = {};
     E = effect(() => p.a); Reflect.set(p, "a", 7, child)] *)
Definition ref_delegation : prog :=
  RefP (VNum 1) false (fun r0 =>
  NewObject RTObject [(KStr "a", r0)] true (fun x =>
  Wrap false false x (fun p =>
  NewObject RTObject [] true (fun child =>
  EffectP (getP p "a" Ret) noOptions (fun _ =>
  ReflectSet p (KStr "a") (VNum 7) child Ret))))).

(** [y = {}; o = reactive({a: y}); E = effect(() => o.a); o.a = o.a] *)
Definition same_object : prog :=
  NewObject RTObject [] true (fun y =>
  NewObject RTObject [(KStr "a", y)] true (fun x =>
  Wrap false false x (fun o =>
  EffectP (getP o "a" Ret) noOptions (fun _ =>
  getP o "a" (fun v => setP o "a" v (Ret v)))))).

(** C7, as stated, fails.  In [ref_delegation] the property [a] holds a
    ref and the effect reads [p.a]; the write [Reflect.set(p, "a", 7,
    child)] has a receiver that is not the canonical proxy of the target,
    yet it fires a SET trigger (of the ref, to which the handler hands the
    write before it looks at the receiver) and the effect runs again. *)
Lemma C7_counterexample :
  chronicle 20 ref_delegation
  = Some (Normal (VBool true),
          [EvCleanup 0; EvRun 0; EvTrack 0 1 (KStr "a"); EvTrack 0 0 VALUE;
           EvTrigger (VRef 0) SET (Some VALUE);
           EvCleanup 0; EvRun 0; EvTrack 0 1 (KStr "a"); EvTrack 0 0 VALUE])
  /\ toRaw (finalState 20 ref_delegation) (VRef 3) = VRef 3
  /\ toRaw (finalState 20 ref_delegation) (VRef 2) = VRef 1
  /\ runsOf 0 (log (finalState 20 ref_delegation)) = 2.
Proof. vm_compute. repeat split; reflexivity. Qed.

(** C7, amended.  For a mutable proxy [p] of a record or array [t]:
    (1) a write through [p] to a key that exists, with a value equal to
    the old one under the NaN-aware comparison the handler makes (on the
    raw values, in a deep proxy), performs the native assignment and
    nothing else: [trigger] is not called, no effect runs, no Dep
    changes; (2) when the receiver is not the canonical proxy of the
    target, whatever the value, [trigger] is not called, no effect runs
    and no Dep changes either, unless the write is handed to a ref (in a
    deep proxy of a record, the old value is a ref and the new one is
    not); the write is the native assignment and nothing else wherever
    the handler's test for an existing key is determined; (3) a write through the registered proxy to a key that
    exists, with a changed value and not handed to a ref, performs the
    native assignment and then calls [trigger(target, SET, key, value)].
    (4) [o.a = NaN] over [NaN], [o.a = 1] over [1] and [o.a = o.a] over
    an object do not run the effect reading [o.a]; [o.a = 2] over [1]
    does. *)
Theorem C7_no_spurious_trigger :
  (forall (n : nat) (s : state) (p t : addr) (o : obj) (sh : bool) (k : key)
          (v : value),
      nth_error (heap s) p = Some (OProxy t false sh) ->
      nth_error (heap s) t = Some o -> plainObj o ->
      hadKeyOf s t k = Some true ->
      hasChanged (setterValue sh s v) (setterValue sh s (ordinaryGet t o k))
      = false ->
      let s' := writeProp t k (setterValue sh s v) s in
      exec (S (S (S n))) (ReflectSet (VRef p) k v (VRef p) Ret) s
      = Some (writeResult o k (setterValue sh s v), s')
      /\ log s' = log s /\ targetMap s' = targetMap s
      /\ effects s' = effects s)
  /\ (forall (n : nat) (s : state) (p t : addr) (o : obj) (sh : bool)
             (k : key) (v receiver : value) (c : addr) (oc : obj),
         nth_error (heap s) p = Some (OProxy t false sh) ->
         nth_error (heap s) t = Some o -> plainObj o ->
         underlying s receiver = Some (c, oc) ->
         delegated s t o sh k v = false ->
         let s' := writeProp c k (setterValue sh s v) s in
         strictEq (VRef t) (toRaw s' receiver) = false ->
         exists res s1,
           exec (S (S (S n))) (ReflectSet (VRef p) k v receiver Ret) s
           = Some (res, s1)
           /\ log s1 = log s /\ targetMap s1 = targetMap s
           /\ effects s1 = effects s
           /\ (hadKeyOf s t k <> None ->
               res = writeResult oc k (setterValue sh s v) /\ s1 = s'))
  /\ (forall (n : nat) (s : state) (p t : addr) (o o' : obj) (sh : bool)
             (k : key) (v : value),
         nth_error (heap s) p = Some (OProxy t false sh) ->
         alookup Nat.eqb t (proxyMapOf false sh s) = Some p ->
         nth_error (heap s) t = Some o -> plainObj o ->
         getOwn t o RAW = None ->
         delegated s t o sh k v = false ->
         ordinaryWrite o k (setterValue sh s v) = SetOk o' ->
         getOwn t o' RAW = None ->
         hadKeyOf s t k = Some true ->
         hasChanged (setterValue sh s v)
           (setterValue sh s (ordinaryGet t o k)) = true ->
         exec (S (S (S n))) (ReflectSet (VRef p) k v (VRef p) Ret) s
         = bind (trigger (exec (S (S n))) (VRef t) SET (Some k)
                   (setterValue sh s v))
             (fun _ => ret (VBool true))
             (writeProp t k (setterValue sh s v) s))
  /\ chronicle 20 (write_scenario VNaN VNaN)
     = Some (Normal VUndef, [EvCleanup 0; EvRun 0; EvTrack 0 0 (KStr "a")])
  /\ chronicle 20 (write_scenario (VNum 1) (VNum 1))
     = Some (Normal VUndef, [EvCleanup 0; EvRun 0; EvTrack 0 0 (KStr "a")])
  /\ chronicle 20 same_object
     = Some (Normal (VRef 3), [EvCleanup 0; EvRun 0; EvTrack 0 1 (KStr "a")])
  /\ chronicle 20 (write_scenario (VNum 1) (VNum 2))
     = Some (Normal VUndef,
             [EvCleanup 0; EvRun 0; EvTrack 0 0 (KStr "a");
              EvTrigger (VRef 0) SET (Some (KStr "a"));
              EvCleanup 0; EvRun 0; EvTrack 0 0 (KStr "a")]).
Proof.
  split; [ | split; [ | split; [ | vm_compute; repeat split; reflexivity ] ] ].
  - intros n s p t o sh k v Hp Ht Hpl Hk Hc s'.
    split; [ | unfold s'; rewrite writeProp_shape; repeat split; reflexivity ].
    apply (createSetter_quiet n s p t o sh k _ (VRef p) t o Hp Ht Hpl).
    + apply (underlying_proxy s p t false sh o Hp Ht).
      apply plainObj_notProxy. exact Hpl.
    + apply hasChanged_false in Hc. rewrite Hc.
      destruct (isRef s (setterValue sh s (ordinaryGet t o k)));
        rewrite ?andb_false_r; reflexivity.
    + exists true. split; [ exact Hk | ]. right. split; [ reflexivity | exact Hc ].
  - intros n s p t o sh k v receiver c oc Hp Ht Hpl Hu Hr s' Hne.
    destruct (hadKeyOf s t k) as [hk | ] eqn:Ehk.
    + exists (writeResult oc k (setterValue sh s v)), s'.
      split; [ | unfold s'; rewrite writeProp_shape; repeat split;
                 reflexivity ].
      apply (createSetter_quiet n s p t o sh k v receiver c oc Hp Ht Hpl Hu).
      * exact Hr.
      * exists hk. split; [ exact Ehk | ]. left. exact Hne.
    + exists (Thrown NotModelled), s.
      split; [ | split; [ reflexivity | split; [ reflexivity | ] ] ].
      2: { split; [ reflexivity | ]. intros Hx. destruct (Hx eq_refl). }
      apply (createSetter_undetermined n s p t o sh k v receiver Hp Ht Hpl).
      * exact Hr.
      * exact Ehk.
  - intros n s p t o o' sh k v Hp Hm Ht Hpl Hraw Hdel Hw Hraw' Hk Hc.
    rewrite exec_ReflectSet. unfold bind at 1.
    assert (Hhk : hadKeyOf s t k <> None) by (rewrite Hk; discriminate).
    rewrite (reflectSet_canonical n s p t o o' sh k v Hp Hm Ht Hpl Hraw Hdel
               Hhk Hw Hraw').
    unfold setNotice. rewrite Hk, Hc. cbn [negb].
    unfold bind.
    destruct (trigger (exec (S (S n))) (VRef t) SET (Some k)
                (setterValue sh s v)
                (writeProp t k (setterValue sh s v) s))
      as [[[u | x] s2] | ]; reflexivity.
Qed.

Lemma C7_witness :
  (exec 3 (ReflectSet (VRef 1) (KStr "a") (VNum 1) (VRef 1) Ret) child_state
   = Some (Normal (VBool true), child_state)
   /\ log child_state = log child_state)
  /\ exec 3 (ReflectSet (VRef 1) (KStr "a") (VNum 7) (VRef 2) Ret) child_state
     = Some (Normal (VBool true),
             writeProp 2 (KStr "a") (VNum 7) child_state)
  /\ exec 3 (ReflectSet (VRef 1) (KStr "a") (VNum 7) (VRef 1) Ret) child_state
     = bind (trigger (exec 2) (VRef 0) SET (Some (KStr "a")) (VNum 7))
         (fun _ => ret (VBool true))
         (writeProp 0 (KStr "a") (VNum 7) child_state).
Proof.
  destruct C7_no_spurious_trigger as [H1 [H2 [H3 _]]].
  split; [ | split ].
  - destruct (H1 0 child_state 1 0 record_a1 false (KStr "a") (VNum 1))
      as [He [Hl _]].
    + vm_compute. reflexivity.
    + vm_compute. reflexivity.
    + exact I.
    + vm_compute. reflexivity.
    + vm_compute. reflexivity.
    + split; [ | reflexivity ]. rewrite He. vm_compute. reflexivity.
  - destruct (H2 0 child_state 1 0 record_a1 false (KStr "a") (VNum 7)
                (VRef 2) 2 (OPlain RTObject [] true))
      as [res [s1 [He [_ [_ [_ Hd]]]]]].
    + vm_compute. reflexivity.
    + vm_compute. reflexivity.
    + exact I.
    + vm_compute. reflexivity.
    + vm_compute. reflexivity.
    + vm_compute. reflexivity.
    + destruct Hd as [Hres Hs1].
      * vm_compute. discriminate.
      * rewrite He, Hres, Hs1. vm_compute. reflexivity.
  - apply (H3 0 child_state 1 0 record_a1
             (OPlain RTObject [(KStr "a", VNum 7)] true) false (KStr "a")
             (VNum 7)).
    + vm_compute. reflexivity.
    + vm_compute. reflexivity.
    + vm_compute. reflexivity.
    + exact I.
    + vm_compute. reflexivity.
    + vm_compute. reflexivity.
    + vm_compute. reflexivity.
    + vm_compute. reflexivity.
    + vm_compute. reflexivity.
    + vm_compute. reflexivity.
Defined.
(** ** Runs that throw *)











(** ** Computed values: reads and dependency triggers in sequence *)

(** [x = ref(3); c = computed(() => { x.value; throw "boom" })], and
    three reads of [c.value], each in a [try]. *)
Definition throwing_getter : prog :=
  RefP (VNum 3) false (fun x =>
  ComputedP (getP x "value" (fun _ => Throw (VStr "boom"))) None (fun c =>
  TryCatch (getP c "value" Ret) (fun _ => Ret VUndef) (fun _ =>
  TryCatch (getP c "value" Ret) (fun _ => Ret VUndef) (fun _ =>
  TryCatch (getP c "value" Ret) (fun _ => Ret VUndef) Ret)))).

(** [x = reactive({n: 1});
     c = computed(() => { const v = x.n; x.n = 5; return v })];
    read [c.value], [x.n], [c.value]: the answer is ["stale"] when they
    are 1, 5 and 1. *)
Definition writing_getter : prog :=
  NewObject RTObject [(KStr "n", VNum 1)] true (fun r =>
  Wrap false false r (fun x =>
  ComputedP (getP x "n" (fun v => setP x "n" (VNum 5) (Ret v))) None
    (fun c =>
  getP c "value" (fun v1 =>
  getP x "n" (fun n =>
  getP c "value" (fun v2 =>
  Ret (if strictEq v1 (VNum 1) && strictEq n (VNum 5) && strictEq v2 (VNum 1)
       then VStr "stale" else VStr "fresh"))))))).

(** C6, as stated, fails.  In [throwing_getter] the dependency [x] never
    changes and the getter runs at each of the three reads: a getter that
    throws leaves the computed dirty.  In [writing_getter] the dependency
    [x.n] triggers while the getter runs: no self-trigger is emitted and
    the computed ends clean with the value 1 in its cache, while [x.n] is
    5; the next read returns 1 without running the getter. *)
Lemma C6_counterexample :
  chronicle 20 throwing_getter
  = Some (Normal VUndef,
          [EvCleanup 0; EvRun 0; EvTrack 0 0 VALUE;
           EvCleanup 0; EvRun 0; EvTrack 0 0 VALUE;
           EvCleanup 0; EvRun 0; EvTrack 0 0 VALUE])
  /\ runsOf 0 (log (finalState 20 throwing_getter)) = 3
  /\ chronicle 20 writing_getter
     = Some (Normal (VStr "stale"),
             [EvCleanup 0; EvRun 0; EvTrack 0 0 (KStr "n");
              EvTrigger (VRef 0) SET (Some (KStr "n"))])
  /\ nth_error (heap (finalState 20 writing_getter)) 2
     = Some (OComputed (VNum 1) false 0 None true []).
Proof. vm_compute. repeat split; reflexivity. Qed.

(** With no subscriber of the computed, the call of [trigger] that its
    scheduler makes only logs. *)
Lemma self_trigger_unheard (n : nat) (s : state) (c : addr) :
  depsMapOf s c = None ->
  (exec (S (S n)) (TriggerP (VRef c) SET (Some VALUE) VUndef (Ret VUndef)) ;;
   ret tt) s
  = Some (Normal tt, emit (EvTrigger (VRef c) SET (Some VALUE)) s).
Proof.
  intros Hd.
  change (exec (S (S n))
            (TriggerP (VRef c) SET (Some VALUE) VUndef (Ret VUndef)))
    with (bind (trigger (exec (S n)) (VRef c) SET (Some VALUE) VUndef)
            (fun _ => exec (S n) (Ret VUndef))).
  unfold bind. rewrite (trigger_untracked _ c SET (Some VALUE) VUndef s Hd).
  reflexivity.
Qed.

(** C6, amended.  (1) A read of a computed that is not dirty returns the
    cached value, calls no function and only tracks the computed.  (2) A
    read that returns normally leaves the computed not dirty with the
    value returned in its cache, so that the next read is a read as
    in (1): repeated reads run the getter at most once, provided the
    getter returns normally.  (3) [trigger] passes the effect of a
    computed to its scheduler instead of calling the getter; the
    scheduler of a computed that is not dirty sets [_dirty] and calls
    [trigger(self, SET, "value")] once, (4) and the scheduler of a dirty
    computed does nothing, so further triggers of dependencies before the
    next read emit nothing; (5) with no subscriber of the computed, two
    dependency triggers in a row emit one self-trigger in all.  In S5 the
    getter runs once for two reads, not at all when [x] changes, and once
    more at the next read, which returns 8. *)
Theorem C6_computed_dirty_bit :
  (forall (n : nat) (s : state) (c : addr) val e st ro extra,
      nth_error (heap s) c = Some (OComputed val false e st ro extra) ->
      alookup key_eqb RAW extra = None ->
      exec (S (S n)) (ReflectGet (VRef c) VALUE (VRef c) Ret) s
      = Some (Normal val, track c GET VALUE s)
      /\ forall e', runsOf e' (log (track c GET VALUE s)) = runsOf e' (log s))
  /\ (forall (n : nat) (s : state) (c : addr) val d e st ro extra
             (v : value) (s' : state),
         nth_error (heap s) c = Some (OComputed val d e st ro extra) ->
         alookup key_eqb RAW extra = None ->
         exec (S n) (ReflectGet (VRef c) VALUE (VRef c) Ret) s
         = Some (Normal v, s') ->
         exists extra',
           nth_error (heap s') c = Some (OComputed v false e st ro extra')
           /\ (alookup key_eqb RAW extra' = None ->
               forall m,
                 exec (S (S m)) (ReflectGet (VRef c) VALUE (VRef c) Ret) s'
                 = Some (Normal v, track c GET VALUE s')
                 /\ forall e', runsOf e' (log (track c GET VALUE s'))
                               = runsOf e' (log s')))
  /\ (forall (call : prog -> M value) (s : state) (c : addr) (e : eid)
             (f : ReactiveEffect) val st ro extra,
         effectOf s e = Some f ->
         scheduler (options f) = Some (SchedComputed c) ->
         nth_error (heap s) c = Some (OComputed val false e st ro extra) ->
         alookup key_eqb RAW extra = None ->
         let s1 := writeProp c (KStr "_dirty") (VBool true)
                     (emit (EvSchedule e) s) in
         run call e s
         = (call (TriggerP (VRef c) SET (Some VALUE) VUndef (Ret VUndef)) ;;
            ret tt) s1
         /\ nth_error (heap s1) c = Some (OComputed val true e st ro extra))
  /\ (forall (call : prog -> M value) (s : state) (c : addr) (e : eid)
             (f : ReactiveEffect) val st ro extra,
         effectOf s e = Some f ->
         scheduler (options f) = Some (SchedComputed c) ->
         nth_error (heap s) c = Some (OComputed val true e st ro extra) ->
         run call e s = Some (Normal tt, emit (EvSchedule e) s))
  /\ (forall (n : nat) (s : state) (c : addr) (e : eid)
             (f : ReactiveEffect) val st ro extra,
         effectOf s e = Some f ->
         scheduler (options f) = Some (SchedComputed c) ->
         nth_error (heap s) c = Some (OComputed val false e st ro extra) ->
         alookup key_eqb RAW extra = None ->
         depsMapOf s c = None ->
         let s1 := emit (EvTrigger (VRef c) SET (Some VALUE))
                     (writeProp c (KStr "_dirty") (VBool true)
                        (emit (EvSchedule e) s)) in
         run (exec (S (S n))) e s = Some (Normal tt, s1)
         /\ run (exec (S (S n))) e s1
            = Some (Normal tt, emit (EvSchedule e) s1))
  /\ chronicle 20 S5
     = Some (Normal (VNum 8),
             [EvCleanup 0; EvRun 0; EvTrack 0 0 VALUE;
              EvTrigger (VRef 0) SET (Some VALUE); EvSchedule 0;
              EvTrigger (VRef 1) SET (Some VALUE);
              EvCleanup 0; EvRun 0; EvTrack 0 0 VALUE])
  /\ chronicle 20 S5_two_writes
     = Some (Normal (VNum 10),
             [EvCleanup 0; EvRun 0; EvTrack 0 0 VALUE;
              EvTrigger (VRef 0) SET (Some VALUE); EvSchedule 0;
              EvTrigger (VRef 1) SET (Some VALUE);
              EvTrigger (VRef 0) SET (Some VALUE); EvSchedule 0;
              EvCleanup 0; EvRun 0; EvTrack 0 0 VALUE])
  /\ chronicle 20 S5_downstream
     = Some (Normal VUndef,
             [EvCleanup 1; EvRun 1;
              EvCleanup 0; EvRun 0; EvTrack 0 0 VALUE; EvTrack 1 1 VALUE;
              EvTrigger (VRef 0) SET (Some VALUE); EvSchedule 0;
              EvTrigger (VRef 1) SET (Some VALUE);
              EvCleanup 1; EvRun 1;
              EvCleanup 0; EvRun 0; EvTrack 0 0 VALUE; EvTrack 1 1 VALUE]).
Proof.
  assert (Hcached : forall (n : nat) (s : state) (c : addr) val e st ro extra,
             nth_error (heap s) c = Some (OComputed val false e st ro extra) ->
             alookup key_eqb RAW extra = None ->
             exec (S (S n)) (ReflectGet (VRef c) VALUE (VRef c) Ret) s
             = Some (Normal val, track c GET VALUE s)
             /\ forall e', runsOf e' (log (track c GET VALUE s))
                           = runsOf e' (log s)).
  { intros n s c val e st ro extra H Hx. split.
    - rewrite exec_ReflectGet. unfold bind.
      rewrite (computed_read_cached _ s c val e st ro extra H Hx).
      reflexivity.
    - intros e'. apply (prim_runsOf (PTrack c GET VALUE)). }
  split; [ exact Hcached | ].
  split; [ | split; [ | split; [ | split ] ] ].
  - intros n s c val d e st ro extra v s' H Hx Hrun.
    destruct (computed_read_clean n s c val d e st ro extra v s' H Hx Hrun)
      as [extra' H'].
    exists extra'. split; [ exact H' | ].
    intros Hx' m. apply (Hcached m s' c v e st ro extra' H' Hx').
  - intros call s c e f val st ro extra Ef Hs H Hx s1.
    rewrite (run_scheduled call s e f _ Ef Hs).
    apply (scheduler_clean call (emit (EvSchedule e) s) c e val e st ro extra
             H Hx).
  - intros call s c e f val st ro extra Ef Hs H.
    rewrite (run_scheduled call s e f _ Ef Hs).
    apply (scheduler_dirty call (emit (EvSchedule e) s) c e val e st ro extra H).
  - intros n s c e f val st ro extra Ef Hs H Hx Hd s1.
    destruct (scheduler_clean (exec (S (S n))) (emit (EvSchedule e) s) c e
                val e st ro extra H Hx) as [Hrun Hdirty].
    assert (E1 : run (exec (S (S n))) e s = Some (Normal tt, s1)).
    { rewrite (run_scheduled _ s e f _ Ef Hs), Hrun.
      apply self_trigger_unheard.
      unfold depsMapOf. rewrite writeProp_shape. exact Hd. }
    split; [ exact E1 | ].
    assert (Ef1 : effectOf s1 e = Some f).
    { unfold s1, effectOf. simpl. rewrite writeProp_shape. exact Ef. }
    rewrite (run_scheduled _ s1 e f _ Ef1 Hs).
    apply (scheduler_dirty _ (emit (EvSchedule e) s1) c e val e st ro extra).
    exact Hdirty.
  - vm_compute. repeat split; reflexivity.
Qed.

Lemma C6_witness :
  (exec 2 (ReflectGet (VRef 1) VALUE (VRef 1) Ret) S5_clean
   = Some (Normal (VNum 6), track 1 GET VALUE S5_clean)
   /\ forall e', runsOf e' (log (track 1 GET VALUE S5_clean))
                 = runsOf e' (log S5_clean))
  /\ (nth_error (heap (track 1 GET VALUE S5_clean)) 1
      = Some (OComputed (VNum 6) false 0 None true [])
      /\ exec 2 (ReflectGet (VRef 1) VALUE (VRef 1) Ret)
           (track 1 GET VALUE S5_clean)
         = Some (Normal (VNum 6),
                 track 1 GET VALUE (track 1 GET VALUE S5_clean)))
  /\ nth_error
       (heap (writeProp 1 (KStr "_dirty") (VBool true)
                (emit (EvSchedule 0) S5_clean))) 1
     = Some (OComputed (VNum 6) true 0 None true [])
  /\ run (exec 5) 0 S5_dirty = Some (Normal tt, emit (EvSchedule 0) S5_dirty)
  /\ run (exec 2) 0 S5_clean
     = Some (Normal tt,
             emit (EvTrigger (VRef 1) SET (Some VALUE))
               (writeProp 1 (KStr "_dirty") (VBool true)
                  (emit (EvSchedule 0) S5_clean))).
Proof.
  destruct C6_computed_dirty_bit as [H1 [H2 [H3 [H4 [H5 _]]]]].
  assert (Hc : nth_error (heap S5_clean) 1
               = Some (OComputed (VNum 6) false 0 None true []))
    by (vm_compute; reflexivity).
  split; [ apply (H1 0 S5_clean 1 (VNum 6) 0 None true [] Hc eq_refl) | ].
  split.
  - destruct (H2 1 S5_clean 1 (VNum 6) false 0 None true [] (VNum 6)
                (track 1 GET VALUE S5_clean) Hc eq_refl) as [extra' [Hx Hn]].
    + exact (proj1 (H1 0 S5_clean 1 (VNum 6) 0 None true [] Hc eq_refl)).
    + assert (Hextra : extra' = []).
      { vm_compute in Hx. inversion Hx. reflexivity. }
      subst extra'. split; [ vm_compute; reflexivity | ].
      exact (proj1 (Hn eq_refl 0)).
  - split; [ | split ].
    + apply (H3 (exec 5) S5_clean 1 0 S5_effect (VNum 6) None true []).
      * vm_compute. reflexivity.
      * vm_compute. reflexivity.
      * exact Hc.
      * reflexivity.
    + apply (H4 (exec 5) S5_dirty 1 0 S5_dirty_effect (VNum 6) None true []).
      * vm_compute. reflexivity.
      * vm_compute. reflexivity.
      * vm_compute. reflexivity.
    + apply (H5 0 S5_clean 1 0 S5_effect (VNum 6) None true []).
      * vm_compute. reflexivity.
      * vm_compute. reflexivity.
      * exact Hc.
      * reflexivity.
      * vm_compute. reflexivity.
Defined.
(** ** An effect that writes what it reads *)






(** ** A stopped effect that stays subscribed *)

















(** ** The claim on writes of [length] *)

(** C2, as stated, fails.  The effect of [fraction] reads only the
    property ["1.5"] of a reactive array, so it is in neither the
    [length] Dep nor the Dep of an integer index; yet [a.length = 1]
    collects it and runs it again, because ["1.5" >= 1] holds once the key
    is converted to a number. *)
Lemma C2_counterexample :
  depsMapOf fraction_state 0 = Some fraction_depsMap
  /\ isArray fraction_state (VRef 0) = true
  /\ collect fraction_state fraction_depsMap (VRef 0) SET (Some LENGTH)
       (VNum 1) = Normal [0]
  /\ ~ (forall e, In e [0] <-> lengthRunSet fraction_depsMap 1 e)
  /\ chronicle 20 fraction
     = Some (Normal VUndef,
             [EvCleanup 0; EvRun 0; EvTrack 0 0 (KStr "1.5");
              EvTrigger (VRef 0) SET (Some LENGTH);
              EvCleanup 0; EvRun 0; EvTrack 0 0 (KStr "1.5")]).
Proof.
  split; [ vm_compute; reflexivity | ].
  split; [ vm_compute; reflexivity | ].
  split; [ vm_compute; reflexivity | ].
  split; [ | vm_compute; reflexivity ].
  intros H. destruct (proj1 (H 0) (or_introl eq_refl))
    as [k [dep [Hin [_ Hk]]]].
  destruct Hin as [Heq | []]. inversion Heq; subst k dep.
  destruct Hk as [Hl | [i [Hi _]]]; [ discriminate | ].
  unfold indexKey in Hi. inversion Hi as [Hs].
  pose proof (StringToNumber_decimal (N.of_nat i)) as Hn.
  rewrite <- Hs in Hn. vm_compute in Hn. discriminate.
Qed.

(** C2, amended.  For a trigger with key [length] on an array (any
    operation but CLEAR) with a number [n] as new length: (1) when the
    comparison [key >= n] returns for every key of the Deps (the keys are
    strings), the collection ends normally with a duplicate-free list
    holding exactly the effects that may be scheduled (not the running
    effect, unless it allows recursion) among the members of the [length]
    Dep and of every Dep whose key, converted to a number, is at least
    [n]; (2) for the key of an integer index [i] that test is [n <= i],
    and a key that is not a numeric literal fails it; (3) hence, when the
    keys are [length], integer indices and names that are not numeric,
    the collected effects are those of the [length] Dep and of the Deps
    of the indices [i >= n]; (4) in S2, [a.length = 2] runs E1 and E2
    again and not E3. *)
Theorem C2_length_trigger :
  (forall (s : state) (dm : KeyToDepMap) (target : value)
          (ty : TriggerOpTypes) (n : nat),
      ty <> CLEAR -> isArray s target = true ->
      comparableKeys dm (VNum (Z.of_nat n)) ->
      exists effs,
        collect s dm target ty (Some LENGTH) (VNum (Z.of_nat n))
        = Normal effs
        /\ NoDup effs
        /\ forall e, In e effs <->
                     numericRunSet dm (VNum (Z.of_nat n)) e
                     /\ schedulable s e)
  /\ (forall i n : nat,
         (Z.of_nat n < 4294967296)%Z ->
         keyGe (indexKey i) (VNum (Z.of_nat n)) = Normal (n <=? i))
  /\ (forall (str : string) (n : nat),
         (Z.of_nat n < 4294967296)%Z -> StringToNumber str = JNaN ->
         keyGe (KStr str) (VNum (Z.of_nat n)) = Normal false)
  /\ (forall (s : state) (dm : KeyToDepMap) (target : value)
             (ty : TriggerOpTypes) (n : nat),
         ty <> CLEAR -> isArray s target = true ->
         (Z.of_nat n < 4294967296)%Z -> sequenceKeys dm ->
         exists effs,
           collect s dm target ty (Some LENGTH) (VNum (Z.of_nat n))
           = Normal effs
           /\ NoDup effs
           /\ forall e, In e effs <-> lengthRunSet dm n e /\ schedulable s e)
  /\ depsMapOf S2_state 0 = Some S2_depsMap
  /\ chronicle 20 S2
     = Some (Normal VUndef,
             [EvCleanup 0; EvRun 0; EvTrack 0 0 (KStr "3");
              EvCleanup 1; EvRun 1; EvTrack 1 0 LENGTH;
              EvCleanup 2; EvRun 2; EvTrack 2 0 (KStr "0");
              EvTrigger (VRef 0) SET (Some LENGTH);
              EvCleanup 0; EvRun 0; EvTrack 0 0 (KStr "3");
              EvCleanup 1; EvRun 1; EvTrack 1 0 LENGTH]).
Proof.
  split.
  { intros s dm target ty n Hty Ha Hk.
    apply (collect_length s dm target ty _ Hty Ha Hk). }
  split; [ exact keyGe_index | ].
  split; [ exact keyGe_nonnumeric | ].
  split; [ | split; vm_compute; reflexivity ].
  intros s dm target ty n Hty Ha Hn Hk.
  destruct (collect_length s dm target ty (VNum (Z.of_nat n)) Hty Ha
              (sequenceKeys_comparable dm n Hn Hk)) as [effs [Hc [Hnd Hin]]].
  exists effs. split; [ exact Hc | split; [ exact Hnd | ] ].
  intros e. rewrite Hin, (runSets_agree dm n e Hn Hk). tauto.
Qed.

Lemma C2_witness :
  (exists effs,
      collect fraction_state fraction_depsMap (VRef 0) SET (Some LENGTH)
        (VNum (Z.of_nat 1)) = Normal effs
      /\ NoDup effs
      /\ forall e, In e effs <->
                   numericRunSet fraction_depsMap (VNum (Z.of_nat 1)) e
                   /\ schedulable fraction_state e)
  /\ keyGe (indexKey 3) (VNum (Z.of_nat 2)) = Normal (2 <=? 3)
  /\ keyGe (KStr "push") (VNum (Z.of_nat 2)) = Normal false
  /\ exists effs,
       collect S2_state S2_depsMap (VRef 0) SET (Some LENGTH)
         (VNum (Z.of_nat 2)) = Normal effs
       /\ NoDup effs
       /\ forall e, In e effs <->
                    lengthRunSet S2_depsMap 2 e /\ schedulable S2_state e.
Proof.
  destruct C2_length_trigger as [H1 [H2 [H3 [H4 _]]]].
  split; [ | split; [ | split ] ].
  - apply (H1 fraction_state fraction_depsMap (VRef 0) SET 1).
    + discriminate.
    + vm_compute. reflexivity.
    + intros k dep Hin. destruct Hin as [Heq | []]. inversion Heq; subst.
      right. exists true. reflexivity.
  - apply (H2 3 2). reflexivity.
  - apply (H3 "push" 2); reflexivity.
  - apply (H4 S2_state S2_depsMap (VRef 0) SET 2).
    + discriminate.
    + vm_compute. reflexivity.
    + reflexivity.
    + intros k dep Hin.
      destruct Hin as [Heq | [Heq | [Heq | []]]]; inversion Heq; subst.
      * right. left. exists 3. reflexivity.
      * left. reflexivity.
      * right. left. exists 0. reflexivity.
Defined.
